(** * sisl: EigenSystem, TBtrans and Siesta NetCDF adapters, Monkhorst-Pack weights

    A shallow embedding of the parts of sisl that the specification's
    properties talk about:

    - [sisl/eigensystem.py]       (module [EigenSys])
    - [sisl/io/tbtrans/_cdf.py]   (module [Cdf])
    - [sisl/io/tbtrans/se.py]     (module [SE])
    - [sisl/io/siesta/siesta.py]  (module [Siesta])
    - the Monkhorst-Pack sampling of [sisl/physics/brillouinzone.py]
      (module [MP])

    Python objects live in a heap of mutable objects addressed by
    locations; methods are heap transformers that may raise. *)

From Stdlib Require Import String.
From Stdlib Require Import List ZArith QArith Qabs Qround Lia Bool Arith.
From Stdlib Require Import Permutation Sorted.
From Stdlib Require Import SpecFloat.
Import ListNotations.
Close Scope Q_scope.

Set Implicit Arguments.

(* ===================================================================== *)
(** * Python results and exceptions *)
(* ===================================================================== *)

Module Py.

(** The exception classes the modelled code can raise. *)
Inductive exn : Type :=
| IndexError
| ValueError
| NameError
| KeyError
| NotImplementedError.

Inductive result (A : Type) : Type :=
| Ok (a : A)
| Raise (x : exn).

Arguments Ok {A} a.
Arguments Raise {A} x.

Definition bind {A B : Type} (r : result A) (f : A -> result B) : result B :=
  match r with
  | Ok a => f a
  | Raise x => Raise x
  end.

Definition is_ok {A : Type} (r : result A) : bool :=
  match r with Ok _ => true | Raise _ => false end.

Definition of_option {A : Type} (x : exn) (o : option A) : result A :=
  match o with Some a => Ok a | None => Raise x end.

End Py.

Import Py.

Declare Scope py_scope.
Delimit Scope py_scope with py.
Notation "x <- c ;; k" := (bind c (fun x => k))
  (at level 61, c at next level, right associativity) : py_scope.
Notation "' p <- c ;; k" := (bind c (fun p => k))
  (at level 61, p pattern, c at next level, right associativity) : py_scope.
Local Open Scope py_scope.

(* ===================================================================== *)
(** * Numbers: real eigenvalues and complex vector entries *)
(* ===================================================================== *)

(** Eigenvalues are real numbers and eigenvector entries are complex
    numbers.  Only the ordered-ring structure, negation and complex
    conjugation are used by the code under study, so the reals are taken
    to be [Z] and the complex numbers the Gaussian integers over it
    (no rounding, no NaN). *)
Module Cplx.

Record C : Type := mkC { re : Z; im : Z }.

Definition c0 : C := mkC 0 0.
Definition c1 : C := mkC 1 0.

Definition cadd (x y : C) : C := mkC (re x + re y) (im x + im y).

Definition cmul (x y : C) : C :=
  mkC (re x * re y - im x * im y) (re x * im y + im x * re y).

(** [numpy.conjugate] *)
Definition conj (x : C) : C := mkC (re x) (- im x).

(** a complex entry times a real scalar, [v * e] *)
Definition mul_real (x : C) (r : Z) : C := mkC (re x * r) (im x * r).

(** a real scalar times a complex number, [e . z] *)
Definition real_mul (r : Z) (x : C) : C := mkC (r * re x) (r * im x).

End Cplx.

Import Cplx.

(* ===================================================================== *)
(** * numpy indexing *)
(* ===================================================================== *)

Module Numpy.

(** A Python index into a sequence of length [n]: non-negative indices
    count from the front, negative ones from the back, anything else
    raises [IndexError]. *)
Definition norm_index (n : nat) (i : Z) : result nat :=
  if ((0 <=? i) && (i <? Z.of_nat n))%Z then Ok (Z.to_nat i)
  else if ((- Z.of_nat n <=? i) && (i <? 0))%Z then Ok (Z.to_nat (Z.of_nat n + i))
  else Raise IndexError.

(** The indices [norm_index] accepts, and the position each one names. *)
Definition valid_index (n : nat) (i : Z) : Prop :=
  (- Z.of_nat n <= i < Z.of_nat n)%Z.

Definition wrap (n : nat) (i : Z) : nat :=
  Z.to_nat (if (i <? 0)%Z then Z.of_nat n + i else i).

(** [a[i]] for an integer [i]. *)
Definition item {A : Type} (a : list A) (i : Z) : result A :=
  k <- norm_index (length a) i ;;
  of_option IndexError (nth_error a k).

(** [a[idx]] for an integer array [idx] (fancy indexing along the first
    axis): a new array holding the selected elements in the order of
    [idx]. *)
Fixpoint take {A : Type} (a : list A) (idx : list Z) : result (list A) :=
  match idx with
  | [] => Ok []
  | i :: rest =>
      x <- item a i ;;
      xs <- take a rest ;;
      Ok (x :: xs)
  end.

(** The [n] rows of [c] entries each of a C-contiguous buffer. *)
Fixpoint rows_of {A : Type} (n c : nat) (buf : list A) : list (list A) :=
  match n with
  | O => []
  | S n' => firstn c buf :: rows_of n' c (skipn c buf)
  end.

(** The column count numpy infers for [a.shape = (n, -1)] on a buffer of
    [s] entries; it raises [ValueError] when the size is not a multiple
    of [n] and also when [n = 0]. *)
Definition infer_cols (n s : nat) : result nat :=
  if (n =? 0)%nat then Raise ValueError
  else if (s mod n =? 0)%nat then Ok (s / n)%nat
  else Raise ValueError.

(** [a[k] = x] for an index [k] already checked to be in range; the array
    keeps its length. *)
Fixpoint set_nth {A : Type} (k : nat) (x : A) (a : list A) : list A :=
  match a, k with
  | [], _ => []
  | _ :: t, O => x :: t
  | y :: t, S k' => y :: set_nth k' x t
  end.

(** [numpy.arange(n)] as Python indices. *)
Definition arange (n : nat) : list Z := map Z.of_nat (seq 0 n).

(** The integer arrays are [int64] arrays.  [wrap64] is the value of an
    integer after it is stored in 64 bits, two's complement. *)
Definition min_int64 : Z := (-9223372036854775808)%Z.

Definition in_int64 (x : Z) : Prop :=
  (min_int64 <= x < 9223372036854775808)%Z.

Definition wrap64 (z : Z) : Z :=
  ((z + 9223372036854775808) mod 18446744073709551616
   - 9223372036854775808)%Z.

(** The entries whose negative is an [int64] too: every [int64] but
    the least. *)
Definition has_negative (x : Z) : Prop :=
  (min_int64 < x < 9223372036854775808)%Z.

(** [-a] on an entry of an [int64] array: the negative, except that the
    least [int64] wraps around to itself.  (An integer that is no
    [int64] is no entry of such an array; it is left as it is.) *)
Definition neg64 (x : Z) : Z :=
  if ((min_int64 <? x) && (x <? 9223372036854775808))%Z then (- x)%Z else x.

(** What numpy documents of [numpy.argsort] with its default [kind]:
    the result lists every index of the array once and taking the
    array at it gives a non-decreasing array.  The default kind is not
    a stable sort. *)
Definition argsort_contract (argsort : list Z -> list nat) : Prop :=
  forall a : list Z,
    Permutation (argsort a) (seq 0 (length a)) /\
    Sorted Z.le (map (fun i => nth i a 0%Z) (argsort a)).

(** Two functions that meet the contract, by insertion of the indices
    from the last to the first.  [argsort_stable] puts an index before
    the later indices of equal value (a stable sort, as
    [kind='stable']); [argsort_ties_reversed] puts it after them. *)
Fixpoint insert_index (before : Z -> Z -> bool) (a : list Z) (i : nat)
         (l : list nat) : list nat :=
  match l with
  | [] => [i]
  | j :: r =>
      if before (nth i a 0%Z) (nth j a 0%Z) then i :: j :: r
      else j :: insert_index before a i r
  end.

Definition argsort_by (before : Z -> Z -> bool) (a : list Z) : list nat :=
  fold_right (insert_index before a) [] (seq 0 (length a)).

Definition argsort_stable : list Z -> list nat := argsort_by Z.leb.

Definition argsort_ties_reversed : list Z -> list nat := argsort_by Z.ltb.

End Numpy.

Import Numpy.

(* ===================================================================== *)
(** * sisl/eigensystem.py *)
(* ===================================================================== *)

Module EigenSys.

(** ** The heap of Python objects *)

Definition loc : Type := nat.

(** The free-form [info] dictionary. *)
Definition dict : Type := list (string * Z).

(** The attributes of an [EigenSystem] object.  [e] and [v] name the
    buffers of the two arrays; [nrow] and [ncol] are [self.v.shape]. *)
Record attrs : Type := mkES {
  e : loc;
  v : loc;
  nrow : nat;
  ncol : nat;
  parent : option loc;
  info : loc
}.

Inductive obj : Type :=
| ORealArr (a : list Z)
| OCplxArr (a : list C)
| ODict (d : dict)
| OEigenSystem (s : attrs).

Definition heap : Type := list obj.

(** A method: it reads and extends or updates the heap, or raises. *)
Definition M (A : Type) : Type := heap -> result (A * heap).

Definition alloc (o : obj) : M loc :=
  fun h => Ok (length h, h ++ [o]).

Definition set_obj (l : loc) (o : obj) (h : heap) : heap :=
  set_nth l o h.

(** Reading an attribute of the wrong kind has no counterpart in a run
    of the Python code; it is an [KeyError] here. *)
Definition get_real (l : loc) (h : heap) : result (list Z) :=
  match nth_error h l with
  | Some (ORealArr a) => Ok a
  | _ => Raise KeyError
  end.

Definition get_cplx (l : loc) (h : heap) : result (list C) :=
  match nth_error h l with
  | Some (OCplxArr a) => Ok a
  | _ => Raise KeyError
  end.

Definition get_dict (l : loc) (h : heap) : result dict :=
  match nth_error h l with
  | Some (ODict d) => Ok d
  | _ => Raise KeyError
  end.

Definition get_es (l : loc) (h : heap) : result attrs :=
  match nth_error h l with
  | Some (OEigenSystem s) => Ok s
  | _ => Raise KeyError
  end.

Definition set_info (s : attrs) (i : loc) : attrs :=
  mkES (e s) (v s) (nrow s) (ncol s) (parent s) i.

(** ** Views of an EigenSystem in a heap *)

(** [self.e] as a list of values. *)
Definition evals (h : heap) (self : loc) : result (list Z) :=
  s <- get_es self h ;;
  get_real (e s) h.

(** [self.v] as its list of rows. *)
Definition evecs (h : heap) (self : loc) : result (list (list C)) :=
  s <- get_es self h ;;
  vb <- get_cplx (v s) h ;;
  Ok (rows_of (nrow s) (ncol s) vb).

(** ** EigenSystem.__init__

    [e] and [v] are the values of the two array arguments, already
    flattened by [ravel]; every call in this file passes arrays it has
    just made, and the buffers are allocated here.  The [info] keyword
    arguments become a new dictionary. *)
Definition __init__ (ev : list Z) (vv : list C) (par : option loc) (kw : dict)
  : M loc :=
  fun h =>
    '(le, h1) <- alloc (ORealArr ev) h ;;
    '(lv, h2) <- alloc (OCplxArr vv) h1 ;;
    c <- infer_cols (length ev) (length vv) ;;
    '(li, h3) <- alloc (ODict kw) h2 ;;
    alloc (OEigenSystem (mkES le lv (length ev) c par li)) h3.

(** [len(self)] *)
Definition __len__ (self : loc) (h : heap) : result nat :=
  eb <- evals h self ;;
  Ok (length eb).

(** [self.size()] *)
Definition size (self : loc) (h : heap) : result nat :=
  s <- get_es self h ;;
  Ok (ncol s).

(** ** EigenSystem.sub

    [idx] is the index argument after [asarrayi]; a single integer
    selects like the one-element sequence. *)
Definition sub (self : loc) (idx : list Z) : M loc :=
  fun h =>
    s <- get_es self h ;;
    eb <- get_real (e s) h ;;
    vb <- get_cplx (v s) h ;;
    es <- take eb idx ;;
    vs <- take (rows_of (nrow s) (ncol s) vb) idx ;;
    '(l, h1) <- __init__ es (concat vs) (parent s) [] h ;;
    s' <- get_es l h1 ;;
    Ok (l, set_obj l (OEigenSystem (set_info s' (info s))) h1).

(** ** EigenSystem.__getitem__ *)
Definition __getitem__ (self : loc) (key : list Z) : M loc :=
  fun h =>
    s <- get_es self h ;;
    eb <- get_real (e s) h ;;
    vb <- get_cplx (v s) h ;;
    es <- take eb key ;;
    vs <- take (rows_of (nrow s) (ncol s) vb) key ;;
    '(l, h1) <- __init__ es (concat vs) (parent s) [] h ;;
    s' <- get_es l h1 ;;
    Ok (l, set_obj l (OEigenSystem (set_info s' (info s))) h1).

(** ** EigenSystem.copy *)
Definition copy (self : loc) : M loc :=
  fun h =>
    s <- get_es self h ;;
    eb <- get_real (e s) h ;;
    vb <- get_cplx (v s) h ;;
    '(l, h1) <- __init__ eb (concat (rows_of (nrow s) (ncol s) vb)) (parent s) [] h ;;
    s' <- get_es l h1 ;;
    Ok (l, set_obj l (OEigenSystem (set_info s' (info s))) h1).

(** ** EigenSystem.iter (both flags [False]) and __iter__

    The generator yields [self.sub(i)] for [i] in [range(len(self))];
    the list holds what it yields when run to its end. *)
Fixpoint sub_each (self : loc) (ixs : list Z) : M (list loc) :=
  fun h =>
    match ixs with
    | [] => Ok ([], h)
    | i :: rest =>
        '(l, h1) <- sub self [i] h ;;
        '(ls, h2) <- sub_each self rest h1 ;;
        Ok (l :: ls, h2)
    end.

Definition iter (self : loc) : M (list loc) :=
  fun h =>
    n <- __len__ self h ;;
    sub_each self (arange n) h.

Definition __iter__ (self : loc) : M (list loc) := iter self.

(** ** _outer and EigenSystem.outer

    The products and sums are those of the arrays: numpy takes them
    from the dtypes of [e] and [v], with wrap-around for integers and
    rounding for floating point.  The methods are stated over any
    operations in their place; nothing is assumed of them. *)
Section Arithmetic.

(** [v * e] of an entry and an eigenvalue, the product of two entries,
    the sum of two entries and [numpy.conjugate]. *)
Variable times_e : C -> Z -> C.
Variable times : C -> C -> C.
Variable plus : C -> C -> C.
Variable conjugate : C -> C.

(** [numpy.outer(x, y)] *)
Definition np_outer (x y : list C) : list (list C) :=
  map (fun a => map (fun b => times a b) y) x.

Definition _outer (ei : Z) (vi : list C) : list (list C) :=
  np_outer (map (fun x => times_e x ei) vi) (map conjugate vi).

(** [m += n] on two matrices of one shape *)
Definition madd (m n : list (list C)) : list (list C) :=
  map (fun rr => map (fun xy => plus (fst xy) (snd xy)) (combine (fst rr) (snd rr)))
      (combine m n).

(** One turn of the accumulation loop: [m += _outer(self.e[i], self.v[i, :])]. *)
Definition outer_step (eb : list Z) (rows : list (list C))
           (acc : result (list (list C))) (i : Z) : result (list (list C)) :=
  m <- acc ;;
  ei <- item eb i ;;
  vi <- item rows i ;;
  Ok (madd m (_outer ei vi)).

Definition outer (self : loc) (idx : option (list Z)) (h : heap)
  : result (list (list C)) :=
  s <- get_es self h ;;
  eb <- get_real (e s) h ;;
  vb <- get_cplx (v s) h ;;
  let rows := rows_of (nrow s) (ncol s) vb in
  match idx with
  | None =>
      e0 <- item eb 0%Z ;;
      v0 <- item rows 0%Z ;;
      fold_left (outer_step eb rows)
                (map Z.of_nat (seq 1 (length eb - 1)))
                (Ok (_outer e0 v0))
  | Some idx =>
      i0 <- item idx 0%Z ;;
      e0 <- item eb i0 ;;
      v0 <- item rows i0 ;;
      fold_left (outer_step eb rows) (skipn 1 idx) (Ok (_outer e0 v0))
  end.

(** The sum the documentation of [outer] names, entry by entry and in
    the order the code adds: the term of state [i] at [(a, b)] is
    [(v_i[a] * e_i) * conj(v_i[b])], and the terms of the selected
    states are added from the first to the last. *)
Definition outer_term (eb : list Z) (rows : list (list C)) (a b i : nat) : C :=
  times (times_e (nth a (nth i rows []) c0) (nth i eb 0%Z))
        (conjugate (nth b (nth i rows []) c0)).

Definition sum_in_order (f : nat -> C) (sel : list nat) : C :=
  match sel with
  | [] => c0
  | i0 :: rest => fold_left (fun acc i => plus acc (f i)) rest (f i0)
  end.

Definition tabulate2 (n : nat) (f : nat -> nat -> C) : list (list C) :=
  map (fun a => map (fun b => f a b) (seq 0 n)) (seq 0 n).

Definition outer_sum (eb : list Z) (rows : list (list C)) (n : nat)
           (sel : list nat) : list (list C) :=
  tabulate2 n (fun a b => sum_in_order (outer_term eb rows a b) sel).

End Arithmetic.

(** ** EigenSystem.sort

    [numpy.argsort] is numpy's; the method is stated over any function
    in its place. *)
Section Sort.

Variable argsort : list Z -> list nat.

Definition sort (self : loc) (ascending : bool) : M unit :=
  fun h =>
    s <- get_es self h ;;
    eb <- get_real (e s) h ;;
    vb <- get_cplx (v s) h ;;
    let idx := map Z.of_nat
                   (if ascending then argsort eb
                    else argsort (map neg64 eb)) in
    es <- take eb idx ;;
    '(le, h1) <- alloc (ORealArr es) h ;;
    vs <- take (rows_of (nrow s) (ncol s) vb) idx ;;
    '(lv, h2) <- alloc (OCplxArr (concat vs)) h1 ;;
    Ok (tt, set_obj self
              (OEigenSystem (mkES le lv (length idx) (ncol s) (parent s) (info s)))
              h2).

End Sort.

(** The index array [sort] computes. *)
Definition sort_index (argsort : list Z -> list nat) (asc : bool)
           (eb : list Z) : list nat :=
  if asc then argsort eb else argsort (map neg64 eb).

(** ** Writing to objects the caller holds *)

(** [es.info[k] = x] *)
Definition info_setitem (self : loc) (k : string) (x : Z) : M unit :=
  fun h =>
    s <- get_es self h ;;
    d <- get_dict (info s) h ;;
    Ok (tt, set_obj (info s) (ODict ((k, x) :: filter (fun kv => negb (String.eqb (fst kv) k)) d)) h).

(** [es.e[i] = x] *)
Definition e_setitem (self : loc) (i : Z) (x : Z) : M unit :=
  fun h =>
    s <- get_es self h ;;
    eb <- get_real (e s) h ;;
    k <- norm_index (length eb) i ;;
    Ok (tt, set_obj (e s) (ORealArr (set_nth k x eb)) h).

(** [es.v[i, j] = x] *)
Definition v_setitem (self : loc) (i j : Z) (x : C) : M unit :=
  fun h =>
    s <- get_es self h ;;
    vb <- get_cplx (v s) h ;;
    ki <- norm_index (nrow s) i ;;
    kj <- norm_index (ncol s) j ;;
    let k := (ki * ncol s + kj)%nat in
    Ok (tt, set_obj (v s) (OCplxArr (set_nth k x vb)) h).

(** The objects a successful [__init__] appends. *)
Definition init_objs (h : heap) (ev : list Z) (vv : list C) (c : nat)
           (par : option loc) (kw : dict) (i : loc) : list obj :=
  [ORealArr ev; OCplxArr vv; ODict kw;
   OEigenSystem (mkES (length h) (S (length h)) (length ev) c par i)].

(** ** The shape invariant and the producers of systems *)

(** The system at [self] is well formed in [h]: its attributes name the
    two buffers, there is one eigenvector row per eigenvalue and the
    eigenvector buffer fills the shape [(len(e), size)]. *)
Definition shape_ok (h : heap) (self : loc) : Prop :=
  exists s eb vb,
    get_es self h = Ok s /\
    get_real (e s) h = Ok eb /\
    get_cplx (v s) h = Ok vb /\
    nrow s = length eb /\
    length vb = (nrow s * ncol s)%nat.

(** The invariant as a reader of the object sees it: [len(self.e)] rows
    in [self.v], each of [self.size()] entries. *)
Definition invariant (h : heap) (self : loc) : Prop :=
  exists eb rows c,
    evals h self = Ok eb /\
    evecs h self = Ok rows /\
    size self h = Ok c /\
    length rows = length eb /\
    Forall (fun r => length r = c) rows.

(** An EigenSystem as the constructor leaves it: the shape holds and
    there is at least one eigenvalue ([__init__] raises on none). *)
Definition well_formed (h : heap) (self : loc) : Prop :=
  shape_ok h self /\
  exists s, get_es self h = Ok s /\ (0 < nrow s)%nat.

(** [self.info] as the dictionary it names. *)
Definition info_of (h : heap) (self : loc) : result dict :=
  s <- get_es self h ;;
  get_dict (info s) h.

(** The pairs [(e[i], v[i, :])] of a system, in order. *)
Definition pairs (h : heap) (self : loc) : result (list (Z * list C)) :=
  eb <- evals h self ;;
  rows <- evecs h self ;;
  Ok (combine eb rows).

(** Systems made by the constructor, [copy], [sub], [__getitem__] or
    iteration, and what [sort] and further calls leave of them. *)
Inductive produced (argsort : list Z -> list nat) : heap -> loc -> Prop :=
| by_init ev vv par kw h l h' :
    __init__ ev vv par kw h = Ok (l, h') -> produced argsort h' l
| by_copy self h l h' :
    copy self h = Ok (l, h') -> produced argsort h' l
| by_sub self idx h l h' :
    sub self idx h = Ok (l, h') -> produced argsort h' l
| by_getitem self key h l h' :
    __getitem__ self key h = Ok (l, h') -> produced argsort h' l
| by_iter self h ls h' l :
    iter self h = Ok (ls, h') -> In l ls -> produced argsort h' l
| by_sort self asc h h' :
    produced argsort h self ->
    sort argsort self asc h = Ok (tt, h') -> produced argsort h' self.

(** ** Sample systems *)

(** The heap after [EigenSystem([3, 1, 2], [[1, 0], [1j, 2], [5, 0]])]. *)
Definition demo_heap : heap :=
  [ORealArr [3; 1; 2]%Z;
   OCplxArr [mkC 1 0; mkC 0 0; mkC 0 1; mkC 2 0; mkC 5 0; mkC 0 0];
   ODict [];
   OEigenSystem (mkES 0 1 3 2 None 2)].

(** The heap after [EigenSystem([1, 1], [[1, 0], [0, 1]])]: two equal
    eigenvalues. *)
Definition ties_heap : heap :=
  [ORealArr [1; 1]%Z;
   OCplxArr [mkC 1 0; mkC 0 0; mkC 0 0; mkC 1 0];
   ODict [];
   OEigenSystem (mkES 0 1 2 2 None 2)].

(** The heap after [EigenSystem([-2**63, 0, 5], [[1], [2], [3]])], the
    eigenvalues an [int64] array with the least [int64]. *)
Definition least_heap : heap :=
  [ORealArr [min_int64; 0; 5]%Z;
   OCplxArr [mkC 1 0; mkC 2 0; mkC 3 0];
   ODict [];
   OEigenSystem (mkES 0 1 3 1 None 2)].

(** The heap after [EigenSystem([1, 2], [[1, 0], [0, 1]])]. *)
Definition diag_heap : heap :=
  [ORealArr [1; 2]%Z;
   OCplxArr [mkC 1 0; mkC 0 0; mkC 0 0; mkC 1 0];
   ODict [];
   OEigenSystem (mkES 0 1 2 2 None 2)].

End EigenSys.

(* ===================================================================== *)
(** * float64: the arithmetic of Python floats and of numpy's float64 *)
(* ===================================================================== *)

Module F64.

(** An IEEE-754 binary64 value: a signed zero, an infinity, NaN, or
    [(-1)^s * m * 2^e].  The operations round to nearest, ties to even. *)
Definition float : Type := spec_float.

Definition prec : Z := 53.
Definition emax : Z := 1024.

Definition fadd : float -> float -> float := SFadd prec emax.
Definition fsub : float -> float -> float := SFsub prec emax.
Definition fmul : float -> float -> float := SFmul prec emax.
Definition fdiv : float -> float -> float := SFdiv prec emax.
Definition fabs : float -> float := SFabs.

(** [a <= b], [a < b] and [a == b]; each is false when a side is NaN. *)
Definition fleb : float -> float -> bool := SFleb.
Definition fltb : float -> float -> bool := SFltb.
Definition feqb : float -> float -> bool := SFeqb.

Definition is_nan (x : float) : bool :=
  match x with S754_nan => true | _ => false end.

(** [numpy.isfinite]. *)
Definition isfinite (x : float) : bool :=
  match x with S754_zero _ | S754_finite _ _ _ => true | _ => false end.

(** The float of a Python int. *)
Definition of_Z (z : Z) : float := binary_normalize prec emax z 0 false.

(** The positive float [m * 2^e]. *)
Definition lit (m : positive) (e : Z) : float := S754_finite false m e.

Definition zero : float := S754_zero false.
Definition one : float := lit 4503599627370496 (-52).

(** A finite float other than zero. *)
Definition is_nonzero_finite (x : float) : bool :=
  match x with S754_finite _ _ _ => true | _ => false end.

(** The double nearest to 13.605814541346533, a sample value of
    [unit_convert('Ry', 'eV')]. *)
Definition Ry2eV_sample : float := lit 7659392662310040 (-49).

End F64.

(** Case analysis on float64 values and on the comparisons of their
    exponents and mantissas. *)
Ltac order_cases :=
  repeat match goal with
         | |- context [Z.compare ?x ?y] => destruct (Z.compare_spec x y)
         | H : context [Z.compare ?x ?y] |- _ => destruct (Z.compare_spec x y)
         | |- context [Pos.compare_cont Eq ?x ?y] =>
             change (Pos.compare_cont Eq x y) with (Pos.compare x y);
             destruct (Pos.compare_spec x y)
         | H : context [Pos.compare_cont Eq ?x ?y] |- _ =>
             change (Pos.compare_cont Eq x y) with (Pos.compare x y) in H;
             destruct (Pos.compare_spec x y)
         end;
  simpl in *; try subst; try discriminate; try reflexivity; try lia.

Ltac float_cases x := destruct x as [[]|[]| |[] ? ?].

(* ===================================================================== *)
(** * sisl/io/tbtrans/_cdf.py *)
(* ===================================================================== *)

(** The lookups over exact rationals, as they would be without
    rounding: the self-energy methods below go through them, where only
    whether a lookup returns or raises matters.  The lookups in the
    float64 arithmetic of the code are in [Cdf64]. *)
Module Cdf.

Local Open Scope Q_scope.

(** The [E] argument of [Eindex]: an [Integral], a float or a string. *)
Inductive energy_arg : Type :=
| EInt (i : Z)
| EFloat (x : Q)
| EStr (s : string).

(** What the methods read from the NetCDF file: the variable [E] (in
    Ry) and the rows of the variable [kpt]. *)
Record file : Type := mkFile {
  var_E : list Q;
  var_kpt : list (Q * Q * Q)
}.

(** [numpy.argmin]: the first position of the least entry; it raises
    [ValueError] on an empty array. *)
Fixpoint argmin_from (best_i : nat) (best : Q) (i : nat) (l : list Q) : nat :=
  match l with
  | [] => best_i
  | x :: r =>
      if negb (Qle_bool best x) then argmin_from i x (S i) r
      else argmin_from best_i best (S i) r
  end.

Definition argmin (l : list Q) : result nat :=
  match l with
  | [] => Raise ValueError
  | x :: r => Ok (argmin_from 0 x 1 r)
  end.

(** The L1 distance [np.sum(np.abs(row - k))] of a row of [self.k] to [k]. *)
Definition l1_dist (row k : Q * Q * Q) : Q :=
  let '(a, b, c) := row in
  let '(x, y, z) := k in
  Qabs (a - x) + Qabs (b - y) + Qabs (c - z).

(** One component of [numpy.allclose(a, b, atol)], with the default
    [rtol = 1e-5]: [|a - b| <= atol + rtol * |b|]. *)
Definition isclose (atol : Q) (a b : Q) : bool :=
  Qle_bool (Qabs (a - b)) (atol + (1 # 100000) * Qabs b).

Definition allclose (atol : Q) (row k : Q * Q * Q) : bool :=
  let '(a, b, c) := row in
  let '(x, y, z) := k in
  isclose atol a x && isclose atol b y && isclose atol c z.

Section Methods.

(** [unit_convert('Ry', 'eV')] and Python's [float] on a string. *)
Variable Ry2eV : Q.
Variable float_of_str : string -> option Q.

(** The property [E]: the sampled energies in eV. *)
Definition prop_E (f : file) : list Q := map (fun x => x * Ry2eV) (var_E f).

(** The property [k]. *)
Definition prop_k (f : file) : list (Q * Q * Q) := var_kpt f.

(** [Eindex]: the index, and whether a [UserWarning] was emitted. *)
Definition Eindex (f : file) (E : energy_arg) : result (Z * bool) :=
  match E with
  | EInt i => Ok (i, false)
  | _ =>
      x <- match E with
           | EStr s => of_option ValueError (float_of_str s)
           | EFloat x => Ok x
           | EInt i => Ok (inject_Z i)
           end ;;
      idxE <- argmin (map (fun en => Qabs (en - x)) (prop_E f)) ;;
      ret_E <- of_option IndexError (nth_error (prop_E f) idxE) ;;
      Ok (Z.of_nat idxE, negb (Qle_bool (Qabs (ret_E - x)) (1 # 1000)))
  end.

(** [kindex]: the index, and whether a [UserWarning] was emitted. *)
Definition kindex (f : file) (k : Q * Q * Q) : result (nat * bool) :=
  ik <- argmin (map (fun row => l1_dist row k) (prop_k f)) ;;
  ret_k <- of_option IndexError (nth_error (prop_k f) ik) ;;
  Ok (ik, negb (allclose (1 # 10000) ret_k k)).

End Methods.

End Cdf.

(** The same lookups in the arithmetic the code computes in: [self.E]
    and [self.k] are float64 arrays, [E] is a Python float. *)
Module Cdf64.

Import F64.

Inductive energy_arg : Type :=
| EInt (i : Z)
| EFloat (x : float)
| EStr (s : string).

Record file : Type := mkFile {
  var_E : list float;
  var_kpt : list (float * float * float)
}.

(** [numpy.argmin] on float64: the position of the first NaN if there
    is one, else the first position of the least entry.  The scan keeps
    the running minimum [mp], replaces it by an entry [x] when
    [not (x >= mp)], and stops at a NaN. *)
Fixpoint argmin_from (best_i : nat) (best : float) (i : nat) (l : list float)
  : nat :=
  match l with
  | [] => best_i
  | x :: r =>
      if is_nan best then best_i
      else if negb (fleb best x) then argmin_from i x (S i) r
      else argmin_from best_i best (S i) r
  end.

Definition argmin (l : list float) : result nat :=
  match l with
  | [] => Raise ValueError
  | x :: r => Ok (argmin_from 0 x 1 r)
  end.

(** No entry is NaN. *)
Definition no_nan (l : list float) : Prop :=
  Forall (fun y => is_nan y = false) l.

(** The literals [1e-3], [0.0001] and numpy's default [rtol = 1e-5]. *)
Definition tol_E : float := lit 4611686018427388 (-62).
Definition atol_k : float := lit 7378697629483821 (-66).
Definition rtol_default : float := lit 5902958103587057 (-69).

(** One component of [numpy.allclose(a, b, atol)]:
    [|a - b| <= atol + rtol * |b|] when both are finite, [a == b]
    otherwise. *)
Definition tolerance (atol b : float) : float :=
  fadd atol (fmul rtol_default (fabs b)).

Definition isclose (atol : float) (a b : float) : bool :=
  if isfinite a && isfinite b then fleb (fabs (fsub a b)) (tolerance atol b)
  else feqb a b.

Definition allclose (atol : float) (row k : float * float * float) : bool :=
  let '(a, b, c) := row in
  let '(x, y, z) := k in
  isclose atol a x && isclose atol b y && isclose atol c z.

Section Methods.

(** [unit_convert('Ry', 'eV')], Python's [float] on a string, and
    [numpy.sum] over the three entries of a row (numpy chooses the order
    of the two additions). *)
Variable Ry2eV : float.
Variable float_of_str : string -> option float.
Variable np_sum : float -> float -> float -> float.

(** The property [E]: the sampled energies in eV. *)
Definition prop_E (f : file) : list float :=
  map (fun x => fmul x Ry2eV) (var_E f).

(** The property [k]. *)
Definition prop_k (f : file) : list (float * float * float) := var_kpt f.

(** [np.sum(np.abs(row - k))] for a row of [self.k]. *)
Definition l1_dist (row k : float * float * float) : float :=
  let '(a, b, c) := row in
  let '(x, y, z) := k in
  np_sum (fabs (fsub a x)) (fabs (fsub b y)) (fabs (fsub c z)).

(** [Eindex]: the index, and whether a [UserWarning] was emitted. *)
Definition Eindex (f : file) (E : energy_arg) : result (Z * bool) :=
  match E with
  | EInt i => Ok (i, false)
  | _ =>
      x <- match E with
           | EStr s => of_option ValueError (float_of_str s)
           | EFloat x => Ok x
           | EInt i => Ok (of_Z i)
           end ;;
      idxE <- argmin (map (fun en => fabs (fsub en x)) (prop_E f)) ;;
      ret_E <- of_option IndexError (nth_error (prop_E f) idxE) ;;
      Ok (Z.of_nat idxE, fltb tol_E (fabs (fsub ret_E x)))
  end.

(** [kindex]: the index, and whether a [UserWarning] was emitted. *)
Definition kindex (f : file) (k : float * float * float) : result (nat * bool) :=
  ik <- argmin (map (fun row => l1_dist row k) (prop_k f)) ;;
  ret_k <- of_option IndexError (nth_error (prop_k f) ik) ;;
  Ok (ik, negb (allclose atol_k ret_k k)).

End Methods.

(** What [numpy.allclose(ret, k, atol)] tests, component by component. *)
Definition component_close (atol a b : float) : Prop :=
  (isfinite a = true /\ isfinite b = true /\
   fleb (fabs (fsub a b)) (tolerance atol b) = true) \/
  ((isfinite a = false \/ isfinite b = false) /\ feqb a b = true).

Definition components_close (atol : float) (ret k : float * float * float)
  : Prop :=
  let '(a, b, c) := ret in
  let '(x, y, z) := k in
  component_close atol a x /\ component_close atol b y /\
  component_close atol c z.

(** The sum of a row from left to right, [(p + q) + r]. *)
Definition sum_left (p q r : float) : float := fadd (fadd p q) r.

(** A file with the single k-point [(0.500104, 0, 0)] and the single
    energy of 1 Ry; a file with no energy and no k-point at all; a file
    whose energy 7.349798844906441e-05 Ry is 0.001 eV after rounding;
    and a file with the energies 0 and 1 Ry. *)
Definition one_point_file : file :=
  mkFile [one] [(lit 4504536376092989 (-53), zero, zero)].

Definition empty_file : file := mkFile [] [].

Definition milli_file : file :=
  mkFile [lit 5423194331409408 (-66)] [(zero, zero, zero)].

Definition two_energy_file : file :=
  mkFile [zero; one] [(zero, zero, zero)].

Definition half : float := lit 4503599627370496 (-53).

End Cdf64.

(* ===================================================================== *)
(** * sisl/io/tbtrans/se.py *)
(* ===================================================================== *)

Module SE.

(** The [elec] argument: an electrode index or an electrode name. *)
Inductive elec_arg : Type :=
| ElecInt (i : Z)
| ElecStr (s : string).

(** A self-energy variable of an electrode group, indexed
    [k][E][row][column]; an entry is a real number in Ry. *)
Definition ndarray4 : Type := list (list (list (list Q))).

(** A complex matrix in eV, entries as (real, imaginary). *)
Definition cmatrix : Type := list (list (Q * Q)).

(** The group of one electrode in the file. *)
Record elec_group : Type := mkGroup {
  g_pivot : list Z;
  g_ReSelfEnergyMean : option ndarray4;
  g_ImSelfEnergyMean : option ndarray4
}.

(** What the methods read from a [TBT.SE.nc] file: the dimensions
    [no_u] and [no_d], the variable [pivot] (1-based orbitals of the
    device region), the electrode groups in file order, and the energy
    and k-point variables of the common base class. *)
Record file : Type := mkFile {
  no : nat;
  no_d : nat;
  var_pivot : list Z;
  groups : list (string * elec_group);
  cdf : Cdf.file
}.

(** [numpy.sort] of an integer array. *)
Fixpoint insert_sorted (x : Z) (l : list Z) : list Z :=
  match l with
  | [] => [x]
  | y :: r => if (x <=? y)%Z then x :: y :: r else y :: insert_sorted x r
  end.

Definition np_sort (l : list Z) : list Z := fold_right insert_sorted [] l.

(** [numpy.cumsum] *)
Fixpoint cumsum_from (acc : Z) (l : list Z) : list Z :=
  match l with
  | [] => []
  | x :: r => (acc + x)%Z :: cumsum_from (acc + x)%Z r
  end.

Definition cumsum (l : list Z) : list Z := cumsum_from 0%Z l.

(** [a[idx] = x] for an index array [idx]. *)
Fixpoint assign_at (a : list Z) (idx : list Z) (x : Z) : result (list Z) :=
  match idx with
  | [] => Ok a
  | i :: rest =>
      k <- norm_index (length a) i ;;
      assign_at (set_nth k x a) rest x
  end.

(** [in1d(a, b, assume_unique=True).nonzero()[0]]: the positions of [a]
    whose entry occurs in [b]; pivot tables hold every orbital once. *)
Fixpoint positions_in_from (i : Z) (a b : list Z) : list Z :=
  match a with
  | [] => []
  | x :: r =>
      if existsb (Z.eqb x) b then i :: positions_in_from (i + 1)%Z r b
      else positions_in_from (i + 1)%Z r b
  end.

Definition in1d_nonzero (a b : list Z) : list Z := positions_in_from 0%Z a b.

(** Element-wise [a - b] of two arrays of one length. *)
Definition sub_arrays (a b : list Z) : list Z :=
  map (fun xy => (fst xy - snd xy)%Z) (combine a b).

Section Methods.

(** Python's [int] on a string, [float] on a string,
    [unit_convert('Ry', 'eV')], [numpy.argsort], and the value a name
    [ik] imported by [from sisl.utils import *] would have; neither
    [se.py] nor the function binds that name. *)
Variable int_of_str : string -> option Z.
Variable float_of_str : string -> option Q.
Variable Ry2eV : Q.
Variable argsort : list Z -> list nat.
Variable imported_ik : option Z.

(** The property [elecs]. *)
Definition elecs (f : file) : list string := map fst (groups f).

(** [_elec]: [elec = int(elec)] rebinds the argument, then
    [self.elecs[elec]] is returned; on any exception [elec] is
    returned: the argument as it came when [int] raised, the integer
    it was rebound to when the index is out of range. *)
Definition _elec (f : file) (elec : elec_arg) : elec_arg :=
  let as_int :=
    match elec with
    | ElecInt i => Some i
    | ElecStr s => int_of_str s
    end in
  match as_int with
  | Some i =>
      match item (elecs f) i with
      | Ok name => ElecStr name
      | Raise _ => ElecInt i
      end
  | None => elec
  end.

(** The group a [tree] argument names; a name that is not a group of
    the file raises (the class is netCDF4's, [KeyError] here). *)
Definition group_of (f : file) (tree : elec_arg) : result elec_group :=
  match tree with
  | ElecStr name =>
      match find (fun g => String.eqb (fst g) name) (groups f) with
      | Some g => Ok (snd g)
      | None => Raise KeyError
      end
  | ElecInt _ => Raise KeyError
  end.

(** ** tbtsencSileTBtrans.pivot *)
Definition pivot (f : file) (elec : option elec_arg) (in_device sort : bool)
  : result (list Z) :=
  match elec with
  | None =>
      (* [pvt = _a.arangei(self.no_d)], replaced on the next line *)
      let pvt := if in_device && sort then arange (no_d f) else [] in
      let pvt := map (fun x => (x - 1)%Z) (var_pivot f) in
      if in_device then
        subn <- assign_at (repeat 1%Z (no f)) pvt 0%Z ;;
        shift <- take (cumsum subn) pvt ;;
        Ok (sub_arrays pvt shift)
      else if sort then Ok (np_sort pvt)
      else Ok pvt
  | Some el =>
      let pvt :=
        if in_device then
          let p := map (fun x => (x - 1)%Z) (var_pivot f) in
          if sort then np_sort p else p
        else [] in
      g <- group_of f (_elec f el) ;;
      let se_pvt := map (fun x => (x - 1)%Z) (g_pivot g) in
      let se_pvt := if sort then np_sort se_pvt else se_pvt in
      if in_device then Ok (in1d_nonzero pvt se_pvt)
      else Ok se_pvt
  end.

(** [(re[ik, iE, :, :] + 1j * im[ik, iE, :, :]) * Ry2eV] *)
Definition se_matrix (re im : ndarray4) (ik iE : Z) : result cmatrix :=
  re_k <- item re ik ;;
  re_kE <- item re_k iE ;;
  im_k <- item im ik ;;
  im_kE <- item im_k iE ;;
  Ok (map (fun rows =>
             map (fun xy => (fst xy * Ry2eV, snd xy * Ry2eV)%Q)
                 (combine (fst rows) (snd rows)))
          (combine re_kE im_kE)).

(** [SE[idx, idx.T]] for a column vector [idx] *)
Definition index_square (m : cmatrix) (idx : list Z) : result cmatrix :=
  rows <- take m idx ;;
  (fix each (rs : list (list (Q * Q))) : result cmatrix :=
     match rs with
     | [] => Ok []
     | r :: rest =>
         r' <- take r idx ;;
         rest' <- each rest ;;
         Ok (r' :: rest')
     end) rows.

(** ** tbtsencSileTBtrans.self_energy_average *)
Definition self_energy_average (f : file) (elec : elec_arg)
           (E : Cdf.energy_arg) (sort : bool) : result cmatrix :=
  let tree := _elec f elec in
  iE <- Cdf.Eindex Ry2eV float_of_str (cdf f) E ;;
  g <- group_of f tree ;;
  re <- of_option KeyError (g_ReSelfEnergyMean g) ;;
  im <- of_option KeyError (g_ImSelfEnergyMean g) ;;
  (* the name [ik] is looked up here *)
  ik <- of_option NameError imported_ik ;;
  SE <- se_matrix re im ik (fst iE) ;;
  if sort then
    pvt <- pivot f (Some elec) false false ;;
    index_square SE (map Z.of_nat (argsort pvt))
  else Ok SE.

(** ** tbtsencSileTBtrans.self_energy

    [kvars] gives, for the name of an electrode group, its variables
    [ReSelfEnergy] and [ImSelfEnergy] (indexed [k][E][row][column]);
    the warnings of the two lookups are dropped. *)
Definition self_energy (kvars : string -> option (ndarray4 * ndarray4))
           (f : file) (elec : elec_arg) (E : Cdf.energy_arg)
           (k : Q * Q * Q) (sort : bool) : result cmatrix :=
  let tree := _elec f elec in
  ik <- Cdf.kindex (cdf f) k ;;
  iE <- Cdf.Eindex Ry2eV float_of_str (cdf f) E ;;
  _ <- group_of f tree ;;
  vars <- match tree with
          | ElecStr name => of_option KeyError (kvars name)
          | ElecInt _ => Raise KeyError
          end ;;
  SE <- se_matrix (fst vars) (snd vars) (Z.of_nat (fst ik)) (fst iE) ;;
  if sort then
    pvt <- pivot f (Some elec) false false ;;
    index_square SE (map Z.of_nat (argsort pvt))
  else Ok SE.

End Methods.

(** The file of the docstring of [pivot]: device orbitals
    [3, 4, 6, 5, 2] (0-based) and an electrode on the orbitals
    [3, 2] (0-based), with its mean self-energy stored. *)
Definition doc_file : file :=
  mkFile 7 5 [4; 5; 7; 6; 3]%Z
         [("Left"%string,
           mkGroup [4; 3]%Z
                   (Some [[[[1; 0]; [0; 1]]]]%Q)
                   (Some [[[[0; 0]; [0; 0]]]]%Q))]
         (Cdf.mkFile [0; 1]%Q [(0, 0, 0)]%Q).

(** A file whose one electrode is named by the integer literal ["5"]. *)
Definition numbered_file : file :=
  mkFile 7 5 [4; 5; 7; 6; 3]%Z
         [("5"%string,
           mkGroup [4; 3]%Z
                   (Some [[[[1; 0]; [0; 1]]]]%Q)
                   (Some [[[[0; 0]; [0; 0]]]]%Q))]
         (Cdf.mkFile [0; 1]%Q [(0, 0, 0)]%Q).

(** A file whose energy grid is empty. *)
Definition no_energy_se_file : file :=
  mkFile 7 5 [4; 5; 7; 6; 3]%Z
         [("Left"%string,
           mkGroup [4; 3]%Z
                   (Some [[[[1; 0]; [0; 1]]]]%Q)
                   (Some [[[[0; 0]; [0; 0]]]]%Q))]
         (Cdf.mkFile [] [(0, 0, 0)]%Q).

End SE.

(* ===================================================================== *)
(** * sisl/io/siesta/siesta.py *)
(* ===================================================================== *)

Module Siesta.

Import F64.

(** numpy's [int32]: the value of an integer after it is stored in 32
    bits, two's complement. *)
Definition int32 (z : Z) : Z :=
  ((z + 2147483648) mod 4294967296 - 2147483648)%Z.

Definition in_int32 (z : Z) : Prop :=
  (-2147483648 <= z < 2147483648)%Z.

(** The data kind of a matrix, [H.dkind]. *)
Inductive dkind_t : Type := KindFloat | KindInt | KindComplex.

(** A Hamiltonian as the adapter sees it: the number of spin components
    [len(H.spin)], whether the basis is orthogonal, and the arrays of
    [H._csr]: the per-row counts [ncol], the row pointers [ptr], the
    column indices [col] (both [int32] arrays) and the data [_D], one
    row per non-zero element with the spin components first and, in a
    non-orthogonal basis, the overlap last (at [S_idx]).  The data of
    kind float are float64, the default [dtype] of the class. *)
Record hamiltonian : Type := mkH {
  spin : nat;
  orthogonal : bool;
  dkind : dkind_t;
  ncol : list Z;
  ptr : list Z;
  col : list Z;
  _D : list (list float)
}.

Definition nnz (H : hamiltonian) : nat := length (col H).

Definition S_idx (H : hamiltonian) : nat := spin H.

(** [D[:, i]] *)
Definition column (D : list (list float)) (i : nat) : list float :=
  map (fun row => nth i row zero) D.

(** The variables of the NetCDF file that [write_hamiltonian] sets and
    [read_hamiltonian] reads back: the dimension [spin], the variable
    [Ef] (Ry) and, in the group [SPARSE], [n_col], [list_col] (both
    [i4]), [S] and [H] (both [f8]; [H] in Ry, one row per spin
    component). *)
Record ncfile : Type := mkNC {
  dim_spin : nat;
  var_Ef : list float;
  var_n_col : list Z;
  var_list_col : list Z;
  var_S : list float;
  var_H : list (list float)
}.

(** The rows of a CSR pattern: the column indices of every row. *)
Fixpoint split_rows (counts : list Z) (cols : list Z) : list (list Z) :=
  match counts with
  | [] => []
  | n :: rest =>
      firstn (Z.to_nat n) cols :: split_rows rest (skipn (Z.to_nat n) cols)
  end.

(** Modelled from the spec: the item assignment [tmp[i, i] = 1.] of the
    sparse matrix class (sisl/sparse.py is not among the sources).  The
    specification has an insertion overwrite the entry if it exists and
    else append it to the row, which then has one more element. *)
Fixpoint setitem_row (row : list (Z * float)) (c : Z) (x : float)
  : list (Z * float) :=
  match row with
  | [] => [(c, x)]
  | (c', y) :: rest =>
      if Z.eqb c' c then (c', x) :: rest
      else (c', y) :: setitem_row rest c x
  end.

(** [tmp = H._csr.copy(dims=[0]); tmp.empty(keep_nnz=True)] followed by
    [tmp[i, i] = 1.] for every row [i]. *)
Fixpoint onsite_rows (i : Z) (rows : list (list Z)) : list (list (Z * float)) :=
  match rows with
  | [] => []
  | r :: rest =>
      setitem_row (map (fun c => (c, zero)) r) i one
      :: onsite_rows (i + 1)%Z rest
  end.

Definition orthogonal_pattern (H : hamiltonian) : list (list (Z * float)) :=
  onsite_rows 0%Z (split_rows (ncol H) (col H)).

(** [numpy.cumsum(ncol, dtype=int32)] with a leading 0. *)
Fixpoint cumsum32_from (acc : Z) (l : list Z) : list Z :=
  match l with
  | [] => []
  | x :: r => int32 (acc + x) :: cumsum32_from (int32 (acc + x)) r
  end.

(** [D[:, i] = vals]: numpy takes an array of one value per row, or of a
    single value for all rows, and raises [ValueError] on another
    length; [i] is a column of [D]. *)
Definition assign_column (D : list (list float)) (i : nat) (vals : list float)
  : result (list (list float)) :=
  if (length vals =? length D)%nat then
    Ok (map (fun rx => set_nth i (snd rx) (fst rx)) (combine D vals))
  else
    match vals with
    | [x] => Ok (map (set_nth i x) D)
    | _ => Raise ValueError
    end.

(** [h -= ef * S[:]], in place on [h]: [S] has the length of [h] or a
    single entry, else numpy raises [ValueError]. *)
Definition shift_by (h : list float) (ef : float) (S : list float)
  : result (list float) :=
  if (length S =? length h)%nat then
    Ok (map (fun xs => fsub (fst xs) (fmul ef (snd xs))) (combine h S))
  else
    match S with
    | [s] => Ok (map (fun x => fsub x (fmul ef s)) h)
    | _ => Raise ValueError
    end.

(** The loop [for i in range(len(M.spin)): M._csr._D[:, i] = conv(i, var[i, :])]
    of the readers; [var[i, :]] raises [IndexError] past the rows of the
    variable. *)
Fixpoint read_components (conv : nat -> list float -> result (list float))
         (data : list (list float)) (ixs : list nat) (D : list (list float))
  : result (list (list float)) :=
  match ixs with
  | [] => Ok D
  | i :: rest =>
      row <- of_option IndexError (nth_error data i) ;;
      vals <- conv i row ;;
      D' <- assign_column D i vals ;;
      read_components conv data rest D'
  end.

(** ** ncSileSiesta._read_class_spin

    The arguments are the dimension [spin] and the variables [n_col],
    [list_col] and [S] of the group [SPARSE].  The matrix is made
    non-orthogonal; its data array has [ptr[-1]] rows and [spin + 1]
    columns; [numpy.empty] leaves its entries unspecified (0 here), and
    the readers below assign every column. *)
Definition _read_class_spin (sp : nat) (n_col list_col : list Z)
           (S : list float) : result hamiltonian :=
  let n_col := map int32 n_col in
  let ptr := 0%Z :: cumsum32_from 0%Z n_col in
  let cols := map (fun c => int32 (int32 c - 1)) list_col in
  let n := last ptr 0%Z in
  if (n <? 0)%Z then Raise ValueError
  else
    D <- assign_column (repeat (repeat zero (Datatypes.S sp)) (Z.to_nat n)) sp S ;;
    Ok (mkH sp false KindFloat n_col ptr cols D).

(** The overlap the writers store: the on-site pattern in an orthogonal
    basis, the column [S_idx] of the data otherwise. *)
Definition written_overlap (M : hamiltonian) : result (list float) :=
  if orthogonal M then
    let tmp := orthogonal_pattern M in
    if negb (length (concat tmp) =? nnz M)%nat then Raise ValueError
    else Ok (map snd (concat tmp))
  else Ok (column (_D M) (S_idx M)).

Section Adapter.

(** [unit_convert('Ry', 'eV')] and [SparseCSR.finalize] (in place). *)
Variable Ry2eV : float.
Variable finalize : hamiltonian -> hamiltonian.

(** ** ncSileSiesta.write_hamiltonian

    [Ef] is the keyword argument, 0 when not given.  The geometry and
    settings variables, which the read does not use for the matrix, are
    left out. *)
Definition write_hamiltonian (H : hamiltonian) (Ef : float) : result ncfile :=
  if (nnz H =? 0)%nat then Raise ValueError
  else
    let H := finalize H in
    if match dkind H with KindFloat => false | _ => true end
    then Raise NotImplementedError
    else
      S <- (if orthogonal H then
              let tmp := orthogonal_pattern H in
              if negb (length (concat tmp) =? nnz H)%nat then Raise ValueError
              else Ok (map snd (concat tmp))
            else Ok (column (_D H) (S_idx H))) ;;
      Ok (mkNC (spin H)
               [fdiv Ef Ry2eV]
               (map int32 (ncol H))
               (map (fun c => int32 (c + 1)) (col H))
               S
               (map (fun i => map (fun x => fdiv x Ry2eV) (column (_D H) i))
                    (seq 0 (spin H)))).

(** ** ncSileSiesta.read_hamiltonian

    [S] is the overlap column of the matrix [_read_class_spin] made;
    [Ef] is the variable [Ef] in eV, doubled when it has one entry
    ([numpy.diff(Ef)[0]] of the other branch raises [IndexError] when
    it has none).  Spin component [i] is [H[i, :] * Ry2eV], less
    [Ef[i] * S] for the first two components. *)
Definition read_spin_component (Ef S : list float) (i : nat) (row : list float)
  : result (list float) :=
  let h := map (fun x => fmul x Ry2eV) row in
  if (i <? 2)%nat then
    ef <- of_option IndexError (nth_error Ef i) ;;
    shift_by h ef S
  else Ok h.

Definition read_hamiltonian (f : ncfile) : result hamiltonian :=
  H <- _read_class_spin (dim_spin f) (var_n_col f) (var_list_col f) (var_S f) ;;
  let S := column (_D H) (S_idx H) in
  let Ef := map (fun x => fmul x Ry2eV) (var_Ef f) in
  Ef <- (if (length Ef =? 1)%nat then Ok (Ef ++ Ef)
         else match Ef with
              | [] => Raise IndexError
              | _ => Ok Ef
              end) ;;
  D <- read_components (read_spin_component Ef S) (var_H f)
                       (seq 0 (spin H)) (_D H) ;;
  Ok (mkH (spin H) (orthogonal H) (dkind H) (ncol H) (ptr H) (col H) D).

(** ** The density matrices

    The variables of the group [SPARSE] that the writers of the density
    matrix and of the energy density matrix set and their readers use:
    the dimension [spin], [n_col], [list_col] (both [i4]), [S], and the
    matrix itself, the variable [DM] or [EDM], one row per spin
    component. *)
Record sparse_file : Type := mkSF {
  sf_spin : nat;
  sf_n_col : list Z;
  sf_list_col : list Z;
  sf_S : list float;
  sf_data : list (list float)
}.

(** ** ncSileSiesta.write_density_matrix: the matrix is stored as it is. *)
Definition write_density_matrix (DM : hamiltonian) : result sparse_file :=
  if (nnz DM =? 0)%nat then Raise ValueError
  else
    let DM := finalize DM in
    if match dkind DM with KindFloat => false | _ => true end
    then Raise NotImplementedError
    else
      S <- written_overlap DM ;;
      Ok (mkSF (spin DM)
               (map int32 (ncol DM))
               (map (fun c => int32 (c + 1)) (col DM))
               S
               (map (fun i => column (_D DM) i) (seq 0 (spin DM)))).

(** ** ncSileSiesta.write_energy_density_matrix: stored in Ry. *)
Definition write_energy_density_matrix (EDM : hamiltonian) : result sparse_file :=
  if (nnz EDM =? 0)%nat then Raise ValueError
  else
    let EDM := finalize EDM in
    if match dkind EDM with KindFloat => false | _ => true end
    then Raise NotImplementedError
    else
      S <- written_overlap EDM ;;
      Ok (mkSF (spin EDM)
               (map int32 (ncol EDM))
               (map (fun c => int32 (c + 1)) (col EDM))
               S
               (map (fun i => map (fun x => fdiv x Ry2eV) (column (_D EDM) i))
                    (seq 0 (spin EDM)))).

(** ** ncSileSiesta.read_density_matrix *)
Definition read_density_matrix (f : sparse_file) : result hamiltonian :=
  DM <- _read_class_spin (sf_spin f) (sf_n_col f) (sf_list_col f) (sf_S f) ;;
  D <- read_components (fun _ row => Ok row) (sf_data f)
                       (seq 0 (spin DM)) (_D DM) ;;
  Ok (mkH (spin DM) (orthogonal DM) (dkind DM) (ncol DM) (ptr DM) (col DM) D).

(** ** ncSileSiesta.read_energy_density_matrix *)
Definition read_energy_density_matrix (f : sparse_file) : result hamiltonian :=
  EDM <- _read_class_spin (sf_spin f) (sf_n_col f) (sf_list_col f) (sf_S f) ;;
  D <- read_components (fun _ row => Ok (map (fun x => fmul x Ry2eV) row))
                       (sf_data f) (seq 0 (spin EDM)) (_D EDM) ;;
  Ok (mkH (spin EDM) (orthogonal EDM) (dkind EDM) (ncol EDM) (ptr EDM)
          (col EDM) D).

End Adapter.

(** Two floats hold the same number: they are equal, or both are zeros
    (of any sign). *)
Definition same_number (a b : float) : Prop :=
  a = b \/ (exists s t, a = S754_zero s /\ b = S754_zero t).

(** A value stored in Ry and read in eV again, and spin component [i]
    of an element with the value [x] and the overlap [s] after it is
    written with the Fermi level [Ef] and read. *)
Definition to_Ry_and_back (c x : float) : float := fmul (fdiv x c) c.

Definition read_back (c Ef : float) (i : nat) (x s : float) : float :=
  if (i <? 2)%nat
  then fsub (to_Ry_and_back c x) (fmul (to_Ry_and_back c Ef) s)
  else to_Ry_and_back c x.

(** The doubles 0.5, -1.5, 0.75, 0.1, 1.9 and 1.9000000000000001 (the
    next double after 1.9). *)
Definition f_half : float := lit 4503599627370496 (-53).
Definition f_m1_5 : float := S754_finite true 6755399441055744 (-52).
Definition f_0_75 : float := lit 6755399441055744 (-53).
Definition f_0_1 : float := lit 7205759403792794 (-56).
Definition f_1_9 : float := lit 8556839292003942 (-52).
Definition f_1_9_next : float := lit 8556839292003943 (-52).

(** A finalized orthogonal 2-orbital Hamiltonian with both on-site terms
    and one coupling, one without the on-site term of the second
    orbital, a finalized non-orthogonal one, and the orthogonal
    1-orbital Hamiltonian with the on-site term 1.9 eV. *)
Definition H_onsite : hamiltonian :=
  mkH 1 true KindFloat [2; 1]%Z [0; 2; 3]%Z [0; 1; 1]%Z
      [[f_half]; [f_m1_5]; [f_0_75]].

Definition H_no_onsite : hamiltonian :=
  mkH 1 true KindFloat [2; 1]%Z [0; 2; 3]%Z [0; 1; 0]%Z
      [[f_half]; [f_m1_5]; [f_m1_5]].

Definition H_overlap : hamiltonian :=
  mkH 1 false KindFloat [2; 1]%Z [0; 2; 3]%Z [0; 1; 1]%Z
      [[f_half; one]; [f_m1_5; f_0_1]; [f_0_75; one]].

Definition H_single : hamiltonian :=
  mkH 1 true KindFloat [1]%Z [0; 1]%Z [0]%Z [[f_1_9]].

End Siesta.

(* ===================================================================== *)
(** * Monkhorst-Pack sampling *)
(* ===================================================================== *)

Module MP.

Local Open Scope Q_scope.

(** A k-point in reduced coordinates. *)
Definition kpoint : Type := (Q * Q * Q)%type.

Definition is_integer (q : Q) : bool := Qeq_bool q (inject_Z (Qfloor q)).

(** [k] is [-k'] modulo 1, component by component. *)
Definition is_negative_of (k k' : kpoint) : bool :=
  let '(a, b, c) := k in
  let '(x, y, z) := k' in
  is_integer (a + x) && is_integer (b + y) && is_integer (c + z).

(** A coordinate wrapped into (-1/2, 1/2]. *)
Definition wrap_half (x : Q) : Q := x + inject_Z (Qfloor ((1 # 2) - x)).

(** Modelled from the spec: the Monkhorst-Pack generation of
    sisl/physics/brillouinzone.py, which is not among the sources.  For
    an axis of [n] points the regular grid is [(i + 0.5)/n - 0.5] when
    time-reversal symmetry is asked for and [i/n] otherwise; the
    displacement is added and wrapped into (-0.5, 0.5], and the result
    is scaled by the size factor of the axis. *)
Definition axis_points (trs : bool) (n : nat) (displ size : Q) : list Q :=
  map (fun i : nat =>
         let x := if trs
                  then (inject_Z (Z.of_nat i) + (1 # 2)) / inject_Z (Z.of_nat n) - (1 # 2)
                  else inject_Z (Z.of_nat i) / inject_Z (Z.of_nat n) in
         wrap_half (x + displ) * size)
      (seq 0 n).

(** Modelled from the spec: every point of the grid has the weight
    [size_x * size_y * size_z / (nx * ny * nz)] before the collapse. *)
Definition point_weight (nx ny nz : nat) (size : Q * Q * Q) : Q :=
  let '(sx, sy, sz) := size in
  sx * sy * sz / inject_Z (Z.of_nat (nx * ny * nz)).

Definition full_grid (trs : bool) (nx ny nz : nat) (displ size : Q * Q * Q)
  : list (kpoint * Q) :=
  let '(dx, dy, dz) := displ in
  let '(sx, sy, sz) := size in
  let w := point_weight nx ny nz size in
  flat_map (fun x =>
    flat_map (fun y =>
      map (fun z => ((x, y, z), w)) (axis_points trs nz dz sz))
      (axis_points trs ny dy sy))
    (axis_points trs nx dx sx).

(** Modelled from the spec: the collapse of the pairs k, -k.  The kept
    points are gone through in order; a point that is its own negative
    modulo 1 is kept with its weight; a point whose negative is a kept
    point not yet paired is dropped and the weight of that
    representative is doubled; any other point is kept. A kept point
    carries a mark telling whether it stands for a pair (or for itself). *)
Fixpoint pair_up (kept : list (kpoint * Q * bool)) (k : kpoint)
  : option (list (kpoint * Q * bool)) :=
  match kept with
  | [] => None
  | (r, w, paired) :: rest =>
      if negb paired && is_negative_of r k then Some ((r, 2 * w, true) :: rest)
      else match pair_up rest k with
           | Some rest' => Some ((r, w, paired) :: rest')
           | None => None
           end
  end.

Definition collapse_step (kept : list (kpoint * Q * bool)) (p : kpoint * Q)
  : list (kpoint * Q * bool) :=
  let '(k, w) := p in
  if is_negative_of k k then kept ++ [(k, w, true)]
  else match pair_up kept k with
       | Some kept' => kept'
       | None => kept ++ [(k, w, false)]
       end.

Definition trs_collapse (pts : list (kpoint * Q)) : list (kpoint * Q) :=
  map (fun e => (fst (fst e), snd (fst e))) (fold_left collapse_step pts []).

(** The k-points and weights of [MonkhorstPack(parent, [nx, ny, nz],
    displacement, size, trs)]. *)
Definition MonkhorstPack (nx ny nz : nat) (displ size : Q * Q * Q) (trs : bool)
  : list (kpoint * Q) :=
  let pts := full_grid trs nx ny nz displ size in
  if trs then trs_collapse pts else pts.

(** The sum of the weights of the kept, marked points. *)
Definition kept_sum (kept : list (kpoint * Q * bool)) : Q :=
  fold_right (fun e acc => snd (fst e) + acc) 0 kept.

(** Every kept point not yet paired still has the weight [w]. *)
Definition unpaired_have (w : Q) (kept : list (kpoint * Q * bool)) : Prop :=
  Forall (fun e => snd e = false -> snd (fst e) == w) kept.

(** [bz.weight.sum()] *)
Definition weight_sum (pts : list (kpoint * Q)) : Q :=
  fold_right (fun p acc => snd p + acc) 0 pts.

End MP.

(* ===================================================================== *)
(** * Properties *)
(* ===================================================================== *)

(** ** Complex arithmetic *)

Lemma C_eq (x y : C) : re x = re y -> im x = im y -> x = y.
Proof. destruct x, y; simpl; intros; subst; reflexivity. Qed.

Lemma cadd_c0_r (x : C) : cadd x c0 = x.
Proof. apply C_eq; simpl; lia. Qed.

Lemma cadd_c0_l (x : C) : cadd c0 x = x.
Proof. apply C_eq; simpl; lia. Qed.

Lemma cadd_assoc (x y z : C) : cadd x (cadd y z) = cadd (cadd x y) z.
Proof. apply C_eq; simpl; lia. Qed.

Lemma cadd_comm (x y : C) : cadd x y = cadd y x.
Proof. apply C_eq; simpl; lia. Qed.

(** [(v_a * e) * conj v_b = e . (v_a * conj v_b)] *)
Lemma mul_real_cmul (x y : C) (r : Z) :
  cmul (mul_real x r) y = real_mul r (cmul x y).
Proof. apply C_eq; simpl; ring. Qed.


(** ** Heap lemmas *)

Import EigenSys.

Lemma nth_error_snoc_new (A : Type) (h : list A) (x : list A) (o : A) :
  nth_error (h ++ o :: x) (length h) = Some o.
Proof. rewrite nth_error_app2, Nat.sub_diag by lia. reflexivity. Qed.

Lemma nth_error_app_old (A : Type) (h x : list A) (l : nat) :
  (l < length h)%nat -> nth_error (h ++ x) l = nth_error h l.
Proof. intros Hl. apply nth_error_app1; assumption. Qed.

Lemma nth_error_is_lt (A : Type) (h : list A) (l : nat) (o : A) :
  nth_error h l = Some o -> (l < length h)%nat.
Proof. intros H. apply nth_error_Some. congruence. Qed.

Lemma length_set_nth (A : Type) (k : nat) (x : A) (a : list A) :
  length (set_nth k x a) = length a.
Proof.
  revert k. induction a as [|y t IH]; intros [|k]; simpl; auto.
Qed.

Lemma nth_error_set_nth_eq (A : Type) (k : nat) (x : A) (a : list A) :
  (k < length a)%nat -> nth_error (set_nth k x a) k = Some x.
Proof.
  revert k. induction a as [|y t IH]; intros [|k]; simpl; intros Hk;
    try lia; auto.
  apply IH. lia.
Qed.

Lemma nth_error_set_nth_ne (A : Type) (k k' : nat) (x : A) (a : list A) :
  k <> k' -> nth_error (set_nth k x a) k' = nth_error a k'.
Proof.
  revert k k'. induction a as [|y t IH]; intros [|k] [|k']; simpl; intros Hk;
    try congruence; auto.
Qed.

Lemma set_nth_last (A : Type) (h : list A) (o o' : A) :
  set_nth (length h) o' (h ++ [o]) = h ++ [o'].
Proof. induction h as [|y t IH]; simpl; congruence. Qed.

Lemma length_set_obj (l : loc) (o : obj) (h : heap) :
  length (set_obj l o h) = length h.
Proof. apply length_set_nth. Qed.

Lemma nth_error_set_obj_eq (l : loc) (o : obj) (h : heap) :
  (l < length h)%nat -> nth_error (set_obj l o h) l = Some o.
Proof. apply nth_error_set_nth_eq. Qed.

Lemma nth_error_set_obj_ne (l l' : loc) (o : obj) (h : heap) :
  l <> l' -> nth_error (set_obj l o h) l' = nth_error h l'.
Proof. apply nth_error_set_nth_ne. Qed.

(** Updating the last object of a heap. *)
Lemma set_obj_last (h : heap) (o o' : obj) :
  set_obj (length h) o' (h ++ [o]) = h ++ [o'].
Proof. apply set_nth_last. Qed.

(** ** What the constructor and the selecting methods do to the heap *)

Lemma init_inv ev vv par kw h l h' :
  __init__ ev vv par kw h = Ok (l, h') ->
  exists c, infer_cols (length ev) (length vv) = Ok c /\
            l = (length h + 3)%nat /\
            h' = h ++ init_objs h ev vv c par kw (length h + 2).
Proof.
  unfold __init__, alloc. simpl.
  destruct (infer_cols (length ev) (length vv)) as [c|x]; simpl; [|discriminate].
  intros H. inversion H; subst; clear H. exists c.
  repeat rewrite length_app. simpl.
  replace (length h + 1 + 1 + 1)%nat with (length h + 3)%nat by lia.
  replace (length h + 1 + 1)%nat with (length h + 2)%nat by lia.
  replace (length h + 1)%nat with (S (length h)) by lia.
  repeat split.
  repeat rewrite <- app_assoc. reflexivity.
Qed.

Lemma init_ok ev vv par kw h c :
  infer_cols (length ev) (length vv) = Ok c ->
  __init__ ev vv par kw h
  = Ok ((length h + 3)%nat, h ++ init_objs h ev vv c par kw (length h + 2)).
Proof.
  intros Hc. unfold __init__, alloc. simpl. rewrite Hc. simpl.
  repeat rewrite length_app. simpl.
  replace (length h + 1 + 1 + 1)%nat with (length h + 3)%nat by lia.
  replace (length h + 1 + 1)%nat with (length h + 2)%nat by lia.
  replace (length h + 1)%nat with (S (length h)) by lia.
  repeat rewrite <- app_assoc. reflexivity.
Qed.

Lemma get_es_init_new h ev vv c par kw i :
  get_es (length h + 3) (h ++ init_objs h ev vv c par kw i)
  = Ok (mkES (length h) (S (length h)) (length ev) c par i).
Proof.
  unfold get_es. rewrite nth_error_app2 by lia.
  replace (length h + 3 - length h)%nat with 3%nat by lia. reflexivity.
Qed.

Lemma set_obj_init_new h ev vv c par kw i o :
  set_obj (length h + 3) o (h ++ init_objs h ev vv c par kw i)
  = h ++ [ORealArr ev; OCplxArr vv; ODict kw; o].
Proof.
  unfold init_objs.
  change (h ++ [ORealArr ev; OCplxArr vv; ODict kw;
                OEigenSystem (mkES (length h) (S (length h)) (length ev) c par i)])
    with (h ++ [ORealArr ev; OCplxArr vv; ODict kw]
            ++ [OEigenSystem (mkES (length h) (S (length h)) (length ev) c par i)]).
  rewrite app_assoc.
  replace (length h + 3)%nat
    with (length (h ++ [ORealArr ev; OCplxArr vv; ODict kw]))
    by (rewrite length_app; reflexivity).
  rewrite set_obj_last, <- app_assoc. reflexivity.
Qed.

(** [sub], [__getitem__] and [copy] build the new system with [__init__]
    and then point its [info] at the dictionary of the original. *)
Lemma sub_inv self idx h l h' :
  sub self idx h = Ok (l, h') ->
  exists s eb vb es vs c,
    get_es self h = Ok s /\ get_real (e s) h = Ok eb /\
    get_cplx (v s) h = Ok vb /\
    take eb idx = Ok es /\
    take (rows_of (nrow s) (ncol s) vb) idx = Ok vs /\
    infer_cols (length es) (length (concat vs)) = Ok c /\
    l = (length h + 3)%nat /\
    h' = h ++ init_objs h es (concat vs) c (parent s) [] (info s).
Proof.
  unfold sub.
  destruct (get_es self h) as [s|] eqn:Hs; simpl; [|discriminate].
  destruct (get_real (e s) h) as [eb|] eqn:He; simpl; [|discriminate].
  destruct (get_cplx (v s) h) as [vb|] eqn:Hv; simpl; [|discriminate].
  destruct (take eb idx) as [es|] eqn:Hes; simpl; [|discriminate].
  destruct (take (rows_of (nrow s) (ncol s) vb) idx) as [vs|] eqn:Hvs;
    simpl; [|discriminate].
  destruct (__init__ es (concat vs) (parent s) [] h) as [[l1 h1]|] eqn:Hi;
    simpl; [|discriminate].
  apply init_inv in Hi. destruct Hi as (c & Hc & -> & ->).
  rewrite get_es_init_new. simpl. rewrite set_obj_init_new.
  intros H. inversion H; subst; clear H.
  exists s, eb, vb, es, vs, c. repeat split; auto.
Qed.

Lemma sub_ok self idx h s eb vb es vs c :
  get_es self h = Ok s -> get_real (e s) h = Ok eb ->
  get_cplx (v s) h = Ok vb ->
  take eb idx = Ok es ->
  take (rows_of (nrow s) (ncol s) vb) idx = Ok vs ->
  infer_cols (length es) (length (concat vs)) = Ok c ->
  sub self idx h
  = Ok ((length h + 3)%nat,
        h ++ init_objs h es (concat vs) c (parent s) [] (info s)).
Proof.
  intros Hs He Hv Hes Hvs Hc. unfold sub.
  rewrite Hs; simpl. rewrite He; simpl. rewrite Hv; simpl.
  rewrite Hes; simpl. rewrite Hvs; simpl.
  rewrite init_ok with (c := c) by exact Hc. simpl.
  rewrite get_es_init_new. simpl. rewrite set_obj_init_new. reflexivity.
Qed.

Lemma getitem_is_sub self key h : __getitem__ self key h = sub self key h.
Proof. reflexivity. Qed.

Lemma copy_inv self h l h' :
  copy self h = Ok (l, h') ->
  exists s eb vb c,
    get_es self h = Ok s /\ get_real (e s) h = Ok eb /\
    get_cplx (v s) h = Ok vb /\
    infer_cols (length eb) (length (concat (rows_of (nrow s) (ncol s) vb))) = Ok c /\
    l = (length h + 3)%nat /\
    h' = h ++ init_objs h eb (concat (rows_of (nrow s) (ncol s) vb)) c
                        (parent s) [] (info s).
Proof.
  unfold copy.
  destruct (get_es self h) as [s|] eqn:Hs; simpl; [|discriminate].
  destruct (get_real (e s) h) as [eb|] eqn:He; simpl; [|discriminate].
  destruct (get_cplx (v s) h) as [vb|] eqn:Hv; simpl; [|discriminate].
  destruct (__init__ eb (concat (rows_of (nrow s) (ncol s) vb)) (parent s) [] h)
    as [[l1 h1]|] eqn:Hi; simpl; [|discriminate].
  apply init_inv in Hi. destruct Hi as (c & Hc & -> & ->).
  rewrite get_es_init_new. simpl. rewrite set_obj_init_new.
  intros H. inversion H; subst; clear H.
  exists s, eb, vb, c. repeat split; auto.
Qed.

(** ** Arrays: selection and reshaping *)

Lemma take_length (A : Type) (a : list A) (idx : list Z) (r : list A) :
  take a idx = Ok r -> length r = length idx.
Proof.
  revert r. induction idx as [|i rest IH]; simpl; intros r H.
  - inversion H. reflexivity.
  - destruct (item a i); simpl in H; [|discriminate].
    destruct (take a rest); simpl in H; [|discriminate].
    inversion H. simpl. f_equal. apply IH. reflexivity.
Qed.

Lemma item_In (A : Type) (a : list A) (i : Z) (x : A) :
  item a i = Ok x -> In x a.
Proof.
  unfold item. destruct (norm_index (length a) i) as [k|]; simpl; [|discriminate].
  destruct (nth_error a k) eqn:E; simpl; [|discriminate].
  intros H; inversion H; subst. eapply nth_error_In; eassumption.
Qed.

Lemma take_Forall (A : Type) (P : A -> Prop) (a : list A) (idx : list Z) (r : list A) :
  Forall P a -> take a idx = Ok r -> Forall P r.
Proof.
  intros Ha. revert r. induction idx as [|i rest IH]; simpl; intros r H.
  - inversion H. constructor.
  - destruct (item a i) eqn:Ei; simpl in H; [|discriminate].
    destruct (take a rest); simpl in H; [|discriminate].
    inversion H. constructor.
    + rewrite Forall_forall in Ha. apply Ha. eapply item_In; eassumption.
    + apply IH. reflexivity.
Qed.

Lemma rows_of_length (A : Type) (n c : nat) (buf : list A) :
  length (rows_of n c buf) = n.
Proof. revert buf. induction n; simpl; intros; auto. Qed.

Lemma rows_of_row_length (A : Type) (n c : nat) (buf : list A) :
  length buf = (n * c)%nat ->
  Forall (fun r => length r = c) (rows_of n c buf).
Proof.
  revert buf. induction n as [|n IH]; simpl; intros buf Hb; constructor.
  - rewrite length_firstn. lia.
  - apply IH. rewrite length_skipn. lia.
Qed.

Lemma concat_rows_of (A : Type) (n c : nat) (buf : list A) :
  length buf = (n * c)%nat -> concat (rows_of n c buf) = buf.
Proof.
  revert buf. induction n as [|n IH]; simpl; intros buf Hb.
  - destruct buf; [reflexivity | discriminate].
  - rewrite IH by (rewrite length_skipn; lia). apply firstn_skipn.
Qed.

Lemma length_concat_uniform (A : Type) (c : nat) (rows : list (list A)) :
  Forall (fun r => length r = c) rows ->
  length (concat rows) = (length rows * c)%nat.
Proof.
  induction 1 as [|r rows Hr _ IH]; simpl; [reflexivity|].
  rewrite length_app, IH, Hr. reflexivity.
Qed.

Lemma rows_of_concat (A : Type) (c : nat) (rows : list (list A)) :
  Forall (fun r => length r = c) rows ->
  rows_of (length rows) c (concat rows) = rows.
Proof.
  induction 1 as [|r rows Hr _ IH]; simpl; [reflexivity|].
  rewrite firstn_app, <- Hr, Nat.sub_diag, firstn_all. simpl. rewrite app_nil_r.
  rewrite skipn_app, Nat.sub_diag, skipn_all. simpl.
  rewrite Hr, IH. reflexivity.
Qed.

Lemma infer_cols_inv (n s c : nat) :
  infer_cols n s = Ok c -> (0 < n)%nat /\ s = (n * c)%nat.
Proof.
  unfold infer_cols. destruct (Nat.eqb_spec n 0); [discriminate|].
  destruct (Nat.eqb_spec (s mod n) 0) as [Hm|]; [|discriminate].
  intros H; inversion H; subst. split; [lia|].
  pose proof (Nat.div_mod_eq s n). lia.
Qed.

Lemma infer_cols_ok (n c : nat) :
  (0 < n)%nat -> infer_cols n (n * c) = Ok c.
Proof.
  intros Hn. unfold infer_cols.
  destruct (Nat.eqb_spec n 0); [lia|].
  rewrite Nat.mul_comm, Nat.Div0.mod_mul, Nat.div_mul by lia. reflexivity.
Qed.

Lemma norm_index_of_nat (n k : nat) :
  (k < n)%nat -> norm_index n (Z.of_nat k) = Ok k.
Proof.
  intros Hk. unfold norm_index.
  destruct (Z.leb_spec 0 (Z.of_nat k)); [|lia].
  destruct (Z.ltb_spec (Z.of_nat k) (Z.of_nat n)); [|lia].
  simpl. rewrite Nat2Z.id. reflexivity.
Qed.

Lemma item_of_nat (A : Type) (a : list A) (k : nat) (d : A) :
  (k < length a)%nat -> item a (Z.of_nat k) = Ok (nth k a d).
Proof.
  intros Hk. unfold item. rewrite norm_index_of_nat by assumption. simpl.
  rewrite (nth_error_nth' a d Hk). reflexivity.
Qed.

(** Selecting with in-range natural indices never raises. *)
Lemma take_of_nat (A : Type) (a : list A) (d : A) (ks : list nat) :
  Forall (fun k => (k < length a)%nat) ks ->
  take a (map Z.of_nat ks) = Ok (map (fun k => nth k a d) ks).
Proof.
  induction 1 as [|k ks Hk _ IH]; simpl; [reflexivity|].
  rewrite (item_of_nat a d Hk). simpl. rewrite IH. reflexivity.
Qed.

Lemma map_nth_seq (A : Type) (a : list A) (d : A) :
  map (fun k => nth k a d) (seq 0 (length a)) = a.
Proof.
  induction a as [|x a IH]; simpl; [reflexivity|].
  f_equal. rewrite <- seq_shift, map_map. exact IH.
Qed.

(** [a[arange(len(a))]] is [a]. *)
Lemma take_arange (A : Type) (a : list A) :
  take a (arange (length a)) = Ok a.
Proof.
  destruct a as [|d a']; [reflexivity|].
  unfold arange. rewrite take_of_nat with (d := d).
  - rewrite map_nth_seq. reflexivity.
  - apply Forall_forall. intros k Hk. apply in_seq in Hk. lia.
Qed.

(** ** The shape invariant *)

Lemma get_es_app (h ext : heap) (l : loc) (s : attrs) :
  get_es l h = Ok s -> get_es l (h ++ ext) = Ok s.
Proof.
  unfold get_es. destruct (nth_error h l) as [o|] eqn:E; [|discriminate].
  rewrite nth_error_app_old by (eapply nth_error_is_lt; eassumption).
  rewrite E. trivial.
Qed.

Lemma get_real_app (h ext : heap) (l : loc) (a : list Z) :
  get_real l h = Ok a -> get_real l (h ++ ext) = Ok a.
Proof.
  unfold get_real. destruct (nth_error h l) as [o|] eqn:E; [|discriminate].
  rewrite nth_error_app_old by (eapply nth_error_is_lt; eassumption).
  rewrite E. trivial.
Qed.

Lemma get_cplx_app (h ext : heap) (l : loc) (a : list C) :
  get_cplx l h = Ok a -> get_cplx l (h ++ ext) = Ok a.
Proof.
  unfold get_cplx. destruct (nth_error h l) as [o|] eqn:E; [|discriminate].
  rewrite nth_error_app_old by (eapply nth_error_is_lt; eassumption).
  rewrite E. trivial.
Qed.

Lemma get_dict_app (h ext : heap) (l : loc) (d : dict) :
  get_dict l h = Ok d -> get_dict l (h ++ ext) = Ok d.
Proof.
  unfold get_dict. destruct (nth_error h l) as [o|] eqn:E; [|discriminate].
  rewrite nth_error_app_old by (eapply nth_error_is_lt; eassumption).
  rewrite E. trivial.
Qed.

(** Allocation does not disturb the systems already there. *)
Lemma shape_ok_app (h ext : heap) (l : loc) :
  shape_ok h l -> shape_ok (h ++ ext) l.
Proof.
  intros (s & eb & vb & Hs & He & Hv & Hn & Hl).
  exists s, eb, vb. repeat split; auto using get_es_app, get_real_app, get_cplx_app.
Qed.

Lemma get_real_init_new h ev vv c par kw i :
  get_real (length h) (h ++ init_objs h ev vv c par kw i) = Ok ev.
Proof.
  unfold get_real, init_objs. rewrite nth_error_snoc_new. reflexivity.
Qed.

Lemma get_cplx_init_new h ev vv c par kw i :
  get_cplx (S (length h)) (h ++ init_objs h ev vv c par kw i) = Ok vv.
Proof.
  unfold get_cplx, init_objs. rewrite nth_error_app2 by lia.
  replace (S (length h) - length h)%nat with 1%nat by lia. reflexivity.
Qed.

(** [__init__] checks the shape itself. *)
Lemma shape_ok_init_objs h ev vv c par kw i :
  infer_cols (length ev) (length vv) = Ok c ->
  shape_ok (h ++ init_objs h ev vv c par kw i) (length h + 3).
Proof.
  intros Hc. apply infer_cols_inv in Hc. destruct Hc as [_ Hc].
  exists (mkES (length h) (S (length h)) (length ev) c par i), ev, vv.
  split; [apply get_es_init_new|].
  split; [apply get_real_init_new|].
  split; [apply get_cplx_init_new|].
  split; [reflexivity | exact Hc].
Qed.

Lemma shape_ok_sub self idx h l h' :
  sub self idx h = Ok (l, h') -> shape_ok h' l /\ exists ext, h' = h ++ ext.
Proof.
  intros H. apply sub_inv in H.
  destruct H as (s & eb & vb & es & vs & c & _ & _ & _ & _ & _ & Hc & -> & ->).
  split; [apply shape_ok_init_objs; assumption | eauto].
Qed.

Lemma shape_ok_copy self h l h' :
  copy self h = Ok (l, h') -> shape_ok h' l /\ exists ext, h' = h ++ ext.
Proof.
  intros H. apply copy_inv in H.
  destruct H as (s & eb & vb & c & _ & _ & _ & Hc & -> & ->).
  split; [apply shape_ok_init_objs; assumption | eauto].
Qed.

Lemma shape_ok_sub_each self ixs h ls h' :
  sub_each self ixs h = Ok (ls, h') ->
  Forall (shape_ok h') ls /\ exists ext, h' = h ++ ext.
Proof.
  revert h ls h'. induction ixs as [|i rest IH]; simpl; intros h ls h' H.
  - inversion H; subst. split; [constructor | exists []; symmetry; apply app_nil_r].
  - destruct (sub self [i] h) as [[l h1]|] eqn:E1; simpl in H; [|discriminate].
    destruct (sub_each self rest h1) as [[ls' h2]|] eqn:E2; simpl in H; [|discriminate].
    inversion H; subst; clear H.
    apply shape_ok_sub in E1. destruct E1 as [Hl [ext1 ->]].
    apply IH in E2. destruct E2 as [Hls [ext2 ->]].
    split.
    + constructor; [apply shape_ok_app; assumption | assumption].
    + exists (ext1 ++ ext2). symmetry. apply app_assoc.
Qed.

(** What a successful [sort] does to the heap: two new arrays, and the
    attributes of [self] point at them. *)
Lemma sort_inv argsort self asc h h' :
  sort argsort self asc h = Ok (tt, h') ->
  exists s eb vb es vs,
    let idx := map Z.of_nat (if asc then argsort eb else argsort (map neg64 eb)) in
    get_es self h = Ok s /\ get_real (e s) h = Ok eb /\
    get_cplx (v s) h = Ok vb /\
    take eb idx = Ok es /\
    take (rows_of (nrow s) (ncol s) vb) idx = Ok vs /\
    h' = set_obj self
           (OEigenSystem (mkES (length h) (S (length h)) (length idx) (ncol s)
                               (parent s) (info s)))
           (h ++ [ORealArr es; OCplxArr (concat vs)]).
Proof.
  unfold sort, alloc.
  destruct (get_es self h) as [s|] eqn:Hs; simpl; [|discriminate].
  destruct (get_real (e s) h) as [eb|] eqn:He; simpl; [|discriminate].
  destruct (get_cplx (v s) h) as [vb|] eqn:Hv; simpl; [|discriminate].
  destruct (take eb _) as [es|] eqn:Hes; simpl; [|discriminate].
  destruct (take (rows_of (nrow s) (ncol s) vb) _) as [vs|] eqn:Hvs;
    simpl; [|discriminate].
  intros H. inversion H; subst; clear H.
  exists s, eb, vb, es, vs. simpl.
  repeat split; auto.
  rewrite length_app, <- app_assoc. simpl.
  replace (length h + 1)%nat with (S (length h)) by lia. reflexivity.
Qed.

Lemma get_es_is_lt l h s : get_es l h = Ok s -> (l < length h)%nat.
Proof.
  unfold get_es. destruct (nth_error h l) eqn:E; [|discriminate].
  intros _. eapply nth_error_is_lt; eassumption.
Qed.

Lemma shape_ok_sort argsort self asc h h' :
  shape_ok h self ->
  sort argsort self asc h = Ok (tt, h') -> shape_ok h' self.
Proof.
  intros (s0 & eb0 & vb0 & Hs0 & He0 & Hv0 & Hn0 & Hl0) H.
  apply sort_inv in H.
  destruct H as (s & eb & vb & es & vs & Hs & He & Hv & Hes & Hvs & ->).
  rewrite Hs in Hs0. inversion Hs0; subst s0; clear Hs0.
  rewrite He in He0. inversion He0; subst eb0; clear He0.
  rewrite Hv in Hv0. inversion Hv0; subst vb0; clear Hv0.
  pose proof (get_es_is_lt _ _ Hs) as Hlt.
  eexists _, es, (concat vs). repeat split.
  - unfold get_es. rewrite nth_error_set_obj_eq; [reflexivity|].
    rewrite length_app. lia.
  - simpl. unfold get_real. rewrite nth_error_set_obj_ne by lia.
    rewrite nth_error_snoc_new. reflexivity.
  - simpl. unfold get_cplx. rewrite nth_error_set_obj_ne by lia.
    rewrite nth_error_app2 by lia.
    replace (S (length h) - length h)%nat with 1%nat by lia. reflexivity.
  - simpl. symmetry. eapply take_length; eassumption.
  - simpl. rewrite (length_concat_uniform (c := ncol s)).
    + f_equal. eapply take_length; eassumption.
    + eapply take_Forall; [|eassumption].
      apply rows_of_row_length. assumption.
Qed.

Lemma produced_shape_ok argsort h l :
  produced argsort h l -> shape_ok h l.
Proof.
  induction 1 as [ev vv par kw h l h' H | self h l h' H | self idx h l h' H
                 | self key h l h' H | self h ls h' l H Hin
                 | self asc h h' Hp IH H].
  - apply init_inv in H. destruct H as (c & Hc & -> & ->).
    replace (length h + 2)%nat with (length h + 2)%nat by reflexivity.
    apply shape_ok_init_objs; assumption.
  - apply shape_ok_copy in H. tauto.
  - apply shape_ok_sub in H. tauto.
  - rewrite getitem_is_sub in H. apply shape_ok_sub in H. tauto.
  - unfold iter in H.
    destruct (__len__ self h) as [n|]; simpl in H; [|discriminate].
    apply shape_ok_sub_each in H. destruct H as [Hall _].
    rewrite Forall_forall in Hall. apply Hall; assumption.
  - eapply shape_ok_sort; eassumption.
Qed.

Lemma shape_ok_invariant h l : shape_ok h l -> invariant h l.
Proof.
  intros (s & eb & vb & Hs & He & Hv & Hn & Hl).
  exists eb, (rows_of (nrow s) (ncol s) vb), (ncol s).
  unfold evals, evecs, size. rewrite Hs. simpl. rewrite He, Hv. simpl.
  repeat split; auto.
  - rewrite rows_of_length. assumption.
  - apply rows_of_row_length. assumption.
Qed.

(** ** The functions that meet the argsort contract *)

Section ArgsortBy.

Variable before : Z -> Z -> bool.
Hypothesis before_le : forall x y, before x y = true -> (x <= y)%Z.
Hypothesis not_before_ge : forall x y, before x y = false -> (y <= x)%Z.

Lemma insert_index_perm (a : list Z) (i : nat) (l : list nat) :
  Permutation (insert_index before a i l) (i :: l).
Proof.
  induction l as [|j r IH]; simpl; [apply Permutation_refl|].
  destruct (before (nth i a 0%Z) (nth j a 0%Z)); [apply Permutation_refl|].
  eapply perm_trans; [apply perm_skip; exact IH | apply perm_swap].
Qed.

Lemma insert_index_sorted (a : list Z) (i : nat) (l : list nat) :
  Sorted Z.le (map (fun k => nth k a 0%Z) l) ->
  Sorted Z.le (map (fun k => nth k a 0%Z) (insert_index before a i l)).
Proof.
  induction l as [|j r IH]; simpl; intros Hs.
  - repeat constructor.
  - destruct (before (nth i a 0%Z) (nth j a 0%Z)) eqn:Eb; simpl.
    + constructor; [assumption|]. constructor. apply before_le; assumption.
    + inversion Hs as [|x xs Hs' Hhd]; subst.
      constructor; [apply IH; assumption|].
      destruct r as [|k r']; simpl.
      * constructor. apply not_before_ge; assumption.
      * destruct (before (nth i a 0%Z) (nth k a 0%Z)); simpl; constructor.
        -- apply not_before_ge; assumption.
        -- inversion Hhd; assumption.
Qed.

Lemma argsort_by_contract : argsort_contract (argsort_by before).
Proof.
  intros a. unfold argsort_by.
  generalize (seq 0 (length a)) as l.
  induction l as [|i l [IHp IHs]]; simpl.
  - split; constructor.
  - split.
    + eapply perm_trans; [apply insert_index_perm | apply perm_skip; exact IHp].
    + apply insert_index_sorted; assumption.
Qed.

End ArgsortBy.

Lemma argsort_stable_contract : argsort_contract argsort_stable.
Proof.
  apply argsort_by_contract; intros x y H.
  - apply Z.leb_le; assumption.
  - apply Z.leb_gt in H. lia.
Qed.

Lemma argsort_ties_reversed_contract : argsort_contract argsort_ties_reversed.
Proof.
  apply argsort_by_contract; intros x y H.
  - apply Z.ltb_lt in H. lia.
  - apply Z.ltb_ge in H. assumption.
Qed.

(** ** sort *)

Lemma contract_in_range argsort (a : list Z) :
  argsort_contract argsort ->
  Forall (fun k => (k < length a)%nat) (argsort a).
Proof.
  intros Hc. destruct (Hc a) as [Hp _].
  apply Forall_forall. intros k Hk.
  apply (Permutation_in _ Hp) in Hk. apply in_seq in Hk. lia.
Qed.

Lemma contract_length argsort (a : list Z) :
  argsort_contract argsort -> length (argsort a) = length a.
Proof.
  intros Hc. destruct (Hc a) as [Hp _].
  rewrite (Permutation_length Hp). apply length_seq.
Qed.

Lemma sort_index_in_range argsort asc (eb : list Z) :
  argsort_contract argsort ->
  Forall (fun k => (k < length eb)%nat) (sort_index argsort asc eb).
Proof.
  intros Hc. unfold sort_index. destruct asc.
  - apply contract_in_range; assumption.
  - pose proof (contract_in_range (map neg64 eb) Hc) as H.
    rewrite length_map in H. exact H.
Qed.

Lemma sort_index_perm argsort asc (eb : list Z) :
  argsort_contract argsort ->
  Permutation (sort_index argsort asc eb) (seq 0 (length eb)).
Proof.
  intros Hc. unfold sort_index. destruct asc.
  - apply Hc.
  - destruct (Hc (map neg64 eb)) as [Hp _]. rewrite length_map in Hp. exact Hp.
Qed.

(** With an argsort that meets the contract, [sort] never raises on a
    system of the right shape; afterwards [self.e] and [self.v] are the
    old arrays taken at one and the same index array. *)
Lemma sort_spec argsort asc h self s eb vb :
  argsort_contract argsort ->
  get_es self h = Ok s -> get_real (e s) h = Ok eb ->
  get_cplx (v s) h = Ok vb ->
  nrow s = length eb -> length vb = (nrow s * ncol s)%nat ->
  let idx := sort_index argsort asc eb in
  let rows := rows_of (nrow s) (ncol s) vb in
  exists h',
    sort argsort self asc h = Ok (tt, h') /\
    evals h' self = Ok (map (fun k => nth k eb 0%Z) idx) /\
    evecs h' self = Ok (map (fun k => nth k rows []) idx) /\
    info_of h' self = info_of h self.
Proof.
  intros Hc Hs He Hv Hn Hl idx rows.
  pose proof (sort_index_in_range asc eb Hc) as Hr. fold idx in Hr.
  assert (Hr' : Forall (fun k => (k < length rows)%nat) idx).
  { unfold rows. rewrite rows_of_length, Hn. exact Hr. }
  pose proof (get_es_is_lt _ _ Hs) as Hlt.
  eexists. split; [|split; [|split]].
  - unfold sort. rewrite Hs; simpl. rewrite He; simpl. rewrite Hv; simpl.
    fold (sort_index argsort asc eb). fold idx. fold rows.
    rewrite (take_of_nat eb 0%Z Hr). simpl.
    rewrite (take_of_nat rows [] Hr'). simpl.
    reflexivity.
  - unfold evals, get_es. rewrite nth_error_set_obj_eq
      by (repeat rewrite length_app; simpl; lia).
    simpl. unfold get_real. rewrite nth_error_set_obj_ne by lia.
    rewrite <- app_assoc. simpl. rewrite nth_error_snoc_new. reflexivity.
  - unfold evecs, get_es. rewrite nth_error_set_obj_eq
      by (repeat rewrite length_app; simpl; lia).
    simpl. unfold get_cplx. rewrite nth_error_set_obj_ne
      by (rewrite length_app; simpl; lia).
    rewrite length_app. simpl.
    rewrite <- app_assoc. simpl.
    rewrite nth_error_app2 by lia.
    replace (length h + 1 - length h)%nat with 1%nat by lia. simpl.
    f_equal. rewrite length_map.
    rewrite <- (length_map (fun k => nth k rows []) idx).
    apply rows_of_concat.
    apply Forall_forall. intros r Hin. apply in_map_iff in Hin.
    destruct Hin as (k & <- & Hk).
    rewrite Forall_forall in Hr'. specialize (Hr' k Hk).
    pose proof (rows_of_row_length (nrow s) (ncol s) vb Hl) as Hrl.
    rewrite Forall_forall in Hrl. apply Hrl. apply nth_In. exact Hr'.
  - unfold info_of, get_es. rewrite nth_error_set_obj_eq
      by (repeat rewrite length_app; simpl; lia).
    simpl. fold (get_es self h). rewrite Hs. simpl.
    unfold get_dict. 
    destruct (Nat.eq_dec self (info s)) as [E|E].
    + rewrite <- E. rewrite nth_error_set_obj_eq
        by (repeat rewrite length_app; simpl; lia).
      unfold get_es in Hs. destruct (nth_error h self) as [[]|]; try discriminate.
      reflexivity.
    + rewrite nth_error_set_obj_ne by assumption.
      destruct (nth_error h (info s)) as [o|] eqn:Ei.
      * do 2 rewrite nth_error_app_old
          by (try rewrite length_app; pose proof (nth_error_is_lt _ _ Ei); lia).
        rewrite Ei. reflexivity.
      * apply nth_error_None in Ei.
        (* a dangling [info] stays dangling unless it names a new array *)
        destruct (nth_error ((h ++ _) ++ _) (info s)) as [[]|] eqn:E2; try reflexivity.
        exfalso.
        rewrite <- app_assoc in E2. simpl in E2.
        rewrite nth_error_app2 in E2 by lia.
        destruct (info s - length h)%nat as [|[|[|n]]]; simpl in E2; discriminate.
Qed.

Lemma neg64_negates (x : Z) : has_negative x -> neg64 x = (- x)%Z.
Proof.
  unfold has_negative, neg64. intros [Hlo Hhi].
  destruct (Z.ltb_spec min_int64 x); [|lia].
  destruct (Z.ltb_spec x 9223372036854775808); [reflexivity | lia].
Qed.

(** On the entries of an [int64] array [neg64] is the negation stored
    in 64 bits. *)
Lemma neg64_wraps (x : Z) : in_int64 x -> neg64 x = wrap64 (- x).
Proof.
  unfold in_int64, neg64, wrap64, min_int64. intros [Hlo Hhi].
  destruct (Z.ltb_spec (-9223372036854775808) x) as [Hgt | Hle].
  - destruct (Z.ltb_spec x 9223372036854775808); [|lia]. cbn [andb].
    rewrite Z.mod_small by lia. lia.
  - cbn [andb]. assert (x = (-9223372036854775808)%Z) by lia. subst x.
    reflexivity.
Qed.

Lemma neg64_involutive (x : Z) : neg64 (neg64 x) = x.
Proof.
  unfold neg64, min_int64.
  destruct (Z.ltb_spec (-9223372036854775808) x) as [Hgt | Hle];
    destruct (Z.ltb_spec x 9223372036854775808) as [Hlt | Hge]; cbn [andb].
  - destruct (Z.ltb_spec (-9223372036854775808) (- x)); [|lia].
    destruct (Z.ltb_spec (- x) 9223372036854775808); [|lia]. cbn [andb]. lia.
  - destruct (Z.ltb_spec (-9223372036854775808) x); [|lia].
    destruct (Z.ltb_spec x 9223372036854775808); [lia|]. reflexivity.
  - destruct (Z.ltb_spec (-9223372036854775808) x); [lia|]. reflexivity.
  - destruct (Z.ltb_spec (-9223372036854775808) x); [lia|]. reflexivity.
Qed.

Lemma map_neg64_injective (l1 l2 : list Z) :
  map neg64 l1 = map neg64 l2 -> l1 = l2.
Proof.
  intros E.
  assert (H : forall l, map neg64 (map neg64 l) = l).
  { intros l. rewrite map_map. rewrite <- (map_id l) at 2.
    apply map_ext. apply neg64_involutive. }
  rewrite <- (H l1), <- (H l2), E. reflexivity.
Qed.

Lemma nth_map_neg64 (a : list Z) (k : nat) :
  nth k (map neg64 a) 0%Z = neg64 (nth k a 0%Z).
Proof. change 0%Z with (neg64 0) at 1. apply map_nth. Qed.

Lemma map_neg64_opp (l : list Z) :
  Forall has_negative l -> map neg64 l = map Z.opp l.
Proof.
  intros H. apply map_ext_in. intros x Hx.
  rewrite Forall_forall in H. apply neg64_negates. apply H. exact Hx.
Qed.

Lemma sorted_opp_ge (l : list Z) :
  Sorted Z.le (map Z.opp l) -> Sorted Z.ge l.
Proof.
  induction l as [|x l IH]; simpl; intros H; [constructor|].
  inversion H as [|y ys Hs Hhd]; subst. constructor; [apply IH; assumption|].
  destruct l as [|z l']; simpl in *; constructor.
  inversion Hhd; subst. lia.
Qed.

Lemma sorted_neg64_ge (l : list Z) :
  Forall has_negative l -> Sorted Z.le (map neg64 l) -> Sorted Z.ge l.
Proof.
  intros Hl Hs. apply sorted_opp_ge. rewrite <- (map_neg64_opp Hl). exact Hs.
Qed.

(** The eigenvalues [sort] leaves are in the order asked for: they are
    non-decreasing when ascending, and their negatives, as the array
    has them, are non-decreasing otherwise. *)
Lemma sort_index_sorted argsort asc (eb : list Z) :
  argsort_contract argsort ->
  let es := map (fun k => nth k eb 0%Z) (sort_index argsort asc eb) in
  if asc then Sorted Z.le es else Sorted Z.le (map neg64 es).
Proof.
  intros Hc. unfold sort_index. destruct asc; simpl.
  - apply Hc.
  - rewrite map_map.
    destruct (Hc (map neg64 eb)) as [_ Hs].
    erewrite map_ext; [exact Hs|]. intros k. symmetry. apply nth_map_neg64.
Qed.

Lemma combine_map_nth (A B : Type) (a : list A) (b : list B) (da : A) (db : B)
      (idx : list nat) :
  length a = length b ->
  combine (map (fun k => nth k a da) idx) (map (fun k => nth k b db) idx)
  = map (fun k => nth k (combine a b) (da, db)) idx.
Proof.
  intros Hl. induction idx as [|k idx IH]; simpl; [reflexivity|].
  rewrite IH. f_equal. symmetry. apply combine_nth. assumption.
Qed.

Lemma permutation_map_nth (A : Type) (ps : list A) (d : A) (idx : list nat) :
  Permutation idx (seq 0 (length ps)) ->
  Permutation ps (map (fun k => nth k ps d) idx).
Proof.
  intros Hp. rewrite <- (map_nth_seq ps d) at 1.
  apply Permutation_map. apply Permutation_sym. assumption.
Qed.

Lemma map_fst_combine_nth (a : list Z) (b : list (list C)) (idx : list nat) :
  length a = length b ->
  map fst (map (fun k => nth k (combine a b) (0%Z, [])) idx)
  = map (fun k => nth k a 0%Z) idx.
Proof.
  intros Hl. rewrite map_map. apply map_ext. intros k.
  rewrite combine_nth by assumption. reflexivity.
Qed.

Lemma pairs_of_views h self eb rows :
  evals h self = Ok eb -> evecs h self = Ok rows ->
  pairs h self = Ok (combine eb rows).
Proof. intros He Hv. unfold pairs. rewrite He, Hv. reflexivity. Qed.

Lemma views_of_shape_ok h self s eb vb :
  get_es self h = Ok s -> get_real (e s) h = Ok eb ->
  get_cplx (v s) h = Ok vb ->
  evals h self = Ok eb /\
  evecs h self = Ok (rows_of (nrow s) (ncol s) vb).
Proof.
  intros Hs He Hv. unfold evals, evecs. rewrite Hs. simpl.
  rewrite He, Hv. split; reflexivity.
Qed.


Example demo_heap_constructed :
  __init__ [3; 1; 2]%Z
           [mkC 1 0; mkC 0 0; mkC 0 1; mkC 2 0; mkC 5 0; mkC 0 0] None [] []
  = Ok (3%nat, demo_heap).
Proof. reflexivity. Qed.

Lemma demo_heap_shape_ok : shape_ok demo_heap 3.
Proof.
  exists (mkES 0 1 3 2 None 2), [3; 1; 2]%Z,
    [mkC 1 0; mkC 0 0; mkC 0 1; mkC 2 0; mkC 5 0; mkC 0 0].
  repeat split.
Defined.

Lemma ties_heap_shape_ok : shape_ok ties_heap 3.
Proof.
  exists (mkES 0 1 2 2 None 2), [1; 1]%Z,
    [mkC 1 0; mkC 0 0; mkC 0 0; mkC 1 0].
  repeat split.
Defined.

Example demo_sort_ascending :
  exists h', sort argsort_stable 3 true demo_heap = Ok (tt, h') /\
             evals h' 3 = Ok [1; 2; 3]%Z /\
             evecs h' 3 = Ok [[mkC 0 1; mkC 2 0]; [mkC 5 0; mkC 0 0]; [mkC 1 0; mkC 0 0]].
Proof. eexists. repeat split. Qed.

Example demo_sort_descending :
  exists h', sort argsort_stable 3 false demo_heap = Ok (tt, h') /\
             evals h' 3 = Ok [3; 2; 1]%Z.
Proof. eexists. repeat split. Qed.




(** ** Sorted lists with the same elements *)

Section SortedUnique.

Variable R : Z -> Z -> Prop.
Hypothesis R_trans : forall x y z, R x y -> R y z -> R x z.
Hypothesis R_antisym : forall x y, R x y -> R y x -> x = y.
Hypothesis R_refl : forall x, R x x.

Lemma sorted_head_least (x : Z) (l : list Z) :
  Sorted R (x :: l) -> forall y, In y (x :: l) -> R x y.
Proof.
  intros Hs. apply Sorted_StronglySorted in Hs; [|exact R_trans].
  inversion Hs as [|a l' _ Hall]; subst.
  intros y [<- | Hin]; [apply R_refl|].
  rewrite Forall_forall in Hall. apply Hall; assumption.
Qed.

Lemma sorted_permutation_eq (l1 l2 : list Z) :
  Sorted R l1 -> Sorted R l2 -> Permutation l1 l2 -> l1 = l2.
Proof.
  revert l2. induction l1 as [|x l1 IH]; intros l2 H1 H2 Hp.
  - apply Permutation_nil in Hp. subst. reflexivity.
  - destruct l2 as [|y l2].
    + apply Permutation_sym, Permutation_nil in Hp. discriminate.
    + assert (x = y).
      { apply R_antisym.
        - apply (sorted_head_least H1). eapply Permutation_in.
          + apply Permutation_sym; exact Hp.
          + left; reflexivity.
        - apply (sorted_head_least H2). eapply Permutation_in.
          + exact Hp.
          + left; reflexivity. }
      subst y. f_equal. apply IH.
      * inversion H1; assumption.
      * inversion H2; assumption.
      * eapply Permutation_cons_inv; exact Hp.
Qed.

End SortedUnique.

Lemma sorted_ge_permutation_eq (l1 l2 : list Z) :
  Sorted Z.ge l1 -> Sorted Z.ge l2 -> Permutation l1 l2 -> l1 = l2.
Proof.
  apply sorted_permutation_eq; intros; lia.
Qed.

Lemma strongly_sorted_ge_snoc (r : list Z) (x : Z) :
  StronglySorted Z.ge r -> Forall (fun y => (y >= x)%Z) r ->
  StronglySorted Z.ge (r ++ [x]).
Proof.
  induction 1 as [|z r Hs IH Hall]; simpl; intros Hx.
  - repeat constructor.
  - inversion Hx; subst. constructor; [apply IH; assumption|].
    apply Forall_app. split; [assumption|]. repeat constructor. assumption.
Qed.

Lemma sorted_le_rev_ge (l : list Z) : Sorted Z.le l -> Sorted Z.ge (rev l).
Proof.
  intros Hs. apply Sorted_StronglySorted in Hs; [|intros x y z; lia].
  apply StronglySorted_Sorted.
  induction Hs as [|x l Hs IH Hall]; simpl; [constructor|].
  apply strongly_sorted_ge_snoc; [exact IH|].
  apply Forall_forall. intros y Hy. apply in_rev in Hy.
  rewrite Forall_forall in Hall. specialize (Hall y Hy). lia.
Qed.

(** Where the values of an array are all different, numpy's argsort
    has one possible result: the index array that sorts them. *)
Lemma map_nth_injective (a : list Z) (l1 l2 : list nat) :
  NoDup a ->
  Forall (fun k => (k < length a)%nat) l1 ->
  Forall (fun k => (k < length a)%nat) l2 ->
  map (fun i => nth i a 0%Z) l1 = map (fun i => nth i a 0%Z) l2 -> l1 = l2.
Proof.
  intros Hnd H1. revert l2.
  induction H1 as [|x l1 Hx _ IH]; intros l2 H2 E.
  - destruct l2; [reflexivity | discriminate].
  - destruct l2 as [|y l2]; [discriminate|].
    inversion H2; subst. simpl in E. inversion E as [[E1 E2]].
    f_equal; [|apply IH; assumption].
    apply (proj1 (NoDup_nth a 0%Z) Hnd); assumption.
Qed.

Lemma argsort_unique argsort (a : list Z) (idx : list nat) :
  argsort_contract argsort -> NoDup a ->
  Permutation idx (seq 0 (length a)) ->
  Sorted Z.le (map (fun i => nth i a 0%Z) idx) ->
  argsort a = idx.
Proof.
  intros Hc Hnd Hp Hs. destruct (Hc a) as [Hpa Hsa].
  assert (Hr : forall l, Permutation l (seq 0 (length a)) ->
                         Forall (fun k => (k < length a)%nat) l).
  { intros l Hl. apply Forall_forall. intros k Hk.
    apply (Permutation_in _ Hl) in Hk. apply in_seq in Hk. lia. }
  apply (map_nth_injective Hnd); [apply Hr; exact Hpa | apply Hr; exact Hp |].
  apply (@sorted_permutation_eq Z.le); try (intros; lia); try assumption.
  eapply Permutation_trans.
  - apply Permutation_sym. apply (permutation_map_nth a 0%Z Hpa).
  - apply (permutation_map_nth a 0%Z Hp).
Qed.

Lemma least_heap_shape_ok : shape_ok least_heap 3.
Proof.
  exists (mkES 0 1 3 1 None 2), [min_int64; 0; 5]%Z,
    [mkC 1 0; mkC 2 0; mkC 3 0].
  repeat split.
Defined.

(** On the eigenvalues [-2**63, 0, 5] the descending sort has the keys
    [-2**63, 0, -5], all different: whatever argsort numpy runs, the
    index array is [0, 2, 1]. *)
Lemma descending_index_of_least argsort :
  argsort_contract argsort ->
  sort_index argsort false [min_int64; 0; 5]%Z = [0; 2; 1]%nat.
Proof.
  intros Hc. unfold sort_index. apply (argsort_unique Hc).
  - vm_compute. repeat (constructor; [simpl; intuition discriminate|]).
    constructor.
  - simpl. apply perm_skip. apply perm_swap.
  - vm_compute. repeat constructor; discriminate.
Qed.

Lemma ascending_index_of_least argsort :
  argsort_contract argsort ->
  sort_index argsort true [min_int64; 0; 5]%Z = [0; 1; 2]%nat.
Proof.
  intros Hc. unfold sort_index. apply (argsort_unique Hc).
  - vm_compute. repeat (constructor; [simpl; intuition discriminate|]).
    constructor.
  - apply Permutation_refl.
  - vm_compute. repeat constructor; discriminate.
Qed.


(** ** sub and __getitem__ *)

Lemma norm_index_valid (n : nat) (i : Z) :
  valid_index n i -> norm_index n i = Ok (wrap n i) /\ (wrap n i < n)%nat.
Proof.
  unfold valid_index, norm_index, wrap. intros [Hlo Hhi].
  destruct (Z.ltb_spec i 0) as [Hneg | Hpos].
  - destruct (Z.leb_spec 0 i); [lia|]. simpl.
    destruct (Z.leb_spec (- Z.of_nat n) i); [|lia]. simpl.
    split; [reflexivity | lia].
  - destruct (Z.leb_spec 0 i); [|lia].
    destruct (Z.ltb_spec i (Z.of_nat n)); [|lia]. simpl.
    split; [reflexivity | lia].
Qed.

Lemma norm_index_ok_valid (n : nat) (i : Z) (k : nat) :
  norm_index n i = Ok k -> valid_index n i.
Proof.
  unfold valid_index, norm_index.
  destruct (Z.leb_spec 0 i); destruct (Z.ltb_spec i (Z.of_nat n)); simpl;
    try (intros _; lia);
    destruct (Z.leb_spec (- Z.of_nat n) i); destruct (Z.ltb_spec i 0); simpl;
    try discriminate; intros _; lia.
Qed.

Lemma item_valid (A : Type) (a : list A) (d : A) (i : Z) :
  valid_index (length a) i -> item a i = Ok (nth (wrap (length a) i) a d).
Proof.
  intros Hv. destruct (norm_index_valid Hv) as [Hn Hlt].
  unfold item. rewrite Hn. simpl.
  rewrite (nth_error_nth' a d Hlt). reflexivity.
Qed.

(** Selecting at valid indices never raises, and gives the elements at
    the named positions in the order of the index array. *)
Lemma take_valid (A : Type) (a : list A) (d : A) (idx : list Z) :
  Forall (valid_index (length a)) idx ->
  take a idx = Ok (map (fun i => nth (wrap (length a) i) a d) idx).
Proof.
  induction 1 as [|i idx Hi _ IH]; simpl; [reflexivity|].
  rewrite (item_valid a d Hi). simpl. rewrite IH. reflexivity.
Qed.

Lemma take_nonempty (A : Type) (a : list A) (idx : list Z) (r : list A) :
  take a idx = Ok r -> idx <> [] -> (0 < length r)%nat.
Proof.
  intros Ht Hne. rewrite (take_length _ _ Ht).
  destruct idx; [congruence | simpl; lia].
Qed.

(** What [sub] returns on a well-shaped system, for an index array at
    which both selections succeed and which is not empty. *)
Lemma sub_spec h self idx s eb vb es vs :
  get_es self h = Ok s -> get_real (e s) h = Ok eb ->
  get_cplx (v s) h = Ok vb ->
  length vb = (nrow s * ncol s)%nat ->
  take eb idx = Ok es ->
  take (rows_of (nrow s) (ncol s) vb) idx = Ok vs ->
  idx <> [] ->
  let l := (length h + 3)%nat in
  let h' := h ++ init_objs h es (concat vs) (ncol s) (parent s) [] (info s) in
  sub self idx h = Ok (l, h') /\
  evals h' l = Ok es /\
  evecs h' l = Ok vs.
Proof.
  intros Hs He Hv Hl Hes Hvs Hne l h'.
  assert (Hrows : Forall (fun r => length r = ncol s) vs).
  { eapply take_Forall; [|exact Hvs]. apply rows_of_row_length. exact Hl. }
  assert (Hlen : length vs = length es).
  { rewrite (take_length _ _ Hvs), (take_length _ _ Hes). reflexivity. }
  assert (Hc : infer_cols (length es) (length (concat vs)) = Ok (ncol s)).
  { rewrite (length_concat_uniform Hrows), Hlen.
    apply infer_cols_ok. eapply take_nonempty; eassumption. }
  split; [|split].
  - apply (sub_ok self idx h Hs He Hv Hes Hvs Hc).
  - unfold evals, l, h'. rewrite get_es_init_new. simpl.
    apply get_real_init_new.
  - unfold evecs, l, h'. rewrite get_es_init_new. simpl.
    rewrite get_cplx_init_new. simpl. f_equal.
    rewrite <- Hlen. apply rows_of_concat. exact Hrows.
Qed.


Lemma demo_heap_well_formed : well_formed demo_heap 3.
Proof.
  split; [exact demo_heap_shape_ok|].
  exists (mkES 0 1 3 2 None 2). split; [reflexivity | simpl; lia].
Defined.




(** Every produced system is well formed: the constructor refuses an
    empty eigenvalue array, and a sort keeps the length. *)
Lemma produced_well_formed argsort h l :
  argsort_contract argsort -> produced argsort h l -> well_formed h l.
Proof.
  intros Hc Hp. split; [eapply produced_shape_ok; exact Hp|].
  induction Hp as [ev vv par kw h l h' H | self h l h' H | self idx h l h' H
                  | self key h l h' H | self h ls h' l H Hin
                  | self asc h h' Hp IH H].
  - apply init_inv in H. destruct H as (c & Hcc & -> & ->).
    eexists. split; [apply get_es_init_new|]. simpl.
    apply infer_cols_inv in Hcc. tauto.
  - apply copy_inv in H. destruct H as (s & eb & vb & c & _ & _ & _ & Hcc & -> & ->).
    eexists. split; [apply get_es_init_new|]. simpl.
    apply infer_cols_inv in Hcc. tauto.
  - apply sub_inv in H.
    destruct H as (s & eb & vb & es & vs & c & _ & _ & _ & _ & _ & Hcc & -> & ->).
    eexists. split; [apply get_es_init_new|]. simpl.
    apply infer_cols_inv in Hcc. tauto.
  - rewrite getitem_is_sub in H. apply sub_inv in H.
    destruct H as (s & eb & vb & es & vs & c & _ & _ & _ & _ & _ & Hcc & -> & ->).
    eexists. split; [apply get_es_init_new|]. simpl.
    apply infer_cols_inv in Hcc. tauto.
  - unfold iter in H.
    destruct (__len__ self h) as [n|]; simpl in H; [|discriminate].
    clear Hc. revert h ls h' H l Hin. generalize (arange n) as ixs.
    induction ixs as [|i rest IHr]; simpl; intros h ls h' H l Hin.
    + inversion H; subst. destruct Hin.
    + destruct (sub self [i] h) as [[l1 h1]|] eqn:E1; simpl in H; [|discriminate].
      destruct (sub_each self rest h1) as [[ls' h2]|] eqn:E2; simpl in H;
        [|discriminate].
      inversion H; subst; clear H. destruct Hin as [<- | Hin].
      * apply sub_inv in E1.
        destruct E1 as (s & eb & vb & es & vs & c & _ & _ & _ & _ & _ & Hcc & -> & ->).
        apply shape_ok_sub_each in E2. destruct E2 as [_ [ext ->]].
        eexists. split; [apply get_es_app; apply get_es_init_new|]. simpl.
        apply infer_cols_inv in Hcc. tauto.
      * eapply IHr; eassumption.
  - destruct IH as (s0 & Hs0 & Hpos).
    pose proof (produced_shape_ok Hp) as (s & eb & vb & Hs & He & Hv & Hn & Hl).
    apply sort_inv in H.
    destruct H as (s' & eb' & vb' & es & vs & Hs' & He' & Hv' & Hes & Hvs & ->).
    rewrite Hs in Hs'. inversion Hs'; subst s'; clear Hs'.
    rewrite He in He'. inversion He'; subst eb'; clear He'.
    rewrite Hs in Hs0. inversion Hs0; subst s0; clear Hs0.
    eexists. split.
    + unfold get_es. rewrite nth_error_set_obj_eq; [reflexivity|].
      rewrite length_app. pose proof (get_es_is_lt _ _ Hs). lia.
    + simpl. rewrite length_map.
      fold (sort_index argsort asc eb).
      rewrite (Permutation_length (sort_index_perm asc eb Hc)), length_seq. lia.
Qed.

(** Writing to a location allocated after the system [self] was read
    leaves the arrays of [self] as they were. *)
Lemma views_frame h ext p o self s eb vb :
  get_es self h = Ok s -> get_real (e s) h = Ok eb ->
  get_cplx (v s) h = Ok vb ->
  (length h <= p)%nat ->
  evals (set_obj p o (h ++ ext)) self = Ok eb /\
  evecs (set_obj p o (h ++ ext)) self = Ok (rows_of (nrow s) (ncol s) vb).
Proof.
  intros Hs He Hv Hp.
  assert (Hs' : get_es self (set_obj p o (h ++ ext)) = Ok s).
  { pose proof (get_es_is_lt _ _ Hs).
    unfold get_es. rewrite nth_error_set_obj_ne by lia.
    fold (get_es self (h ++ ext)). apply get_es_app; assumption. }
  assert (He' : get_real (e s) (set_obj p o (h ++ ext)) = Ok eb).
  { unfold get_real in *.
    destruct (nth_error h (e s)) as [x|] eqn:E; [|discriminate].
    pose proof (nth_error_is_lt _ _ E).
    rewrite nth_error_set_obj_ne by lia.
    rewrite nth_error_app_old by assumption. rewrite E. exact He. }
  assert (Hv' : get_cplx (v s) (set_obj p o (h ++ ext)) = Ok vb).
  { unfold get_cplx in *.
    destruct (nth_error h (v s)) as [x|] eqn:E; [|discriminate].
    pose proof (nth_error_is_lt _ _ E).
    rewrite nth_error_set_obj_ne by lia.
    rewrite nth_error_app_old by assumption. rewrite E. exact Hv. }
  unfold evals, evecs. rewrite Hs'. simpl. rewrite He', Hv'. split; reflexivity.
Qed.

(** C2, as the code has it: for an EigenSystem [S] and a non-empty
    sequence [I] of valid indices, [sub(I)] and [__getitem__(I)] return
    a new EigenSystem whose eigenvalues and eigenvectors are those of
    [S] at the indices of [I], in the order of [I], held in newly
    allocated arrays; the call leaves [S] and every other object as
    they were, and later writes into the arrays of the new system do
    not show in [S].  The new system keeps a reference to the same
    [parent] and to the same [info] dictionary as [S]. *)
Theorem sub_selects_into_new_arrays h self idx eb rows :
  well_formed h self ->
  evals h self = Ok eb ->
  evecs h self = Ok rows ->
  idx <> [] ->
  Forall (valid_index (length eb)) idx ->
  exists l h' s s',
    sub self idx h = Ok (l, h') /\
    __getitem__ self idx h = Ok (l, h') /\
    evals h' l = Ok (map (fun i => nth (wrap (length eb) i) eb 0%Z) idx) /\
    evecs h' l = Ok (map (fun i => nth (wrap (length eb) i) rows []) idx) /\
    (exists ext, h' = h ++ ext) /\
    evals h' self = Ok eb /\ evecs h' self = Ok rows /\
    get_es self h = Ok s /\ get_es l h' = Ok s' /\
    (length h <= e s')%nat /\ (length h <= v s')%nat /\
    info s' = info s /\ parent s' = parent s /\
    (forall i x h'', e_setitem l i x h' = Ok (tt, h'') ->
                     evals h'' self = Ok eb /\ evecs h'' self = Ok rows) /\
    (forall i j x h'', v_setitem l i j x h' = Ok (tt, h'') ->
                       evals h'' self = Ok eb /\ evecs h'' self = Ok rows).
Proof.
  intros [(s & eb0 & vb & Hs & He & Hv & Hn & Hl) _] Hev Hvv Hne Hidx.
  destruct (views_of_shape_ok h self Hs He Hv) as [Hev0 Hvv0].
  rewrite Hev in Hev0. inversion Hev0; subst eb0; clear Hev0.
  rewrite Hvv in Hvv0. inversion Hvv0; subst rows; clear Hvv0.
  set (rows := rows_of (nrow s) (ncol s) vb) in *.
  assert (Hrl : length rows = length eb)
    by (unfold rows; rewrite rows_of_length; exact Hn).
  pose proof (take_valid eb 0%Z Hidx) as Hte.
  assert (Htv : take rows idx
                = Ok (map (fun i => nth (wrap (length eb) i) rows []) idx)).
  { rewrite <- Hrl. apply take_valid. rewrite Hrl. exact Hidx. }
  destruct (@sub_spec h self idx s eb vb _ _ Hs He Hv Hl Hte Htv Hne)
    as (Hsub & He' & Hv').
  set (es := map (fun i => nth (wrap (length eb) i) eb 0%Z) idx) in *.
  set (vs := map (fun i => nth (wrap (length eb) i) rows []) idx) in *.
  set (objs := init_objs h es (concat vs) (ncol s) (parent s) [] (info s)) in *.
  exists (length h + 3)%nat, (h ++ objs), s,
    (mkES (length h) (S (length h)) (length es) (ncol s) (parent s) (info s)).
  split; [exact Hsub|]. split; [exact Hsub|].
  split; [exact He'|]. split; [exact Hv'|].
  split; [exists objs; reflexivity|].
  split.
  { unfold evals. rewrite (@get_es_app h objs self s Hs). simpl.
    apply get_real_app; assumption. }
  split.
  { unfold evecs. rewrite (@get_es_app h objs self s Hs). simpl.
    rewrite (@get_cplx_app h objs (v s) vb Hv). reflexivity. }
  split; [exact Hs|]. split; [apply get_es_init_new|].
  simpl. split; [lia|]. split; [lia|]. split; [reflexivity|]. split; [reflexivity|].
  subst objs.
  split.
  - intros i x h'' Hw. unfold e_setitem in Hw.
    rewrite get_es_init_new in Hw. simpl in Hw.
    destruct (get_real (length h) _); simpl in Hw; [|discriminate].
    destruct (norm_index _ i); simpl in Hw; [|discriminate].
    inversion Hw; subst h''.
    eapply views_frame; eauto; lia.
  - intros i j x h'' Hw. unfold v_setitem in Hw.
    rewrite get_es_init_new in Hw. simpl in Hw.
    destruct (get_cplx (S (length h)) _); simpl in Hw; [|discriminate].
    destruct (norm_index _ i); simpl in Hw; [|discriminate].
    destruct (norm_index _ j); simpl in Hw; [|discriminate].
    inversion Hw; subst h''.
    eapply views_frame; eauto; lia.
Qed.

Lemma sub_selects_into_new_arrays_witness :
  well_formed demo_heap 3 /\
  exists l h' s s',
    sub 3 [2; -3]%Z demo_heap = Ok (l, h') /\
    __getitem__ 3 [2; -3]%Z demo_heap = Ok (l, h') /\
    evals h' l = Ok [2; 3]%Z /\
    evecs h' l = Ok [[mkC 5 0; mkC 0 0]; [mkC 1 0; mkC 0 0]] /\
    (exists ext, h' = demo_heap ++ ext) /\
    evals h' 3 = Ok [3; 1; 2]%Z /\
    evecs h' 3 = Ok [[mkC 1 0; mkC 0 0]; [mkC 0 1; mkC 2 0]; [mkC 5 0; mkC 0 0]] /\
    get_es 3 demo_heap = Ok s /\ get_es l h' = Ok s' /\
    (length demo_heap <= e s')%nat /\ (length demo_heap <= v s')%nat /\
    info s' = info s /\ parent s' = parent s /\
    (forall i x h'', e_setitem l i x h' = Ok (tt, h'') ->
                     evals h'' 3 = Ok [3; 1; 2]%Z /\
                     evecs h'' 3 = Ok [[mkC 1 0; mkC 0 0]; [mkC 0 1; mkC 2 0]; [mkC 5 0; mkC 0 0]]) /\
    (forall i j x h'', v_setitem l i j x h' = Ok (tt, h'') ->
                       evals h'' 3 = Ok [3; 1; 2]%Z /\
                       evecs h'' 3 = Ok [[mkC 1 0; mkC 0 0]; [mkC 0 1; mkC 2 0]; [mkC 5 0; mkC 0 0]]).
Proof.
  split; [exact demo_heap_well_formed|].
  refine (@sub_selects_into_new_arrays demo_heap 3%nat [2; -3]%Z
            [3; 1; 2]%Z
            [[mkC 1 0; mkC 0 0]; [mkC 0 1; mkC 2 0]; [mkC 5 0; mkC 0 0]]
            demo_heap_well_formed eq_refl eq_refl _ _).
  - discriminate.
  - repeat constructor; unfold valid_index; simpl; lia.
Defined.

(** C2 as stated fails: the new system and the original share the
    [info] dictionary ([sub.info = self.info]).  After
    [t = S.sub([0]); t.info['a'] = 1] the entry is in [S.info] too. *)
Lemma sub_shares_the_info_dict :
  ~ (forall h self idx l h' k x h'',
        well_formed h self ->
        sub self idx h = Ok (l, h') ->
        info_setitem l k x h' = Ok (tt, h'') ->
        info_of h'' self = info_of h self).
Proof.
  intros H.
  pose proof (H demo_heap 3%nat [0%Z] _ _ "a"%string 1%Z _
                demo_heap_well_formed eq_refl eq_refl) as Hk.
  vm_compute in Hk. discriminate Hk.
Qed.

(** ** outer *)

Lemma map_as_tabulate (A B : Type) (f : A -> B) (l : list A) (d : A) :
  map f l = map (fun k => f (nth k l d)) (seq 0 (length l)).
Proof.
  rewrite <- (map_nth_seq l d) at 1. rewrite map_map. reflexivity.
Qed.

Lemma combine_map_same (A B D : Type) (f : A -> B) (g : A -> D) (l : list A) :
  combine (map f l) (map g l) = map (fun x => (f x, g x)) l.
Proof. induction l; simpl; congruence. Qed.

Lemma wrap_of_nat (n k : nat) : wrap n (Z.of_nat k) = k.
Proof.
  unfold wrap. destruct (Z.ltb_spec (Z.of_nat k) 0); [lia|]. apply Nat2Z.id.
Qed.

Lemma map_wrap_arange (n : nat) : map (wrap n) (arange n) = seq 0 n.
Proof.
  unfold arange. rewrite map_map.
  erewrite map_ext; [apply map_id|]. intros k. apply wrap_of_nat.
Qed.

Lemma arange_valid (n : nat) : Forall (valid_index n) (arange n).
Proof.
  unfold arange. apply Forall_forall. intros i Hi.
  apply in_map_iff in Hi. destruct Hi as (k & <- & Hk).
  apply in_seq in Hk. unfold valid_index. lia.
Qed.

Lemma tabulate2_ext (n : nat) (f g : nat -> nat -> C) :
  (forall a b, f a b = g a b) -> tabulate2 n f = tabulate2 n g.
Proof.
  intros H. unfold tabulate2. apply map_ext. intros a.
  apply map_ext. intros b. apply H.
Qed.

(** The accumulation of [outer], whatever the arithmetic of the
    arrays is. *)
Section OuterInAnyArithmetic.

Variable times_e : C -> Z -> C.
Variable times : C -> C -> C.
Variable plus : C -> C -> C.
Variable conjugate : C -> C.

Lemma madd_tabulate2 (n : nat) (f g : nat -> nat -> C) :
  madd plus (tabulate2 n f) (tabulate2 n g)
  = tabulate2 n (fun a b => plus (f a b) (g a b)).
Proof.
  unfold madd, tabulate2. rewrite combine_map_same, map_map.
  apply map_ext. intros a. simpl.
  rewrite combine_map_same, map_map. reflexivity.
Qed.

(** [_outer(e[i], v[i, :])] entry by entry. *)
Lemma _outer_tabulate2 (eb : list Z) (rows : list (list C)) (n i : nat) :
  length (nth i rows []) = n ->
  _outer times_e times conjugate (nth i eb 0%Z) (nth i rows [])
  = tabulate2 n (fun a b => outer_term times_e times conjugate eb rows a b i).
Proof.
  intros Hl. unfold _outer, np_outer, tabulate2, outer_term.
  rewrite map_map.
  rewrite (map_as_tabulate _ (nth i rows []) c0), Hl.
  apply map_ext. intros a.
  rewrite map_map.
  rewrite (map_as_tabulate _ (nth i rows []) c0), Hl.
  reflexivity.
Qed.

(** The loop of [outer] over valid indices never raises. *)
Lemma outer_loop_valid (eb : list Z) (rows : list (list C)) (ixs : list Z)
      (m : list (list C)) :
  length rows = length eb ->
  Forall (valid_index (length eb)) ixs ->
  fold_left (outer_step times_e times plus conjugate eb rows) ixs (Ok m)
  = Ok (fold_left
          (fun acc i =>
             madd plus acc
                  (_outer times_e times conjugate
                          (nth (wrap (length eb) i) eb 0%Z)
                          (nth (wrap (length eb) i) rows [])))
          ixs m).
Proof.
  intros Hrl Hall. revert m.
  induction Hall as [|i ixs Hi _ IH]; intros m; [reflexivity|].
  cbn [fold_left].
  assert (Hstep : outer_step times_e times plus conjugate eb rows (Ok m) i
                  = Ok (madd plus m
                          (_outer times_e times conjugate
                                  (nth (wrap (length eb) i) eb 0%Z)
                                  (nth (wrap (length eb) i) rows [])))).
  { unfold outer_step. simpl.
    rewrite (item_valid eb 0%Z Hi). simpl.
    assert (Hi' : valid_index (length rows) i) by (rewrite Hrl; exact Hi).
    rewrite (item_valid rows [] Hi'). simpl. rewrite Hrl. reflexivity. }
  rewrite Hstep. apply IH.
Qed.

(** Adding the terms to the matrix adds them to every entry, in the
    same order. *)
Lemma outer_accumulate (eb : list Z) (rows : list (list C)) (n : nat)
      (ixs : list Z) (f : nat -> nat -> C) :
  Forall (fun r => length r = n) rows ->
  length rows = length eb ->
  Forall (valid_index (length eb)) ixs ->
  fold_left
    (fun acc i =>
       madd plus acc
            (_outer times_e times conjugate
                    (nth (wrap (length eb) i) eb 0%Z)
                    (nth (wrap (length eb) i) rows [])))
    ixs (tabulate2 n f)
  = tabulate2 n (fun a b =>
       fold_left
         (fun acc i => plus acc (outer_term times_e times conjugate eb rows a b i))
         (map (wrap (length eb)) ixs) (f a b)).
Proof.
  intros Hrows Hrl Hall. revert f.
  induction Hall as [|i ixs Hi _ IH]; intros f; [reflexivity|].
  cbn [fold_left map].
  rewrite (@_outer_tabulate2 eb rows n).
  - rewrite madd_tabulate2, IH. reflexivity.
  - rewrite Forall_forall in Hrows. apply Hrows. apply nth_In.
    rewrite Hrl. apply (norm_index_valid Hi).
Qed.

(** [outer] on a non-empty selection of valid indices. *)
Lemma outer_some_spec h self s eb vb (idx : list Z) :
  get_es self h = Ok s -> get_real (e s) h = Ok eb ->
  get_cplx (v s) h = Ok vb ->
  nrow s = length eb -> length vb = (nrow s * ncol s)%nat ->
  idx <> [] -> Forall (valid_index (length eb)) idx ->
  outer times_e times plus conjugate self (Some idx) h
  = Ok (outer_sum times_e times plus conjugate eb
                  (rows_of (nrow s) (ncol s) vb) (ncol s)
                  (map (wrap (length eb)) idx)).
Proof.
  intros Hs He Hv Hn Hl Hne Hall.
  set (rows := rows_of (nrow s) (ncol s) vb).
  assert (Hrl : length rows = length eb)
    by (unfold rows; rewrite rows_of_length; exact Hn).
  assert (Hrows : Forall (fun r => length r = ncol s) rows)
    by (apply rows_of_row_length; exact Hl).
  destruct idx as [|i0 rest]; [congruence|].
  inversion Hall as [|x xs Hi0 Hrest]; subst.
  assert (H0 : item (i0 :: rest) 0%Z = Ok i0) by reflexivity.
  assert (Hi0' : valid_index (length rows) i0) by (rewrite Hrl; exact Hi0).
  unfold outer. rewrite Hs; cbn [bind]. rewrite He; cbn [bind].
  rewrite Hv; cbn [bind]. fold rows. rewrite H0; cbn [bind].
  rewrite (item_valid eb 0%Z Hi0); cbn [bind].
  rewrite (item_valid rows [] Hi0'); cbn [bind]. rewrite Hrl.
  cbn [skipn].
  rewrite outer_loop_valid by assumption.
  rewrite (@_outer_tabulate2 eb rows (ncol s)).
  - rewrite outer_accumulate with (n := ncol s) by assumption. reflexivity.
  - rewrite Forall_forall in Hrows. apply Hrows. apply nth_In.
    rewrite Hrl. apply (norm_index_valid Hi0).
Qed.

(** Without [idx] the loop runs over all the positions. *)
Lemma outer_none_is_all h self s eb :
  get_es self h = Ok s -> get_real (e s) h = Ok eb -> eb <> [] ->
  outer times_e times plus conjugate self None h
  = outer times_e times plus conjugate self (Some (arange (length eb))) h.
Proof.
  intros Hs He Hne. unfold outer. rewrite Hs; simpl. rewrite He; simpl.
  destruct (get_cplx (v s) h) as [vb|]; simpl; [|reflexivity].
  destruct eb as [|x eb']; [congruence|].
  unfold arange. simpl length. simpl seq. simpl map.
  unfold item at 3. simpl. rewrite Nat.sub_0_r.
  rewrite <- seq_shift, map_map. reflexivity.
Qed.

Lemma outer_all_spec h self s eb vb :
  get_es self h = Ok s -> get_real (e s) h = Ok eb ->
  get_cplx (v s) h = Ok vb ->
  nrow s = length eb -> length vb = (nrow s * ncol s)%nat ->
  eb <> [] ->
  outer times_e times plus conjugate self None h
  = Ok (outer_sum times_e times plus conjugate eb
                  (rows_of (nrow s) (ncol s) vb) (ncol s)
                  (seq 0 (length eb))).
Proof.
  intros Hs He Hv Hn Hl Hne.
  rewrite (@outer_none_is_all h self s eb Hs He Hne).
  rewrite (@outer_some_spec h self s eb vb (arange (length eb))
             Hs He Hv Hn Hl).
  - rewrite map_wrap_arange. reflexivity.
  - destruct eb; [congruence|]. unfold arange. simpl. discriminate.
  - apply arange_valid.
Qed.

End OuterInAnyArithmetic.

Lemma diag_heap_well_formed : well_formed diag_heap 3.
Proof.
  split.
  - exists (mkES 0 1 2 2 None 2), [1; 2]%Z,
      [mkC 1 0; mkC 0 0; mkC 0 0; mkC 1 0].
    repeat split.
  - exists (mkES 0 1 2 2 None 2). split; [reflexivity | simpl; lia].
Defined.

(** C3, as the code has it: for an EigenSystem and a non-empty
    selection of valid indices (all the states when [idx] is [None]),
    [outer] returns the [size] by [size] matrix whose entry [(a, b)] is
    the sum over the selected indices [i], added from the first to the
    last, of [(v_i[a] * e_i) * conj(v_i[b])], in the arithmetic of the
    arrays whatever that is (the wrap-around of an integer array, the
    rounding of a floating-point one: no law of arithmetic is used);
    for the eigenvalues [1, 2] with identity eigenvectors, on which
    that arithmetic is exact, it returns [diag(1, 2)]. *)
Theorem outer_is_the_weighted_sum
        (times_e : C -> Z -> C) (times plus : C -> C -> C)
        (conjugate : C -> C) h self eb rows n :
  well_formed h self ->
  evals h self = Ok eb ->
  evecs h self = Ok rows ->
  size self h = Ok n ->
  outer times_e times plus conjugate self None h
  = Ok (outer_sum times_e times plus conjugate eb rows n (seq 0 (length eb))) /\
  (forall idx,
      idx <> [] -> Forall (valid_index (length eb)) idx ->
      outer times_e times plus conjugate self (Some idx) h
      = Ok (outer_sum times_e times plus conjugate eb rows n
                      (map (wrap (length eb)) idx))) /\
  outer mul_real cmul cadd conj 3 None diag_heap
  = Ok [[mkC 1 0; mkC 0 0]; [mkC 0 0; mkC 2 0]].
Proof.
  intros [(s & eb0 & vb & Hs & He & Hv & Hn & Hl) (s0 & Hs0 & Hpos)] Hev Hvv Hsz.
  rewrite Hs in Hs0. inversion Hs0; subst s0; clear Hs0.
  destruct (views_of_shape_ok h self Hs He Hv) as [Hev0 Hvv0].
  rewrite Hev in Hev0. inversion Hev0; subst eb0; clear Hev0.
  rewrite Hvv in Hvv0. inversion Hvv0; subst rows; clear Hvv0.
  unfold size in Hsz. rewrite Hs in Hsz. simpl in Hsz.
  inversion Hsz; subst n; clear Hsz.
  assert (Hne : eb <> []).
  { intros ->. simpl in Hn. lia. }
  split; [|split].
  - apply outer_all_spec; assumption.
  - intros idx Hi Hall. apply outer_some_spec; assumption.
  - reflexivity.
Qed.

Lemma outer_is_the_weighted_sum_witness :
  outer mul_real cmul cadd conj 3 None demo_heap
  = Ok (outer_sum mul_real cmul cadd conj [3; 1; 2]%Z
                  [[mkC 1 0; mkC 0 0]; [mkC 0 1; mkC 2 0]; [mkC 5 0; mkC 0 0]]
                  2 (seq 0 3)) /\
  (forall idx,
      idx <> [] -> Forall (valid_index 3) idx ->
      outer mul_real cmul cadd conj 3 (Some idx) demo_heap
      = Ok (outer_sum mul_real cmul cadd conj [3; 1; 2]%Z
                      [[mkC 1 0; mkC 0 0]; [mkC 0 1; mkC 2 0]; [mkC 5 0; mkC 0 0]]
                      2 (map (wrap 3) idx))) /\
  outer mul_real cmul cadd conj 3 None diag_heap
  = Ok [[mkC 1 0; mkC 0 0]; [mkC 0 0; mkC 2 0]].
Proof.
  exact (@outer_is_the_weighted_sum mul_real cmul cadd conj demo_heap 3%nat
           [3; 1; 2]%Z
           [[mkC 1 0; mkC 0 0]; [mkC 0 1; mkC 2 0]; [mkC 5 0; mkC 0 0]] 2%nat
           demo_heap_well_formed eq_refl eq_refl eq_refl).
Defined.

Example demo_outer_second_state :
  outer mul_real cmul cadd conj 3 (Some [1%Z]) demo_heap
  = Ok [[mkC 1 0; mkC 0 2]; [mkC 0 (-2); mkC 4 0]].
Proof. reflexivity. Qed.

(** C3 as stated fails on the empty selection: the code starts the sum
    from the term of [idx[0]], so [outer([])] raises [IndexError],
    whatever the arithmetic, where the sum over no index is the zero
    matrix. *)
Lemma outer_of_empty_selection_raises :
  well_formed diag_heap 3 /\
  forall (times_e : C -> Z -> C) (times plus : C -> C -> C)
         (conjugate : C -> C),
    outer times_e times plus conjugate 3 (Some []) diag_heap
    = Raise IndexError.
Proof.
  split; [exact diag_heap_well_formed|].
  intros. reflexivity.
Qed.

(* ===================================================================== *)
(** * Nearest-point lookups of the TBtrans files *)
(* ===================================================================== *)


(* ===================================================================== *)
(** * Further properties of EigenSystem *)
(* ===================================================================== *)

Lemma evals_app (h ext : heap) (l : loc) (eb : list Z) :
  evals h l = Ok eb -> evals (h ++ ext) l = Ok eb.
Proof.
  unfold evals. destruct (get_es l h) as [s|] eqn:Hs; simpl; [|discriminate].
  intros He. rewrite (@get_es_app h ext l s Hs). simpl.
  apply get_real_app; exact He.
Qed.

Lemma evecs_app (h ext : heap) (l : loc) (rows : list (list C)) :
  evecs h l = Ok rows -> evecs (h ++ ext) l = Ok rows.
Proof.
  unfold evecs. destruct (get_es l h) as [s|] eqn:Hs; simpl; [|discriminate].
  destruct (get_cplx (v s) h) as [vb|] eqn:Hv; simpl; [|discriminate].
  intros Hr. rewrite (@get_es_app h ext l s Hs). simpl.
  rewrite (@get_cplx_app h ext (v s) vb Hv). exact Hr.
Qed.

(** X1: The constructor raises [ValueError] exactly when there is no
    eigenvalue or the eigenvector data is not a whole number of rows;
    otherwise the new system has the eigenvalues given, the data cut
    into [len(e)] rows of [len(v) / len(e)] entries, and the keyword
    arguments as its [info]; the objects already there are untouched. *)
Theorem init_raises_or_builds ev vv par kw h :
  ((ev = [] \/ (length vv mod length ev <> 0)%nat) ->
   __init__ ev vv par kw h = Raise ValueError) /\
  (ev <> [] -> (length vv mod length ev = 0)%nat ->
   exists l h',
     __init__ ev vv par kw h = Ok (l, h') /\
     evals h' l = Ok ev /\
     evecs h' l = Ok (rows_of (length ev) (length vv / length ev) vv) /\
     size l h' = Ok (length vv / length ev)%nat /\
     info_of h' l = Ok kw /\
     exists ext, h' = h ++ ext).
Proof.
  split.
  - intros Hbad. unfold __init__, alloc. simpl. unfold infer_cols.
    destruct ev as [|x ev']; [reflexivity|].
    destruct Hbad as [Hbad | Hbad]; [discriminate|].
    cbn [Nat.eqb length].
    cbn [length] in Hbad.
    destruct (Nat.eqb_spec (length vv mod S (length ev')) 0) as [E|_];
      [contradiction | reflexivity].
  - intros Hne Hmod.
    assert (Hc : infer_cols (length ev) (length vv)
                 = Ok (length vv / length ev)%nat).
    { unfold infer_cols. destruct ev as [|x ev']; [congruence|].
      cbn [Nat.eqb length] in *. rewrite Hmod. reflexivity. }
    eexists. eexists. split; [apply init_ok; exact Hc|].
    split; [unfold evals; rewrite get_es_init_new; simpl; apply get_real_init_new|].
    split.
    { unfold evecs. rewrite get_es_init_new. simpl.
      rewrite get_cplx_init_new. reflexivity. }
    split; [unfold size; rewrite get_es_init_new; reflexivity|].
    split.
    { unfold info_of. rewrite get_es_init_new. simpl.
      unfold get_dict, init_objs. rewrite nth_error_app2 by lia.
      replace (length h + 2 - length h)%nat with 2%nat by lia. reflexivity. }
    eexists. reflexivity.
Qed.

Lemma init_raises_or_builds_witness :
  __init__ [] [mkC 1 0] None [] [] = Raise ValueError /\
  __init__ [1; 2]%Z [mkC 1 0; mkC 0 0; mkC 0 0] None [] [] = Raise ValueError /\
  exists l h',
    __init__ [1; 2]%Z [mkC 1 0; mkC 0 0; mkC 0 0; mkC 1 0] None [] [] = Ok (l, h') /\
    evals h' l = Ok [1; 2]%Z /\
    evecs h' l = Ok [[mkC 1 0; mkC 0 0]; [mkC 0 0; mkC 1 0]] /\
    size l h' = Ok 2%nat.
Proof.
  split; [|split].
  - apply (proj1 (@init_raises_or_builds [] [mkC 1 0] None [] [])).
    left. reflexivity.
  - apply (proj1 (@init_raises_or_builds [1; 2]%Z [mkC 1 0; mkC 0 0; mkC 0 0]
                    None [] [])).
    right. simpl. lia.
  - destruct (proj2 (@init_raises_or_builds [1; 2]%Z
                       [mkC 1 0; mkC 0 0; mkC 0 0; mkC 1 0] None [] []))
      as (l & h' & H1 & H2 & H3 & H4 & _).
    + discriminate.
    + reflexivity.
    + exists l, h'. repeat (split; [assumption|]). exact H4.
Defined.

Lemma copy_ok self h s eb vb :
  get_es self h = Ok s -> get_real (e s) h = Ok eb ->
  get_cplx (v s) h = Ok vb ->
  nrow s = length eb -> length vb = (nrow s * ncol s)%nat ->
  (0 < nrow s)%nat ->
  copy self h
  = Ok ((length h + 3)%nat,
        h ++ init_objs h eb vb (ncol s) (parent s) [] (info s)).
Proof.
  intros Hs He Hv Hn Hl Hpos. unfold copy.
  rewrite Hs; simpl. rewrite He; simpl. rewrite Hv; simpl.
  rewrite (concat_rows_of _ _ _ Hl).
  assert (Hc : infer_cols (length eb) (length vb) = Ok (ncol s)).
  { rewrite Hl, Hn. apply infer_cols_ok. lia. }
  rewrite (init_ok eb vb (parent s) [] h Hc). simpl.
  rewrite get_es_init_new. simpl. rewrite set_obj_init_new.
  reflexivity.
Qed.

(** X2: [copy] of a well-formed system returns a system with the same
    eigenvalues and eigenvectors, held in arrays of its own, and the
    [info] dictionary of the original: sorting the copy in either
    direction leaves what the original holds as it was. *)
Theorem copy_is_equal_and_independent argsort h self eb rows :
  argsort_contract argsort ->
  well_formed h self ->
  evals h self = Ok eb -> evecs h self = Ok rows ->
  exists l h',
    copy self h = Ok (l, h') /\
    l <> self /\
    evals h' l = Ok eb /\ evecs h' l = Ok rows /\
    evals h' self = Ok eb /\ evecs h' self = Ok rows /\
    info_of h' l = info_of h' self /\
    forall asc, exists h'',
      sort argsort l asc h' = Ok (tt, h'') /\
      evals h'' self = Ok eb /\ evecs h'' self = Ok rows.
Proof.
  intros Hc [(s & eb0 & vb & Hs & He & Hv & Hn & Hl) (s1 & Hs1 & Hpos)] Hev Hvv.
  rewrite Hs in Hs1. inversion Hs1; subst s1; clear Hs1.
  destruct (views_of_shape_ok _ _ Hs He Hv) as [Hev0 Hvv0].
  rewrite Hev in Hev0. inversion Hev0; subst eb0; clear Hev0.
  rewrite Hvv in Hvv0. inversion Hvv0; subst rows; clear Hvv0.
  pose proof (get_es_is_lt _ _ Hs) as Hlt.
  set (objs := init_objs h eb vb (ncol s) (parent s) [] (info s)).
  assert (Hsl : get_es (length h + 3) (h ++ objs)
                = Ok (mkES (length h) (S (length h)) (length eb) (ncol s)
                           (parent s) (info s)))
    by apply get_es_init_new.
  assert (Hel : get_real (length h) (h ++ objs) = Ok eb)
    by apply get_real_init_new.
  assert (Hvl : get_cplx (S (length h)) (h ++ objs) = Ok vb)
    by apply get_cplx_init_new.
  exists (length h + 3)%nat, (h ++ objs).
  split; [apply copy_ok; assumption|].
  split; [lia|].
  split; [unfold evals; rewrite Hsl; simpl; exact Hel|].
  split.
  { unfold evecs. rewrite Hsl. simpl. rewrite Hvl. simpl.
    rewrite <- Hn. reflexivity. }
  split; [apply evals_app; exact Hev|].
  split; [apply evecs_app; exact Hvv|].
  split.
  { unfold info_of. rewrite Hsl. rewrite (@get_es_app h objs self s Hs).
    reflexivity. }
  intros asc.
  destruct (@sort_spec argsort asc (h ++ objs) (length h + 3)%nat _ eb vb
              Hc Hsl Hel Hvl eq_refl) as (h'' & Hsort & _).
  { simpl. rewrite <- Hn. exact Hl. }
  exists h''. split; [exact Hsort|].
  apply sort_inv in Hsort.
  destruct Hsort as (s2 & eb2 & vb2 & es & vs & _ & _ & _ & _ & _ & ->).
  rewrite <- app_assoc.
  apply (@views_frame h _ (length h + 3)%nat _ self s eb vb Hs He Hv). lia.
Qed.

Lemma copy_is_equal_and_independent_witness :
  exists l h',
    copy 3%nat demo_heap = Ok (l, h') /\
    l <> 3%nat /\
    evals h' l = Ok [3; 1; 2]%Z /\
    evecs h' l = evecs demo_heap 3%nat /\
    forall asc, exists h'',
      sort argsort_stable l asc h' = Ok (tt, h'') /\
      evals h'' 3%nat = Ok [3; 1; 2]%Z.
Proof.
  destruct (evecs demo_heap 3%nat) as [rows|] eqn:Hrows; [|discriminate].
  destruct (@copy_is_equal_and_independent argsort_stable demo_heap 3%nat
              [3; 1; 2]%Z rows argsort_stable_contract
              demo_heap_well_formed eq_refl Hrows)
    as (l & h' & H1 & H2 & H3 & H4 & _ & _ & _ & H5).
  exists l, h'. repeat (split; [assumption|]).
  intros asc. destruct (H5 asc) as (h'' & Ha & Hb & _).
  exists h''. split; assumption.
Defined.

Lemma item_invalid (A : Type) (a : list A) (i : Z) (ex : exn) :
  item a i = Raise ex -> ex = IndexError.
Proof.
  unfold item.
  destruct (norm_index (length a) i) as [k|ex'] eqn:Ek; simpl.
  - destruct (nth_error a k); simpl; [discriminate|].
    intros E; inversion E; reflexivity.
  - unfold norm_index in Ek.
    repeat match type of Ek with
           | (if ?c then _ else _) = _ => destruct c; try discriminate
           end.
    inversion Ek; subst. intros E; inversion E; reflexivity.
Qed.

Lemma take_invalid (A : Type) (a : list A) (idx : list Z) :
  Exists (fun i => ~ valid_index (length a) i) idx ->
  take a idx = Raise IndexError.
Proof.
  induction 1 as [i idx Hi | i idx _ IH]; simpl.
  - destruct (item a i) as [x|ex] eqn:E; simpl.
    + exfalso. apply Hi. unfold item in E.
      destruct (norm_index (length a) i) as [k|] eqn:Ek; simpl in E; [|discriminate].
      eapply norm_index_ok_valid; eassumption.
    + apply item_invalid in E. subst. reflexivity.
  - destruct (item a i) as [x|ex] eqn:E; simpl.
    + rewrite IH. reflexivity.
    + apply item_invalid in E. subst. reflexivity.
Qed.

(** X3: [sub] with no index raises [ValueError] (the constructor refuses an
    empty system), and [sub] with any index outside
    [-len(self) .. len(self) - 1] raises [IndexError]; in both cases no
    system is returned. *)
Theorem sub_rejects_bad_selections h self eb (idx : list Z) :
  well_formed h self -> evals h self = Ok eb ->
  (idx = [] -> sub self idx h = Raise ValueError) /\
  (Exists (fun i => ~ valid_index (length eb) i) idx ->
   sub self idx h = Raise IndexError).
Proof.
  intros [(s & eb0 & vb & Hs & He & Hv & Hn & Hl) _] Hev.
  destruct (views_of_shape_ok _ _ Hs He Hv) as [Hev0 _].
  rewrite Hev in Hev0. inversion Hev0; subst eb0; clear Hev0.
  split.
  - intros ->. unfold sub. rewrite Hs; simpl. rewrite He; simpl.
    rewrite Hv; simpl. reflexivity.
  - intros Hex. unfold sub. rewrite Hs; simpl. rewrite He; simpl.
    rewrite Hv; simpl. rewrite (take_invalid eb Hex). reflexivity.
Qed.

Lemma sub_rejects_bad_selections_witness :
  sub 3%nat [] demo_heap = Raise ValueError /\
  sub 3%nat [0; 3]%Z demo_heap = Raise IndexError.
Proof.
  split.
  - apply (proj1 (@sub_rejects_bad_selections demo_heap 3%nat [3; 1; 2]%Z []
                    demo_heap_well_formed eq_refl)).
    reflexivity.
  - apply (proj2 (@sub_rejects_bad_selections demo_heap 3%nat [3; 1; 2]%Z
                    [0; 3]%Z demo_heap_well_formed eq_refl)).
    apply Exists_cons_tl. apply Exists_cons_hd.
    unfold valid_index. simpl. lia.
Defined.

Lemma Forall2_at (A B : Type) (R : A -> B -> Prop) (d1 : A) (d2 : B)
      (l1 : list A) (l2 : list B) :
  Forall2 R l1 l2 ->
  forall k, (k < length l1)%nat -> R (nth k l1 d1) (nth k l2 d2).
Proof.
  induction 1 as [|x y l1 l2 Hxy _ IH]; intros k Hk; simpl in Hk; [lia|].
  destruct k as [|k]; simpl; [exact Hxy|]. apply IH. lia.
Qed.

Lemma sub_each_spec self s eb vb (ixs : list Z) :
  forall h,
  get_es self h = Ok s -> get_real (e s) h = Ok eb ->
  get_cplx (v s) h = Ok vb ->
  nrow s = length eb -> length vb = (nrow s * ncol s)%nat ->
  Forall (valid_index (length eb)) ixs ->
  exists ls ext,
    sub_each self ixs h = Ok (ls, h ++ ext) /\
    Forall2 (fun i l =>
               evals (h ++ ext) l = Ok [nth (wrap (length eb) i) eb 0%Z] /\
               evecs (h ++ ext) l
               = Ok [nth (wrap (length eb) i) (rows_of (nrow s) (ncol s) vb) []])
            ixs ls.
Proof.
  induction ixs as [|i rest IH]; intros h Hs He Hv Hn Hl Hval.
  - exists [], []. rewrite app_nil_r. split; [reflexivity|constructor].
  - inversion Hval as [|? ? Hi Hrest]; subst.
    assert (Hes : take eb [i] = Ok [nth (wrap (length eb) i) eb 0%Z]).
    { apply (take_valid eb 0%Z). constructor; [exact Hi|constructor]. }
    assert (Hvs : take (rows_of (nrow s) (ncol s) vb) [i]
                  = Ok [nth (wrap (length eb) i) (rows_of (nrow s) (ncol s) vb) []]).
    { assert (Hlr : length (rows_of (nrow s) (ncol s) vb) = length eb)
        by (rewrite rows_of_length; exact Hn).
      rewrite <- Hlr.
      apply (take_valid (rows_of (nrow s) (ncol s) vb) []).
      rewrite Hlr. constructor; [exact Hi|constructor]. }
    assert (Hne : [i] <> []) by discriminate.
    destruct (@sub_spec _ _ _ _ _ _ _ _ Hs He Hv Hl Hes Hvs Hne) as (Hsub & Hev & Hvv).
    set (h1 := h ++ init_objs h [nth (wrap (length eb) i) eb 0%Z]
                 (concat [nth (wrap (length eb) i) (rows_of (nrow s) (ncol s) vb) []])
                 (ncol s) (parent s) [] (info s)) in *.
    destruct (IH h1) as (ls & ext & Hrec & Hall); auto.
    { apply get_es_app; exact Hs. }
    { apply get_real_app; exact He. }
    { apply get_cplx_app; exact Hv. }
    eexists (_ :: ls). eexists.
    split.
    + cbn [sub_each]. rewrite Hsub. cbn [bind]. rewrite Hrec. cbn [bind].
      unfold h1. rewrite <- app_assoc. reflexivity.
    + rewrite app_assoc. fold h1. constructor; [|exact Hall].
      split; [apply evals_app; exact Hev | apply evecs_app; exact Hvv].
Qed.

(** X4: Iterating over a well-formed system yields [len(self)] systems; the
    [k]-th one holds exactly the eigenvalue [e[k]] and the eigenvector
    [v[k, :]], and the system iterated over is left as it was.
    [__iter__] yields the same. *)
Theorem iter_yields_each_state h self eb rows :
  well_formed h self ->
  evals h self = Ok eb -> evecs h self = Ok rows ->
  exists ls h',
    iter self h = Ok (ls, h') /\
    __iter__ self h = Ok (ls, h') /\
    length ls = length eb /\
    (forall k, (k < length eb)%nat ->
       evals h' (nth k ls 0%nat) = Ok [nth k eb 0%Z] /\
       evecs h' (nth k ls 0%nat) = Ok [nth k rows []]) /\
    evals h' self = Ok eb /\ evecs h' self = Ok rows.
Proof.
  intros [(s & eb0 & vb & Hs & He & Hv & Hn & Hl) _] Hev Hvv.
  destruct (views_of_shape_ok _ _ Hs He Hv) as [Hev0 Hvv0].
  rewrite Hev in Hev0. inversion Hev0; subst eb0; clear Hev0.
  rewrite Hvv in Hvv0. inversion Hvv0; subst rows; clear Hvv0.
  destruct (@sub_each_spec self s eb vb (arange (length eb)) h Hs He Hv Hn Hl
              (arange_valid (length eb))) as (ls & ext & Hrun & Hall).
  assert (Hit : iter self h = Ok (ls, h ++ ext)).
  { unfold iter, __len__. rewrite Hev. cbn [bind]. exact Hrun. }
  exists ls, (h ++ ext).
  split; [exact Hit|]. split; [exact Hit|].
  split.
  { rewrite <- (Forall2_length Hall). unfold arange.
    rewrite length_map, length_seq. reflexivity. }
  split.
  { intros k Hk.
    assert (Hk' : (k < length (arange (length eb)))%nat).
    { unfold arange. rewrite length_map, length_seq. exact Hk. }
    pose proof (Forall2_at 0%Z 0%nat Hall Hk') as Hat. cbv beta in Hat.
    assert (Hnth : nth k (arange (length eb)) 0%Z = Z.of_nat k).
    { unfold arange. change 0%Z with (Z.of_nat 0).
      rewrite map_nth, seq_nth by exact Hk. reflexivity. }
    rewrite Hnth, wrap_of_nat in Hat. exact Hat. }
  split; [apply evals_app; exact Hev | apply evecs_app; exact Hvv].
Qed.

Lemma iter_yields_each_state_witness :
  exists ls h',
    iter 3%nat demo_heap = Ok (ls, h') /\
    length ls = 3%nat /\
    evals h' (nth 1 ls 0%nat) = Ok [1%Z] /\
    evals h' 3%nat = Ok [3; 1; 2]%Z.
Proof.
  destruct (evecs demo_heap 3%nat) as [rows|] eqn:Hrows; [|discriminate].
  destruct (@iter_yields_each_state demo_heap 3%nat [3; 1; 2]%Z rows
              demo_heap_well_formed eq_refl Hrows)
    as (ls & h' & H1 & _ & H2 & H3 & H4 & _).
  exists ls, h'. split; [exact H1|]. split; [exact H2|].
  split; [|exact H4].
  apply (proj1 (H3 1%nat ltac:(simpl; lia))).
Defined.

Lemma sub_valid h self s eb vb (idx : list Z) :
  get_es self h = Ok s -> get_real (e s) h = Ok eb ->
  get_cplx (v s) h = Ok vb ->
  nrow s = length eb -> length vb = (nrow s * ncol s)%nat ->
  idx <> [] -> Forall (valid_index (length eb)) idx ->
  let rows := rows_of (nrow s) (ncol s) vb in
  let es := map (fun i => nth (wrap (length eb) i) eb 0%Z) idx in
  let vs := map (fun i => nth (wrap (length eb) i) rows []) idx in
  let l := (length h + 3)%nat in
  let h' := h ++ init_objs h es (concat vs) (ncol s) (parent s) [] (info s) in
  sub self idx h = Ok (l, h') /\
  evals h' l = Ok es /\ evecs h' l = Ok vs /\
  get_es l h' = Ok (mkES (length h) (S (length h)) (length es) (ncol s)
                         (parent s) (info s)) /\
  get_real (length h) h' = Ok es /\
  get_cplx (S (length h)) h' = Ok (concat vs) /\
  length (concat vs) = (length es * ncol s)%nat /\
  rows_of (length es) (ncol s) (concat vs) = vs.
Proof.
  intros Hs He Hv Hn Hl Hne Hval rows es vs l h'.
  assert (Hlr : length rows = length eb)
    by (unfold rows; rewrite rows_of_length; exact Hn).
  assert (Hes : take eb idx = Ok es) by (apply take_valid; exact Hval).
  assert (Hvs : take rows idx = Ok vs).
  { unfold vs. rewrite <- Hlr. apply take_valid. rewrite Hlr. exact Hval. }
  destruct (@sub_spec _ _ _ _ _ _ _ _ Hs He Hv Hl Hes Hvs Hne) as (Hsub & Hev & Hvv).
  assert (Hrows : Forall (fun r => length r = ncol s) vs).
  { eapply take_Forall; [|exact Hvs]. apply rows_of_row_length. exact Hl. }
  assert (Hlen : length vs = length es)
    by (unfold vs, es; rewrite !length_map; reflexivity).
  split; [exact Hsub|]. split; [exact Hev|]. split; [exact Hvv|].
  split; [apply get_es_init_new|].
  split; [apply get_real_init_new|].
  split; [apply get_cplx_init_new|].
  split.
  - rewrite (length_concat_uniform Hrows), Hlen. reflexivity.
  - rewrite <- Hlen. apply rows_of_concat. exact Hrows.
Qed.

Lemma nth_wrap_map (A B : Type) (f : A -> B) (a : list A) (d : A) (d' : B)
      (j : Z) :
  valid_index (length a) j ->
  nth (wrap (length a) j) (map f a) d' = f (nth (wrap (length a) j) a d).
Proof.
  intros Hj. destruct (norm_index_valid Hj) as [_ Hlt].
  rewrite (nth_indep (map f a) d' (f d)) by (rewrite length_map; exact Hlt).
  apply map_nth.
Qed.

Lemma nth_wrap_valid (n : nat) (a : list Z) (j : Z) :
  Forall (valid_index n) a -> valid_index (length a) j ->
  valid_index n (nth (wrap (length a) j) a 0%Z).
Proof.
  intros Ha Hj. destruct (norm_index_valid Hj) as [_ Hlt].
  rewrite Forall_forall in Ha. apply Ha. apply nth_In. exact Hlt.
Qed.

(** X5: Selecting from a selection composes: [S.sub(I).sub(J)] holds the
    same eigenvalues and eigenvectors as [S.sub(I[J])], for non-empty
    [I] indexing [S] and non-empty [J] indexing [I] (negative indices
    counting from the end in both). *)
Theorem sub_of_sub_composes h self eb rows (I J : list Z) :
  well_formed h self ->
  evals h self = Ok eb -> evecs h self = Ok rows ->
  I <> [] -> Forall (valid_index (length eb)) I ->
  J <> [] -> Forall (valid_index (length I)) J ->
  let K := map (fun j => nth (wrap (length I) j) I 0%Z) J in
  exists l1 h1 l2 h2 l3 h3,
    sub self I h = Ok (l1, h1) /\
    sub l1 J h1 = Ok (l2, h2) /\
    sub self K h = Ok (l3, h3) /\
    evals h2 l2 = evals h3 l3 /\
    evecs h2 l2 = evecs h3 l3 /\
    evals h3 l3 = Ok (map (fun k => nth (wrap (length eb) k) eb 0%Z) K) /\
    evecs h3 l3 = Ok (map (fun k => nth (wrap (length eb) k) rows []) K).
Proof.
  intros [(s & eb0 & vb & Hs & He & Hv & Hn & Hl) _] Hev Hvv HI HIv HJ HJv K.
  destruct (views_of_shape_ok _ _ Hs He Hv) as [Hev0 Hvv0].
  rewrite Hev in Hev0. inversion Hev0; subst eb0; clear Hev0.
  rewrite Hvv in Hvv0. inversion Hvv0; subst rows; clear Hvv0.
  destruct (@sub_valid h self s eb vb I Hs He Hv Hn Hl HI HIv)
    as (Hsub1 & _ & _ & Hs1 & He1 & Hv1 & Hl1 & Hr1).
  set (es1 := map (fun i => nth (wrap (length eb) i) eb 0%Z) I) in *.
  set (vs1 := map (fun i => nth (wrap (length eb) i)
                                (rows_of (nrow s) (ncol s) vb) []) I) in *.
  set (h1 := h ++ init_objs h es1 (concat vs1) (ncol s) (parent s) [] (info s)) in *.
  assert (Hlen1 : length es1 = length I) by (unfold es1; apply length_map).
  assert (HJv1 : Forall (valid_index (length es1)) J)
    by (rewrite Hlen1; exact HJv).
  destruct (@sub_valid h1 (length h + 3)%nat _ es1 (concat vs1) J
              Hs1 He1 Hv1 eq_refl Hl1 HJ HJv1)
    as (Hsub2 & Hev2 & Hvv2 & _).
  cbn [nrow ncol parent info] in Hsub2, Hev2, Hvv2.
  rewrite Hr1 in Hsub2, Hev2, Hvv2.
  assert (HK : K <> []).
  { unfold K. destruct J; [congruence|discriminate]. }
  assert (HKv : Forall (valid_index (length eb)) K).
  { unfold K. apply Forall_forall. intros k Hk. apply in_map_iff in Hk.
    destruct Hk as (j & <- & Hj). apply nth_wrap_valid; [exact HIv|].
    rewrite Forall_forall in HJv. apply HJv. exact Hj. }
  destruct (@sub_valid h self s eb vb K Hs He Hv Hn Hl HK HKv)
    as (Hsub3 & Hev3 & Hvv3 & _).
  do 6 eexists.
  split; [exact Hsub1|]. split; [exact Hsub2|]. split; [exact Hsub3|].
  assert (Ee : map (fun i => nth (wrap (length es1) i) es1 0%Z) J
               = map (fun k => nth (wrap (length eb) k) eb 0%Z) K).
  { unfold K. rewrite map_map. apply map_ext_in. intros j Hj.
    rewrite Hlen1. unfold es1.
    apply (@nth_wrap_map _ _ (fun i => nth (wrap (length eb) i) eb 0%Z)
             I 0%Z 0%Z j).
    rewrite Forall_forall in HJv. apply HJv. exact Hj. }
  assert (Ev : map (fun i => nth (wrap (length es1) i) vs1 []) J
               = map (fun k => nth (wrap (length eb) k)
                                   (rows_of (nrow s) (ncol s) vb) []) K).
  { unfold K. rewrite map_map. apply map_ext_in. intros j Hj.
    rewrite Hlen1. unfold vs1.
    apply (@nth_wrap_map _ _
             (fun i => nth (wrap (length eb) i)
                           (rows_of (nrow s) (ncol s) vb) [])
             I 0%Z [] j).
    rewrite Forall_forall in HJv. apply HJv. exact Hj. }
  rewrite Hev2, Hvv2, Hev3, Hvv3, Ee, Ev.
  repeat split; reflexivity.
Qed.

Lemma sub_of_sub_composes_witness :
  exists l1 h1 l2 h2 l3 h3,
    sub 3%nat [2; 0; -2]%Z demo_heap = Ok (l1, h1) /\
    sub l1 [-1; 0]%Z h1 = Ok (l2, h2) /\
    sub 3%nat [-2; 2]%Z demo_heap = Ok (l3, h3) /\
    evals h2 l2 = evals h3 l3 /\
    evals h3 l3 = Ok [1; 2]%Z.
Proof.
  destruct (evecs demo_heap 3%nat) as [rows|] eqn:Hrows; [|discriminate].
  destruct (@sub_of_sub_composes demo_heap 3%nat [3; 1; 2]%Z rows
              [2; 0; -2]%Z [-1; 0]%Z demo_heap_well_formed eq_refl Hrows)
    as (l1 & h1 & l2 & h2 & l3 & h3 & H1 & H2 & H3 & H4 & _ & H5 & _).
  - discriminate.
  - repeat constructor; unfold valid_index; simpl; lia.
  - discriminate.
  - repeat constructor; unfold valid_index; simpl; lia.
  - exists l1, h1, l2, h2, l3, h3.
    split; [exact H1|]. split; [exact H2|]. split; [exact H3|].
    split; [exact H4|exact H5].
Defined.

Lemma sort_valid argsort asc h self s eb vb :
  argsort_contract argsort ->
  get_es self h = Ok s -> get_real (e s) h = Ok eb ->
  get_cplx (v s) h = Ok vb ->
  nrow s = length eb -> length vb = (nrow s * ncol s)%nat ->
  let idx := sort_index argsort asc eb in
  let rows := rows_of (nrow s) (ncol s) vb in
  let es := map (fun k => nth k eb 0%Z) idx in
  let vs := map (fun k => nth k rows []) idx in
  let s1 := mkES (length h) (S (length h)) (length es) (ncol s)
                 (parent s) (info s) in
  exists h1,
    sort argsort self asc h = Ok (tt, h1) /\
    get_es self h1 = Ok s1 /\
    get_real (length h) h1 = Ok es /\
    get_cplx (S (length h)) h1 = Ok (concat vs) /\
    length es = length eb /\
    length (concat vs) = (length es * ncol s)%nat /\
    rows_of (length es) (ncol s) (concat vs) = vs.
Proof.
  intros Hc Hs He Hv Hn Hl idx rows es vs s1.
  pose proof (sort_index_in_range asc eb Hc) as Hr. fold idx in Hr.
  assert (Hr' : Forall (fun k => (k < length rows)%nat) idx).
  { unfold rows. rewrite rows_of_length, Hn. exact Hr. }
  pose proof (get_es_is_lt _ _ Hs) as Hlt.
  assert (Hlen : length vs = length es)
    by (unfold vs, es; rewrite !length_map; reflexivity).
  assert (Hrows : Forall (fun r => length r = ncol s) vs).
  { apply Forall_forall. intros r Hin. apply in_map_iff in Hin.
    destruct Hin as (k & <- & Hk).
    rewrite Forall_forall in Hr'. specialize (Hr' k Hk).
    pose proof (rows_of_row_length (nrow s) (ncol s) vb Hl) as Hrl.
    rewrite Forall_forall in Hrl. apply Hrl. apply nth_In. exact Hr'. }
  exists (set_obj self (OEigenSystem s1)
                 (h ++ [ORealArr es; OCplxArr (concat vs)])).
  split; [|split; [|split; [|split; [|split; [|split]]]]].
  - unfold sort. rewrite Hs; simpl. rewrite He; simpl. rewrite Hv; simpl.
    fold (sort_index argsort asc eb). fold idx. fold rows.
    rewrite (take_of_nat eb 0%Z Hr). simpl.
    rewrite (take_of_nat rows [] Hr'). simpl.
    rewrite length_map. fold es vs.
    replace (length idx) with (length es) by (unfold es; apply length_map).
    unfold alloc. rewrite length_app, <- app_assoc. simpl.
    replace (length h + 1)%nat with (S (length h)) by lia.
    reflexivity.
  - unfold get_es. rewrite nth_error_set_obj_eq
      by (repeat rewrite length_app; simpl; lia).
    reflexivity.
  - unfold get_real. rewrite nth_error_set_obj_ne by lia.
    rewrite nth_error_snoc_new. reflexivity.
  - unfold get_cplx. rewrite nth_error_set_obj_ne by lia.
    rewrite nth_error_app2 by lia.
    replace (S (length h) - length h)%nat with 1%nat by lia. reflexivity.
  - unfold es. rewrite length_map. unfold idx, sort_index.
    destruct asc; rewrite (contract_length _ Hc); [reflexivity|].
    apply length_map.
  - rewrite (length_concat_uniform Hrows), Hlen. reflexivity.
  - rewrite <- Hlen. apply rows_of_concat. exact Hrows.
Qed.

(** X6: Sorting a second time in the same direction leaves the eigenvalues
    as the first sort left them, whatever order [argsort] gives to equal
    eigenvalues. *)
Theorem sort_is_idempotent_on_eigenvalues argsort asc h self :
  argsort_contract argsort ->
  well_formed h self ->
  exists h1 h2 es,
    sort argsort self asc h = Ok (tt, h1) /\
    sort argsort self asc h1 = Ok (tt, h2) /\
    evals h1 self = Ok es /\
    evals h2 self = Ok es.
Proof.
  intros Hc [(s & eb & vb & Hs & He & Hv & Hn & Hl) _].
  destruct (@sort_valid argsort asc h self s eb vb Hc Hs He Hv Hn Hl)
    as (h1 & Hsort1 & Hs1 & He1 & Hv1 & Hlen1 & Hl1 & _).
  set (es := map (fun k => nth k eb 0%Z) (sort_index argsort asc eb)) in *.
  destruct (@sort_valid argsort asc h1 self _ es _ Hc Hs1 He1 Hv1 eq_refl Hl1)
    as (h2 & Hsort2 & Hs2 & He2 & _).
  exists h1, h2, es.
  split; [exact Hsort1|]. split; [exact Hsort2|].
  split; [unfold evals; rewrite Hs1; simpl; exact He1|].
  unfold evals. rewrite Hs2. simpl. rewrite He2. f_equal.
  pose proof (@permutation_map_nth _ es 0%Z (sort_index argsort asc es)
                (sort_index_perm asc es Hc)) as Hp.
  pose proof (sort_index_sorted asc eb Hc) as Hsorted1.
  pose proof (sort_index_sorted asc es Hc) as Hsorted2.
  cbv zeta in Hsorted1, Hsorted2. fold es in Hsorted1.
  destruct asc.
  - symmetry. apply (@sorted_permutation_eq Z.le); try assumption; intros; lia.
  - symmetry. apply map_neg64_injective.
    apply (@sorted_permutation_eq Z.le); try assumption; try (intros; lia).
    apply Permutation_map. exact Hp.
Qed.

Lemma sort_is_idempotent_on_eigenvalues_witness :
  exists h1 h2 es,
    sort argsort_ties_reversed 3%nat true ties_heap = Ok (tt, h1) /\
    sort argsort_ties_reversed 3%nat true h1 = Ok (tt, h2) /\
    evals h1 3%nat = Ok es /\
    evals h2 3%nat = Ok es.
Proof.
  apply (@sort_is_idempotent_on_eigenvalues argsort_ties_reversed true
           ties_heap 3%nat argsort_ties_reversed_contract).
  split; [exact ties_heap_shape_ok|].
  eexists. split; [reflexivity|]. simpl. lia.
Defined.

Lemma nth_map_lt (A B : Type) (f : A -> B) (l : list A) (d : A) (d' : B)
      (k : nat) :
  (k < length l)%nat -> nth k (map f l) d' = f (nth k l d).
Proof.
  intros Hk.
  rewrite (nth_indep (map f l) d' (f d)) by (rewrite length_map; exact Hk).
  apply map_nth.
Qed.

(** Sums in an arithmetic whose addition is associative (and
    commutative), as that of an integer array is and that of a
    floating-point array is not. *)
Section SumsOfIntegerArrays.

Variable plus : C -> C -> C.
Hypothesis plus_assoc : forall x y z, plus x (plus y z) = plus (plus x y) z.

Lemma fold_left_plus (f : nat -> C) (l : list nat) :
  l <> [] ->
  forall a, fold_left (fun acc i => plus acc (f i)) l a
            = plus a (sum_in_order plus f l).
Proof.
  induction l as [|i l IH]; intros Hne a; [congruence|].
  destruct l as [|j r]; [reflexivity|].
  cbn [fold_left sum_in_order] in *.
  rewrite (IH ltac:(discriminate) (plus a (f i))).
  rewrite (IH ltac:(discriminate) (f i)).
  symmetry. apply plus_assoc.
Qed.

Lemma sum_in_order_app (f : nat -> C) (l1 l2 : list nat) :
  l1 <> [] -> l2 <> [] ->
  sum_in_order plus f (l1 ++ l2)
  = plus (sum_in_order plus f l1) (sum_in_order plus f l2).
Proof.
  intros H1 H2. destruct l1 as [|i l1]; [congruence|].
  cbn [app sum_in_order]. rewrite fold_left_app.
  apply fold_left_plus. exact H2.
Qed.

Hypothesis plus_comm : forall x y, plus x y = plus y x.

Lemma sum_in_order_permutation (f : nat -> C) (l l' : list nat) :
  Permutation l l' -> sum_in_order plus f l = sum_in_order plus f l'.
Proof.
  induction 1 as [|x l l' Hp IH|x y l|l l' l'' _ IH1 _ IH2].
  - reflexivity.
  - cbn [sum_in_order]. destruct l as [|i r].
    + apply Permutation_nil in Hp. subst. reflexivity.
    + assert (Hne : l' <> []).
      { intros ->. apply Permutation_sym, Permutation_nil in Hp. discriminate. }
      rewrite (@fold_left_plus f (i :: r) ltac:(discriminate)).
      rewrite (@fold_left_plus f l' Hne). rewrite IH. reflexivity.
  - cbn [sum_in_order fold_left]. rewrite (plus_comm (f y) (f x)). reflexivity.
  - rewrite IH1. exact IH2.
Qed.

End SumsOfIntegerArrays.

Lemma outer_sum_reindexed
      (times_e : C -> Z -> C) (times plus : C -> C -> C) (conjugate : C -> C)
      (eb : list Z) (rows : list (list C)) (n : nat) (idx : list nat) :
  (forall x y z, plus x (plus y z) = plus (plus x y) z) ->
  (forall x y, plus x y = plus y x) ->
  Permutation idx (seq 0 (length eb)) ->
  outer_sum times_e times plus conjugate
            (map (fun k => nth k eb 0%Z) idx)
            (map (fun k => nth k rows []) idx) n (seq 0 (length idx))
  = outer_sum times_e times plus conjugate eb rows n (seq 0 (length eb)).
Proof.
  intros Ha Hcm Hp. unfold outer_sum. apply tabulate2_ext. intros a b.
  rewrite <- (@sum_in_order_permutation plus Ha Hcm
                (outer_term times_e times conjugate eb rows a b) _ _ Hp).
  assert (E : forall k, In k (seq 0 (length idx)) ->
                outer_term times_e times conjugate
                           (map (fun k => nth k eb 0%Z) idx)
                           (map (fun k => nth k rows []) idx) a b k
                = outer_term times_e times conjugate eb rows a b (nth k idx 0%nat)).
  { intros k Hk. apply in_seq in Hk. unfold outer_term.
    rewrite (@nth_map_lt _ _ (fun k => nth k eb 0%Z) idx 0%nat 0%Z k) by lia.
    rewrite (@nth_map_lt _ _ (fun k => nth k rows []) idx 0%nat [] k) by lia.
    reflexivity. }
  rewrite <- (map_nth_seq idx 0%nat) at 4.
  revert E. generalize (seq 0 (length idx)). intros l E.
  destruct l as [|k0 l]; [reflexivity|].
  cbn [map sum_in_order]. rewrite (E k0 (or_introl eq_refl)).
  assert (E' : forall k, In k l -> _) by (intros k Hk; exact (E k (or_intror Hk))).
  clear E. revert E'.
  generalize (outer_term times_e times conjugate eb rows a b (nth k0 idx 0%nat)).
  induction l as [|k l IH]; intros acc E'; [reflexivity|].
  cbn [map fold_left]. rewrite (E' k (or_introl eq_refl)).
  apply IH. intros k' Hk'. apply E'. right. exact Hk'.
Qed.

(** X7: For an integer array, whose addition is associative and
    commutative (that of a floating-point array is not), the outer
    product over all states does not depend on the order of the
    states: [outer()] gives the same matrix before and after [sort],
    in either direction. *)
Theorem outer_is_unchanged_by_sort
        (times_e : C -> Z -> C) (times plus : C -> C -> C) (conjugate : C -> C)
        argsort asc h self :
  (forall x y z, plus x (plus y z) = plus (plus x y) z) ->
  (forall x y, plus x y = plus y x) ->
  argsort_contract argsort ->
  well_formed h self ->
  exists h1 m,
    sort argsort self asc h = Ok (tt, h1) /\
    outer times_e times plus conjugate self None h = Ok m /\
    outer times_e times plus conjugate self None h1 = Ok m.
Proof.
  intros Ha Hcm Hc [(s & eb & vb & Hs & He & Hv & Hn & Hl) (s0 & Hs0 & Hpos)].
  rewrite Hs in Hs0. inversion Hs0; subst s0; clear Hs0.
  assert (Hne : eb <> []).
  { intros ->. simpl in Hn. lia. }
  destruct (@sort_valid argsort asc h self s eb vb Hc Hs He Hv Hn Hl)
    as (h1 & Hsort & Hs1 & He1 & Hv1 & Hlen1 & Hl1 & Hr1).
  set (idx := sort_index argsort asc eb) in *.
  set (es := map (fun k => nth k eb 0%Z) idx) in *.
  set (vs := map (fun k => nth k (rows_of (nrow s) (ncol s) vb) []) idx) in *.
  assert (Hne1 : es <> []).
  { intros E. rewrite E in Hlen1. destruct eb; [congruence|discriminate]. }
  exists h1. eexists.
  split; [exact Hsort|].
  split; [apply (@outer_all_spec times_e times plus conjugate h self s eb vb
                   Hs He Hv Hn Hl Hne)|].
  rewrite (@outer_all_spec times_e times plus conjugate h1 self _ es (concat vs)
             Hs1 He1 Hv1 eq_refl Hl1 Hne1).
  cbn [nrow ncol]. rewrite Hr1. f_equal.
  assert (Hli : length es = length idx) by (unfold es; apply length_map).
  rewrite Hli. unfold es, vs.
  apply outer_sum_reindexed; try assumption.
  apply sort_index_perm. exact Hc.
Qed.

Lemma outer_is_unchanged_by_sort_witness :
  exists h1 m,
    sort argsort_stable 3%nat false demo_heap = Ok (tt, h1) /\
    outer mul_real cmul cadd conj 3%nat None demo_heap = Ok m /\
    outer mul_real cmul cadd conj 3%nat None h1 = Ok m.
Proof.
  exact (@outer_is_unchanged_by_sort mul_real cmul cadd conj argsort_stable
           false demo_heap 3%nat cadd_assoc cadd_comm
           argsort_stable_contract demo_heap_well_formed).
Defined.

(** X9: For an integer array, whose addition is associative (that of a
    floating-point array is not), the outer product is additive in the
    selection: for two non-empty selections of valid indices, [outer]
    of their concatenation is the entry-wise sum of the two outer
    products. *)
Theorem outer_of_concatenation_adds
        (times_e : C -> Z -> C) (times plus : C -> C -> C) (conjugate : C -> C)
        h self eb (I J : list Z) :
  (forall x y z, plus x (plus y z) = plus (plus x y) z) ->
  well_formed h self -> evals h self = Ok eb ->
  I <> [] -> Forall (valid_index (length eb)) I ->
  J <> [] -> Forall (valid_index (length eb)) J ->
  exists mI mJ,
    outer times_e times plus conjugate self (Some I) h = Ok mI /\
    outer times_e times plus conjugate self (Some J) h = Ok mJ /\
    outer times_e times plus conjugate self (Some (I ++ J)) h
    = Ok (madd plus mI mJ).
Proof.
  intros Ha [(s & eb0 & vb & Hs & He & Hv & Hn & Hl) _] Hev HI HIv HJ HJv.
  destruct (views_of_shape_ok _ _ Hs He Hv) as [Hev0 _].
  rewrite Hev in Hev0. inversion Hev0; subst eb0; clear Hev0.
  do 2 eexists.
  split; [apply (@outer_some_spec times_e times plus conjugate h self s eb vb I);
          assumption|].
  split; [apply (@outer_some_spec times_e times plus conjugate h self s eb vb J);
          assumption|].
  rewrite (@outer_some_spec times_e times plus conjugate h self s eb vb (I ++ J)
             Hs He Hv Hn Hl).
  - f_equal. unfold outer_sum. rewrite madd_tabulate2.
    apply tabulate2_ext. intros a b.
    rewrite map_app. apply sum_in_order_app; [exact Ha| |].
    + destruct I; [congruence|discriminate].
    + destruct J; [congruence|discriminate].
  - destruct I; [congruence|discriminate].
  - apply Forall_app. split; assumption.
Qed.

Lemma outer_of_concatenation_adds_witness :
  exists mI mJ,
    outer mul_real cmul cadd conj 3%nat (Some [0]%Z) demo_heap = Ok mI /\
    outer mul_real cmul cadd conj 3%nat (Some [2; -2]%Z) demo_heap = Ok mJ /\
    outer mul_real cmul cadd conj 3%nat (Some ([0] ++ [2; -2])%Z) demo_heap
    = Ok (madd cadd mI mJ).
Proof.
  apply (@outer_of_concatenation_adds mul_real cmul cadd conj demo_heap 3%nat
           [3; 1; 2]%Z [0]%Z [2; -2]%Z cadd_assoc demo_heap_well_formed eq_refl).
  - discriminate.
  - repeat constructor; unfold valid_index; simpl; lia.
  - discriminate.
  - repeat constructor; unfold valid_index; simpl; lia.
Defined.
Import F64 Cdf64.

(** ** The order of float64 values *)

(** Of two values that are not NaN, one is at most the other. *)
Lemma fleb_total (a b : float) :
  is_nan a = false -> is_nan b = false -> fleb a b = false -> fltb b a = true.
Proof.
  unfold fleb, fltb, SFleb, SFltb, SFcompare.
  float_cases a; float_cases b; simpl;
    try discriminate; try reflexivity; intros _ _; order_cases.
Qed.

Lemma fleb_refl (a : float) : is_nan a = false -> fleb a a = true.
Proof.
  unfold fleb, SFleb, SFcompare. float_cases a; simpl;
    try discriminate; try reflexivity; intros _; order_cases.
Qed.

Lemma fltb_fleb_trans (a b c : float) :
  fltb a b = true -> fleb b c = true -> fltb a c = true.
Proof.
  unfold fleb, fltb, SFleb, SFltb, SFcompare.
  float_cases a; float_cases b; float_cases c; simpl;
    try discriminate; try reflexivity; order_cases.
Qed.

Lemma fltb_fleb (a b : float) : fltb a b = true -> fleb a b = true.
Proof.
  unfold fleb, fltb, SFleb, SFltb. destruct (SFcompare a b) as [[]|]; congruence.
Qed.

Lemma fsub_nan_r (a : float) : fsub a S754_nan = S754_nan.
Proof. float_cases a; reflexivity. Qed.

(** ** [numpy.argmin] on float64 *)

Lemma argmin_from_at_nan (l : list float) (best_i i : nat) :
  argmin_from best_i S754_nan i l = best_i.
Proof. destruct l; reflexivity. Qed.

Lemma argmin_from_first (l pre : list float) (best_i : nat) (best : float) :
  nth_error pre best_i = Some best ->
  no_nan (pre ++ l) ->
  (forall y, In y pre -> fleb best y = true) ->
  (forall j y, (j < best_i)%nat -> nth_error pre j = Some y -> fltb best y = true) ->
  let k := argmin_from best_i best (length pre) l in
  exists m, nth_error (pre ++ l) k = Some m /\
            (forall y, In y (pre ++ l) -> fleb m y = true) /\
            (forall j y, (j < k)%nat -> nth_error (pre ++ l) j = Some y ->
                         fltb m y = true).
Proof.
  revert pre best_i best.
  induction l as [|x r IH]; intros pre best_i best Hb Hnn Hle Hlt; simpl.
  - rewrite app_nil_r. exists best. repeat split; assumption.
  - pose proof (nth_error_is_lt _ _ Hb) as Hbi.
    assert (Hbn : is_nan best = false).
    { unfold no_nan in Hnn. rewrite Forall_forall in Hnn. apply Hnn.
      apply in_or_app. left. eapply nth_error_In; exact Hb. }
    assert (Hxn : is_nan x = false).
    { unfold no_nan in Hnn. rewrite Forall_forall in Hnn. apply Hnn.
      apply in_or_app. right. left. reflexivity. }
    rewrite Hbn.
    replace (pre ++ x :: r) with ((pre ++ [x]) ++ r) in *
      by (rewrite <- app_assoc; reflexivity).
    replace (S (length pre)) with (length (pre ++ [x]))
      by (rewrite length_app; simpl; lia).
    destruct (fleb best x) eqn:E; simpl.
    + apply IH.
      * rewrite nth_error_app1; [exact Hb | exact Hbi].
      * exact Hnn.
      * intros y Hy. apply in_app_or in Hy. destruct Hy as [Hy | [<- | []]].
        -- apply Hle; assumption.
        -- exact E.
      * intros j y Hj Hy. rewrite nth_error_app1 in Hy by lia.
        eapply Hlt; eassumption.
    + pose proof (@fleb_total _ _ Hbn Hxn E) as Hx.
      apply (IH (pre ++ [x]) (length pre) x).
      * apply nth_error_snoc_new.
      * exact Hnn.
      * intros y Hy. apply in_app_or in Hy. destruct Hy as [Hy | [<- | []]].
        -- apply fltb_fleb. eapply fltb_fleb_trans; [exact Hx | apply Hle; exact Hy].
        -- apply fleb_refl; exact Hxn.
      * intros j y Hj Hy. rewrite nth_error_app1 in Hy by exact Hj.
        eapply fltb_fleb_trans; [exact Hx|]. apply Hle.
        eapply nth_error_In; exact Hy.
Qed.

(** [argmin] of a non-empty array without NaN is the first position of
    a least entry. *)
Lemma argmin_first (l : list float) :
  l <> [] -> no_nan l ->
  exists k m, argmin l = Ok k /\ nth_error l k = Some m /\
              (forall y, In y l -> fleb m y = true) /\
              (forall j y, (j < k)%nat -> nth_error l j = Some y ->
                           fltb m y = true).
Proof.
  destruct l as [|x r]; [congruence|]. intros _ Hnn.
  destruct (@argmin_from_first r [x] 0%nat x eq_refl Hnn) as (m & Hm & Hle & Hlt).
  - intros y [<- | []]. apply fleb_refl. inversion Hnn; assumption.
  - intros j y Hj. lia.
  - exists (argmin_from 0 x 1 r), m. repeat split; assumption.
Qed.

Lemma nth_error_map_inv (A B : Type) (f : A -> B) (l : list A) (k : nat) (m : B) :
  nth_error (map f l) k = Some m ->
  exists a, nth_error l k = Some a /\ m = f a.
Proof.
  rewrite nth_error_map. destruct (nth_error l k) as [a|]; simpl; [|discriminate].
  intros H; inversion H. eauto.
Qed.

Lemma no_nan_map (A : Type) (d : A -> float) (l : list A) :
  Forall (fun a => is_nan (d a) = false) l -> no_nan (map d l).
Proof.
  unfold no_nan. intros H. apply Forall_map. exact H.
Qed.

Lemma isclose_iff (atol a b : float) :
  isclose atol a b = true <-> component_close atol a b.
Proof.
  unfold isclose, component_close.
  destruct (isfinite a), (isfinite b); simpl; split; intros H;
    try (right; split; [auto | exact H]);
    try (left; repeat split; exact H);
    destruct H as [(Ha & Hb & H) | ([Ha | Ha] & H)];
    try discriminate; exact H.
Qed.

Lemma allclose_iff (atol : float) (ret k : float * float * float) :
  allclose atol ret k = true <-> components_close atol ret k.
Proof.
  destruct ret as [[a b] c], k as [[x y] z]. unfold allclose, components_close.
  rewrite !andb_true_iff, !isclose_iff. tauto.
Qed.

(** The lookups succeed on a grid that is not empty and locate the first
    least computed distance (helper shared by the statements below). *)
Lemma Eindex_first (Ry2eV : float) (float_of_str : string -> option float)
      (f : file) (x : float) :
  var_E f <> [] ->
  Forall (fun en => is_nan (fabs (fsub en x)) = false) (prop_E Ry2eV f) ->
  exists i ret,
    Eindex Ry2eV float_of_str f (EFloat x)
    = Ok (Z.of_nat i, fltb tol_E (fabs (fsub ret x))) /\
    nth_error (prop_E Ry2eV f) i = Some ret /\
    (forall en, In en (prop_E Ry2eV f) ->
                fleb (fabs (fsub ret x)) (fabs (fsub en x)) = true) /\
    (forall j en, (j < i)%nat -> nth_error (prop_E Ry2eV f) j = Some en ->
                  fltb (fabs (fsub ret x)) (fabs (fsub en x)) = true).
Proof.
  intros Hne Hnn.
  assert (Hne' : map (fun en => fabs (fsub en x)) (prop_E Ry2eV f) <> []).
  { unfold prop_E. destruct (var_E f); [congruence | discriminate]. }
  destruct (@argmin_first _ Hne' (@no_nan_map _ _ _ Hnn)) as (k & m & Harg & Hnth & Hle & Hlt).
  apply nth_error_map_inv in Hnth. destruct Hnth as (ret & Hret & ->).
  exists k, ret. split; [|split; [exact Hret|split]].
  - unfold Eindex. cbn [bind]. rewrite Harg. cbn [bind].
    rewrite Hret. reflexivity.
  - intros en Hin. apply Hle. apply in_map_iff. exists en. auto.
  - intros j en Hj Hen. apply (Hlt j); [exact Hj|].
    rewrite nth_error_map, Hen. reflexivity.
Qed.

Lemma kindex_first (np_sum : float -> float -> float -> float)
      (f : file) (k : float * float * float) :
  var_kpt f <> [] ->
  Forall (fun row => is_nan (l1_dist np_sum row k) = false) (prop_k f) ->
  exists i ret,
    kindex np_sum f k = Ok (i, negb (allclose atol_k ret k)) /\
    nth_error (prop_k f) i = Some ret /\
    (forall row, In row (prop_k f) ->
                 fleb (l1_dist np_sum ret k) (l1_dist np_sum row k) = true) /\
    (forall j row, (j < i)%nat -> nth_error (prop_k f) j = Some row ->
                   fltb (l1_dist np_sum ret k) (l1_dist np_sum row k) = true).
Proof.
  intros Hne Hnn.
  assert (Hne' : map (fun row => l1_dist np_sum row k) (prop_k f) <> []).
  { unfold prop_k. destruct (var_kpt f); [congruence | discriminate]. }
  destruct (@argmin_first _ Hne' (@no_nan_map _ _ _ Hnn)) as (i & m & Harg & Hnth & Hle & Hlt).
  apply nth_error_map_inv in Hnth. destruct Hnth as (ret & Hret & ->).
  exists i, ret. split; [|split; [exact Hret|split]].
  - unfold kindex. rewrite Harg. cbn [bind]. rewrite Hret. reflexivity.
  - intros row Hin. apply Hle. apply in_map_iff. exists row. auto.
  - intros j row Hj Hrow. apply (Hlt j); [exact Hj|].
    rewrite nth_error_map, Hrow. reflexivity.
Qed.

(** C4, as the code has it, in float64.  An integer [E] is returned
    unchanged as the index, without a warning.  For a float [E] (or a
    string that [float] accepts), at least one stored energy and no
    computed distance [|E_j - E|] that is NaN, [Eindex] returns the
    index of a stored energy whose computed distance to [E] is least,
    and warns exactly when that computed distance is greater than 1e-3
    eV.  When [E] is NaN it returns index 0 without a warning.  For a
    k-point [k], at least one stored k-point and no computed distance
    (the float sum of the absolute component differences) that is NaN,
    [kindex] returns the index of a stored k-point whose computed
    distance is least, and warns exactly when [numpy.allclose] rejects
    it: when for some component [c] not [|ret_c - k_c| <= 1e-4 + 1e-5 *
    |k_c|] in float64 (equality is required of components that are not
    finite). *)
Theorem nearest_lookups_warn_beyond_tolerance
        (Ry2eV : float) (float_of_str : string -> option float)
        (np_sum : float -> float -> float -> float) (f : file) :
  (forall i, Eindex Ry2eV float_of_str f (EInt i) = Ok (i, false)) /\
  (forall x, var_E f <> [] ->
     Forall (fun en => is_nan (fabs (fsub en x)) = false) (prop_E Ry2eV f) ->
     exists i w ret,
       Eindex Ry2eV float_of_str f (EFloat x) = Ok (Z.of_nat i, w) /\
       nth_error (prop_E Ry2eV f) i = Some ret /\
       (forall en, In en (prop_E Ry2eV f) ->
                   fleb (fabs (fsub ret x)) (fabs (fsub en x)) = true) /\
       (w = true <-> fltb tol_E (fabs (fsub ret x)) = true)) /\
  (var_E f <> [] ->
   Eindex Ry2eV float_of_str f (EFloat S754_nan) = Ok (0%Z, false)) /\
  (forall s x, float_of_str s = Some x ->
     Eindex Ry2eV float_of_str f (EStr s)
     = Eindex Ry2eV float_of_str f (EFloat x)) /\
  (forall k, var_kpt f <> [] ->
     Forall (fun row => is_nan (l1_dist np_sum row k) = false) (prop_k f) ->
     exists i w ret,
       kindex np_sum f k = Ok (i, w) /\
       nth_error (prop_k f) i = Some ret /\
       (forall row, In row (prop_k f) ->
                    fleb (l1_dist np_sum ret k) (l1_dist np_sum row k) = true) /\
       (w = true <-> ~ components_close atol_k ret k)).
Proof.
  split; [reflexivity|]. split; [|split; [|split]].
  - intros x Hne Hnn.
    destruct (@Eindex_first Ry2eV float_of_str f x Hne Hnn) as (i & ret & HE & Hret & Hle & _).
    exists i, (fltb tol_E (fabs (fsub ret x))), ret.
    repeat split; try assumption; auto.
  - intros Hne. unfold Eindex, prop_E. cbn [bind].
    destruct (var_E f) as [|e0 r]; [congruence|].
    cbn [map argmin]. rewrite fsub_nan_r. cbn [fabs SFabs].
    rewrite argmin_from_at_nan. cbn [bind nth_error of_option].
    rewrite fsub_nan_r. reflexivity.
  - intros s x Hs. unfold Eindex. rewrite Hs. reflexivity.
  - intros k Hne Hnn.
    destruct (@kindex_first np_sum f k Hne Hnn) as (i & ret & Hk & Hret & Hle & _).
    exists i, (negb (allclose atol_k ret k)), ret.
    split; [exact Hk|]. split; [exact Hret|]. split; [exact Hle|].
    rewrite negb_true_iff, <- allclose_iff.
    destruct (allclose atol_k ret k); split; congruence.
Qed.

Lemma nearest_lookups_warn_beyond_tolerance_witness :
  (forall i, Eindex Ry2eV_sample (fun _ => None) one_point_file (EInt i)
             = Ok (i, false)) /\
  (exists i w ret,
     Eindex Ry2eV_sample (fun _ => None) one_point_file (EFloat zero)
     = Ok (Z.of_nat i, w) /\
     nth_error (prop_E Ry2eV_sample one_point_file) i = Some ret /\
     (forall en, In en (prop_E Ry2eV_sample one_point_file) ->
                 fleb (fabs (fsub ret zero)) (fabs (fsub en zero)) = true) /\
     (w = true <-> fltb tol_E (fabs (fsub ret zero)) = true)) /\
  (exists i w ret,
     kindex sum_left one_point_file (half, zero, zero) = Ok (i, w) /\
     nth_error (prop_k one_point_file) i = Some ret /\
     (forall row, In row (prop_k one_point_file) ->
                  fleb (l1_dist sum_left ret (half, zero, zero))
                       (l1_dist sum_left row (half, zero, zero)) = true) /\
     (w = true <-> ~ components_close atol_k ret (half, zero, zero))).
Proof.
  pose proof (@nearest_lookups_warn_beyond_tolerance Ry2eV_sample
                (fun _ => None) sum_left one_point_file)
    as (H1 & H2 & _ & _ & H5).
  split; [exact H1|]. split.
  - apply (H2 zero); [discriminate|].
    repeat constructor.
  - apply (H5 (half, zero, zero)); [discriminate|].
    repeat constructor.
Defined.

Example Eindex_near :
  Eindex Ry2eV_sample (fun _ => None) one_point_file (EFloat Ry2eV_sample)
  = Ok (0%Z, false).
Proof. vm_compute. reflexivity. Qed.

Example Eindex_far :
  Eindex Ry2eV_sample (fun _ => None) one_point_file (EFloat zero)
  = Ok (0%Z, true).
Proof. vm_compute. reflexivity. Qed.

(** The stored energy 7.349798844906441e-05 Ry is exactly 0.001 eV after
    the rounded multiplication by 13.605814541346533, which is not more
    than [1e-3]: a request for 0 eV is answered without a warning. *)
Example Eindex_at_the_threshold :
  prop_E Ry2eV_sample milli_file = [tol_E] /\
  Eindex Ry2eV_sample (fun _ => None) milli_file (EFloat zero) = Ok (0%Z, false).
Proof. split; vm_compute; reflexivity. Qed.

(** C4 as stated fails twice.  With no stored energy (no stored
    k-point) [Eindex] ([kindex]) raises [ValueError], from [argmin].
    And the k-point test is [numpy.allclose] with its default relative
    tolerance as well: the stored k-point [(0.500104, 0, 0)] is more
    than 1e-4 from the query [(0.5, 0, 0)] in its first component, yet
    no warning is emitted. *)
Lemma lookups_can_raise_and_skip_the_warning :
  Eindex Ry2eV_sample (fun _ => None) empty_file (EFloat zero)
  = Raise ValueError /\
  (forall np_sum, kindex np_sum empty_file (half, zero, zero)
                  = Raise ValueError) /\
  (forall np_sum, kindex np_sum one_point_file (half, zero, zero)
                  = Ok (0%nat, false)) /\
  fltb atol_k (fabs (fsub (lit 4504536376092989 (-53)) half)) = true.
Proof.
  split; [reflexivity|]. split; [reflexivity|]. split.
  - intros np_sum. vm_compute. reflexivity.
  - vm_compute. reflexivity.
Qed.

(* ===================================================================== *)
(** * Further properties of the nearest-point lookups *)
(* ===================================================================== *)

(** X10: Among the stored points at the least computed distance the
    lookups return the first: every energy (k-point) at a lower index
    than the one [Eindex] ([kindex]) returns has a strictly greater
    computed float64 distance to the request, when no computed distance
    is NaN.  Distances that differ only below the rounding are equal:
    with the energies 0 and 13.605814541346533 eV a request for 1e18 eV
    is answered with index 0. *)
Theorem lookups_return_the_first_nearest
        (Ry2eV : float) (float_of_str : string -> option float)
        (np_sum : float -> float -> float -> float) (f : file) :
  (forall x, var_E f <> [] ->
     Forall (fun en => is_nan (fabs (fsub en x)) = false) (prop_E Ry2eV f) ->
     exists i w ret,
       Eindex Ry2eV float_of_str f (EFloat x) = Ok (Z.of_nat i, w) /\
       nth_error (prop_E Ry2eV f) i = Some ret /\
       forall j en, (j < i)%nat -> nth_error (prop_E Ry2eV f) j = Some en ->
                    fltb (fabs (fsub ret x)) (fabs (fsub en x)) = true) /\
  (forall k, var_kpt f <> [] ->
     Forall (fun row => is_nan (l1_dist np_sum row k) = false) (prop_k f) ->
     exists i w ret,
       kindex np_sum f k = Ok (i, w) /\
       nth_error (prop_k f) i = Some ret /\
       forall j row, (j < i)%nat -> nth_error (prop_k f) j = Some row ->
                     fltb (l1_dist np_sum ret k) (l1_dist np_sum row k) = true) /\
  (prop_E Ry2eV_sample two_energy_file = [zero; Ry2eV_sample] /\
   Eindex Ry2eV_sample float_of_str two_energy_file
          (EFloat (lit 7812500000000000 7)) = Ok (0%Z, true)).
Proof.
  split; [|split].
  - intros x Hne Hnn.
    destruct (@Eindex_first Ry2eV float_of_str f x Hne Hnn) as (i & ret & HE & Hret & _ & Hlt).
    exists i, (fltb tol_E (fabs (fsub ret x))), ret. auto.
  - intros k Hne Hnn.
    destruct (@kindex_first np_sum f k Hne Hnn) as (i & ret & Hk & Hret & _ & Hlt).
    exists i, (negb (allclose atol_k ret k)), ret. auto.
  - split; vm_compute; reflexivity.
Qed.

Lemma lookups_return_the_first_nearest_witness :
  exists i w ret,
    Eindex Ry2eV_sample (fun _ => None) two_energy_file
           (EFloat (lit 7812500000000000 7))
    = Ok (Z.of_nat i, w) /\
    nth_error (prop_E Ry2eV_sample two_energy_file) i = Some ret /\
    forall j en, (j < i)%nat ->
      nth_error (prop_E Ry2eV_sample two_energy_file) j = Some en ->
      fltb (fabs (fsub ret (lit 7812500000000000 7)))
           (fabs (fsub en (lit 7812500000000000 7))) = true.
Proof.
  apply (proj1 (@lookups_return_the_first_nearest Ry2eV_sample (fun _ => None)
                  sum_left two_energy_file)).
  - discriminate.
  - vm_compute. repeat constructor.
Defined.

(* ===================================================================== *)
(** * The lookups over exact rationals *)
(* ===================================================================== *)

Import Cdf.

Lemma argmin_from_spec (l pre : list Q) (best_i : nat) (best : Q) :
  nth_error pre best_i = Some best ->
  (forall y, In y pre -> (best <= y)%Q) ->
  let k := argmin_from best_i best (length pre) l in
  exists m, nth_error (pre ++ l) k = Some m /\
            forall y, In y (pre ++ l) -> (m <= y)%Q.
Proof.
  revert pre best_i best. induction l as [|x r IH]; intros pre best_i best Hb Hle; simpl.
  - rewrite app_nil_r. exists best. split; assumption.
  - replace (pre ++ x :: r) with ((pre ++ [x]) ++ r)
      by (rewrite <- app_assoc; reflexivity).
    replace (S (length pre)) with (length (pre ++ [x]))
      by (rewrite length_app; simpl; lia).
    destruct (Qle_bool best x) eqn:E; simpl.
    + apply IH.
      * rewrite nth_error_app1; [exact Hb|].
        eapply nth_error_is_lt; eassumption.
      * intros y Hy. apply in_app_or in Hy. destruct Hy as [Hy | [<- | []]].
        -- apply Hle; assumption.
        -- apply Qle_bool_iff; assumption.
    + assert (Hlt : (x < best)%Q).
      { apply Qnot_le_lt. intros Hc. apply Qle_bool_iff in Hc. congruence. }
      apply (IH (pre ++ [x]) (length pre) x).
      * apply nth_error_snoc_new.
      * intros y Hy. apply in_app_or in Hy. destruct Hy as [Hy | [<- | []]].
        -- apply Qlt_le_weak. eapply Qlt_le_trans; [exact Hlt | apply Hle; exact Hy].
        -- apply Qle_refl.
Qed.

(** [argmin] of a non-empty array is the position of a least entry. *)
Lemma argmin_spec (l : list Q) :
  l <> [] ->
  exists k m, argmin l = Ok k /\ nth_error l k = Some m /\
              forall y, In y l -> (m <= y)%Q.
Proof.
  destruct l as [|x r]; [congruence|]. intros _.
  destruct (@argmin_from_spec r [x] 0%nat x eq_refl) as (m & Hm & Hle).
  - intros y [<- | []]. apply Qle_refl.
  - exists (argmin_from 0 x 1 r), m. repeat split; assumption.
Qed.

Lemma Qabs_le_0 (z : Q) : (Qabs z <= 0)%Q -> (z == 0)%Q.
Proof.
  intros H. apply Qabs_Qle_condition in H. destruct H as [H1 H2].
  apply Qle_antisym; [exact H2 | exact H1].
Qed.

Lemma Qabs_self_diff (x : Q) : (Qabs (x - x) == 0)%Q.
Proof.
  assert (E : (x - x == 0)%Q) by ring. rewrite E. reflexivity.
Qed.

Lemma isclose_same (atol a b : Q) :
  (0 <= atol)%Q -> (a == b)%Q -> isclose atol a b = true.
Proof.
  intros Hat Hab. unfold isclose. apply Qle_bool_iff.
  assert (E : (a - b == 0)%Q) by (rewrite Hab; ring).
  rewrite E. simpl Qabs.
  assert (H0 : (0 <= (1 # 100000) * Qabs b)%Q).
  { apply Qmult_le_0_compat; [discriminate | apply Qabs_nonneg]. }
  replace 0%Q with (0 + 0)%Q at 1 by reflexivity.
  apply Qplus_le_compat; assumption.
Qed.

Lemma three_nonneg_sum_0 (p q r : Q) :
  (0 <= p)%Q -> (0 <= q)%Q -> (0 <= r)%Q -> (p + q + r <= 0)%Q ->
  (p <= 0)%Q /\ (q <= 0)%Q /\ (r <= 0)%Q.
Proof.
  intros Hp Hq Hr Hs. repeat split.
  - apply Qle_trans with (p + q + r)%Q; [|exact Hs].
    rewrite <- (Qplus_0_r p) at 1. rewrite <- Qplus_assoc.
    apply Qplus_le_compat; [apply Qle_refl|].
    replace 0%Q with (0 + 0)%Q by reflexivity.
    apply Qplus_le_compat; assumption.
  - apply Qle_trans with (p + q + r)%Q; [|exact Hs].
    rewrite <- (Qplus_0_l q) at 1. rewrite <- (Qplus_0_r (0 + q)).
    apply Qplus_le_compat; [|exact Hr].
    apply Qplus_le_compat; [exact Hp | apply Qle_refl].
  - apply Qle_trans with (p + q + r)%Q; [|exact Hs].
    rewrite <- (Qplus_0_l r) at 1.
    apply Qplus_le_compat; [|apply Qle_refl].
    replace 0%Q with (0 + 0)%Q by reflexivity.
    apply Qplus_le_compat; assumption.
Qed.


Import SE.

Example doc_pivot_full :
  pivot (fun _ => None) doc_file None false false = Ok [3; 4; 6; 5; 2]%Z /\
  pivot (fun _ => None) doc_file None false true = Ok [2; 3; 4; 5; 6]%Z.
Proof. split; reflexivity. Qed.

Example doc_pivot_device :
  pivot (fun _ => None) doc_file None true false = Ok [1; 2; 4; 3; 0]%Z.
Proof. reflexivity. Qed.

Example doc_pivot_electrode :
  pivot (fun _ => None) doc_file (Some (ElecInt 0)) false false = Ok [3; 2]%Z /\
  pivot (fun _ => None) doc_file (Some (ElecInt 0)) false true = Ok [2; 3]%Z /\
  pivot (fun _ => None) doc_file (Some (ElecStr "Left")) true false = Ok [0; 4]%Z /\
  pivot (fun _ => None) doc_file (Some (ElecStr "Left")) true true = Ok [0; 1]%Z.
Proof. repeat split; reflexivity. Qed.

(** C9: without an electrode, the device-translated pivot table does
    not depend on the [sort] flag (the sorted range assigned first is
    replaced before it is used), on every file; with an electrode the
    flag changes the indices returned, both translated to the device
    region and not. *)
Theorem pivot_sort_flag_is_asymmetric (int_of_str : string -> option Z) :
  (forall f, pivot int_of_str f None true true
             = pivot int_of_str f None true false) /\
  (exists f el, pivot int_of_str f (Some el) true true
                <> pivot int_of_str f (Some el) true false) /\
  (exists f el, pivot int_of_str f (Some el) false true
                <> pivot int_of_str f (Some el) false false).
Proof.
  split; [|split].
  - intros f. reflexivity.
  - exists doc_file, (ElecInt 0). vm_compute. discriminate.
  - exists doc_file, (ElecInt 0). vm_compute. discriminate.
Qed.

(** C10, as the code has it: with no name [ik] bound in the module,
    [self_energy_average] never returns a value; the call raises
    [NameError] whenever the energy lookup succeeds and the electrode
    and its two mean self-energy variables are in the file. *)
Theorem self_energy_average_never_returns
        (int_of_str : string -> option Z) (float_of_str : string -> option Q)
        (Ry2eV : Q) (argsort : list Z -> list nat)
        (f : file) (elec : elec_arg) (E : Cdf.energy_arg) (sort : bool) :
  (exists x,
      self_energy_average int_of_str float_of_str Ry2eV argsort None
                          f elec E sort = Raise x) /\
  (forall iE g re im,
      Cdf.Eindex Ry2eV float_of_str (cdf f) E = Ok iE ->
      group_of f (_elec int_of_str f elec) = Ok g ->
      g_ReSelfEnergyMean g = Some re ->
      g_ImSelfEnergyMean g = Some im ->
      self_energy_average int_of_str float_of_str Ry2eV argsort None
                          f elec E sort = Raise NameError).
Proof.
  unfold self_energy_average. split.
  - destruct (Cdf.Eindex Ry2eV float_of_str (cdf f) E) as [iE|x]; cbn [bind];
      [|eauto].
    destruct (group_of f (_elec int_of_str f elec)) as [g|x]; cbn [bind];
      [|eauto].
    destruct (g_ReSelfEnergyMean g) as [re|]; cbn [of_option bind]; [|eauto].
    destruct (g_ImSelfEnergyMean g) as [im|]; cbn [of_option bind]; eauto.
  - intros iE g re im HE Hg Hre Him.
    rewrite HE; cbn [bind]. rewrite Hg; cbn [bind].
    rewrite Hre, Him. reflexivity.
Qed.

Lemma self_energy_average_never_returns_witness :
  (exists x,
      self_energy_average (fun _ => None) (fun _ => None) (1360580 # 100000)
                          argsort_stable None
                          doc_file (ElecStr "Left") (Cdf.EFloat 0) false
      = Raise x) /\
  (forall iE g re im,
      Cdf.Eindex (1360580 # 100000) (fun _ => None) (cdf doc_file) (Cdf.EFloat 0)
      = Ok iE ->
      group_of doc_file (_elec (fun _ => None) doc_file (ElecStr "Left")) = Ok g ->
      g_ReSelfEnergyMean g = Some re ->
      g_ImSelfEnergyMean g = Some im ->
      self_energy_average (fun _ => None) (fun _ => None) (1360580 # 100000)
                          argsort_stable None
                          doc_file (ElecStr "Left") (Cdf.EFloat 0) false
      = Raise NameError).
Proof.
  exact (@self_energy_average_never_returns (fun _ => None) (fun _ => None)
           (1360580 # 100000) argsort_stable doc_file (ElecStr "Left")
           (Cdf.EFloat 0) false).
Defined.

Example doc_self_energy_average :
  self_energy_average (fun _ => None) (fun _ => None) (1360580 # 100000)
                      argsort_stable None
                      doc_file (ElecStr "Left") (Cdf.EFloat 0) false
  = Raise NameError.
Proof. reflexivity. Qed.

(** C10 as stated fails: a call can fail before the name [ik] is looked
    up, and then not with [NameError].  For an electrode of the file
    whose name is the integer literal ["5"], [_elec] turns the name
    into the integer 5, finds no sixth electrode and returns the
    integer, and the variable lookup raises [KeyError]; and on a file
    with an empty energy grid, [Eindex] raises [ValueError] for the
    electrode ["Left"] of the file. *)
Lemma self_energy_average_can_fail_earlier :
  In "5"%string (elecs numbered_file) /\
  self_energy_average (fun s => if String.eqb s "5" then Some 5%Z else None)
                      (fun _ => None) (1360580 # 100000)
                      argsort_stable None
                      numbered_file (ElecStr "5") (Cdf.EFloat 0) false
  = Raise KeyError /\
  In "Left"%string (elecs no_energy_se_file) /\
  self_energy_average (fun _ => None) (fun _ => None) (1360580 # 100000)
                      argsort_stable None
                      no_energy_se_file (ElecStr "Left") (Cdf.EFloat 0) false
  = Raise ValueError.
Proof.
  split; [left; reflexivity|]. split; [reflexivity|].
  split; [left; reflexivity | reflexivity].
Qed.

Example empty_grid_self_energy_average :
  self_energy_average (fun _ => None) (fun _ => None) (1360580 # 100000)
                      argsort_stable None
                      no_energy_se_file (ElecStr "Left") (Cdf.EFloat 0) false
  = Raise ValueError.
Proof. reflexivity. Qed.

(* ===================================================================== *)
(** * The Siesta NetCDF round trip of a Hamiltonian *)
(* ===================================================================== *)


(* ===================================================================== *)
(** * Further properties of the pivot tables *)
(* ===================================================================== *)

Lemma insert_sorted_perm (x : Z) (l : list Z) :
  Permutation (x :: l) (insert_sorted x l).
Proof.
  induction l as [|y r IH]; simpl; [apply Permutation_refl|].
  destruct (x <=? y)%Z; [apply Permutation_refl|].
  eapply Permutation_trans; [apply perm_swap|].
  apply perm_skip. exact IH.
Qed.

Lemma insert_sorted_sorted (x : Z) (l : list Z) :
  Sorted Z.le l -> Sorted Z.le (insert_sorted x l).
Proof.
  induction l as [|y r IH]; simpl; intros Hs.
  - repeat constructor.
  - destruct (Z.leb_spec x y) as [Hxy | Hxy].
    + constructor; [exact Hs | constructor; exact Hxy].
    + inversion Hs as [|? ? Hr Hhd]; subst.
      constructor; [apply IH; exact Hr|].
      destruct r as [|z r']; simpl.
      * constructor. lia.
      * destruct (Z.leb_spec x z); constructor; try lia.
        inversion Hhd; subst. assumption.
Qed.

Lemma np_sort_perm (l : list Z) : Permutation l (np_sort l).
Proof.
  induction l as [|x l IH]; simpl; [constructor|].
  eapply Permutation_trans; [apply perm_skip; exact IH|].
  apply insert_sorted_perm.
Qed.

Lemma np_sort_sorted (l : list Z) : Sorted Z.le (np_sort l).
Proof.
  induction l as [|x l IH]; simpl; [constructor|].
  apply insert_sorted_sorted. exact IH.
Qed.

(** X12: With [in_device=False], [sort=True] returns the indices that
    [sort=False] returns, in non-decreasing order: the same orbitals,
    each as often, for the whole device and for an electrode. *)
Theorem sorted_pivot_holds_the_same_orbitals
        (int_of_str : string -> option Z) (f : file)
        (elec : option elec_arg) (p : list Z) :
  pivot int_of_str f elec false false = Ok p ->
  exists p',
    pivot int_of_str f elec false true = Ok p' /\
    Sorted Z.le p' /\ Permutation p p'.
Proof.
  destruct elec as [el|]; simpl.
  - destruct (group_of f (_elec int_of_str f el)) as [g|]; simpl; [|discriminate].
    intros H. inversion H; subst; clear H.
    eexists. split; [reflexivity|].
    split; [apply np_sort_sorted | apply np_sort_perm].
  - intros H. inversion H; subst; clear H.
    eexists. split; [reflexivity|].
    split; [apply np_sort_sorted | apply np_sort_perm].
Qed.

Lemma sorted_pivot_holds_the_same_orbitals_witness :
  exists p',
    pivot (fun _ => None) doc_file (Some (ElecStr "Left")) false true = Ok p' /\
    Sorted Z.le p' /\ Permutation [3; 2]%Z p'.
Proof.
  apply (@sorted_pivot_holds_the_same_orbitals (fun _ => None) doc_file
           (Some (ElecStr "Left")) [3; 2]%Z).
  reflexivity.
Defined.

Lemma existsb_eqb_In (x : Z) (b : list Z) :
  existsb (Z.eqb x) b = true <-> In x b.
Proof.
  rewrite existsb_exists. split.
  - intros (y & Hy & E). apply Z.eqb_eq in E. subst. exact Hy.
  - intros H. exists x. split; [exact H | apply Z.eqb_refl].
Qed.

Lemma positions_in_from_lower (a b : list Z) :
  forall i0 i, In i (positions_in_from i0 a b) -> (i0 <= i)%Z.
Proof.
  induction a as [|x r IH]; intros i0 i; simpl; [intros []|].
  destruct (existsb (Z.eqb x) b).
  - intros [<- | Hin]; [lia|]. apply IH in Hin. lia.
  - intros Hin. apply IH in Hin. lia.
Qed.

Lemma positions_in_from_increasing (a b : list Z) :
  forall i0, StronglySorted Z.lt (positions_in_from i0 a b).
Proof.
  induction a as [|x r IH]; intros i0; simpl; [constructor|].
  destruct (existsb (Z.eqb x) b); [|apply IH].
  constructor; [apply IH|].
  apply Forall_forall. intros i Hi.
  apply positions_in_from_lower in Hi. lia.
Qed.

Lemma positions_in_from_spec (a b : list Z) :
  forall i0 i,
    In i (positions_in_from i0 a b) <->
    (i0 <= i < i0 + Z.of_nat (length a))%Z /\
    In (nth (Z.to_nat (i - i0)) a 0%Z) b.
Proof.
  induction a as [|x r IH]; intros i0 i.
  - simpl. split; [intros [] | intros [H _]; lia].
  - cbn [positions_in_from length].
    assert (Hshift : forall j, (i0 + 1 <= j)%Z ->
                       nth (Z.to_nat (j - i0)) (x :: r) 0%Z
                       = nth (Z.to_nat (j - (i0 + 1))) r 0%Z).
    { intros j Hj.
      replace (Z.to_nat (j - i0)) with (S (Z.to_nat (j - (i0 + 1)))) by lia.
      reflexivity. }
    destruct (existsb (Z.eqb x) b) eqn:E.
    + split.
      * intros [<- | Hin].
        -- split; [lia|]. rewrite Z.sub_diag. simpl.
           apply existsb_eqb_In. exact E.
        -- apply IH in Hin. destruct Hin as [Hr Hb].
           split; [lia|]. rewrite Hshift by lia. exact Hb.
      * intros [Hr Hb].
        destruct (Z.eq_dec i i0) as [-> | Hne]; [left; reflexivity|].
        right. apply IH. split; [lia|].
        rewrite <- Hshift by lia. exact Hb.
    + split.
      * intros Hin. apply IH in Hin. destruct Hin as [Hr Hb].
        split; [lia|]. rewrite Hshift by lia. exact Hb.
      * intros [Hr Hb].
        destruct (Z.eq_dec i i0) as [-> | Hne].
        -- rewrite Z.sub_diag in Hb. simpl in Hb.
           apply existsb_eqb_In in Hb. congruence.
        -- apply IH. split; [lia|]. rewrite <- Hshift by lia. exact Hb.
Qed.

(** X13: With [in_device=True] the indices returned for an electrode of the
    file are the positions of the device pivot table (sorted first when
    [sort] is set) whose orbital is one of the electrode's, each once
    and in increasing order, whatever the order of the electrode's own
    table; both tables hold every orbital once. *)
Theorem device_positions_of_an_electrode
        (int_of_str : string -> option Z) (f : file) (el : elec_arg)
        (sort : bool) (g : elec_group) :
  group_of f (_elec int_of_str f el) = Ok g ->
  NoDup (var_pivot f) -> NoDup (g_pivot g) ->
  let dev := if sort then np_sort (map (fun x => (x - 1)%Z) (var_pivot f))
             else map (fun x => (x - 1)%Z) (var_pivot f) in
  exists ps,
    pivot int_of_str f (Some el) true sort = Ok ps /\
    StronglySorted Z.lt ps /\
    forall i, In i ps <->
              (0 <= i < Z.of_nat (length dev))%Z /\
              In (nth (Z.to_nat i) dev 0%Z)
                 (map (fun x => (x - 1)%Z) (g_pivot g)).
Proof.
  intros Hg _ _ dev. unfold pivot. rewrite Hg. cbn [bind].
  eexists. split; [reflexivity|].
  split; [apply positions_in_from_increasing|].
  intros i. unfold in1d_nonzero. rewrite positions_in_from_spec.
  rewrite Z.sub_0_r, Z.add_0_l. unfold dev.
  destruct sort; [|reflexivity].
  split; intros [Hr Hb]; (split; [exact Hr|]).
  - eapply Permutation_in; [apply Permutation_sym, np_sort_perm | exact Hb].
  - eapply Permutation_in; [apply np_sort_perm | exact Hb].
Qed.

Lemma device_positions_of_an_electrode_witness :
  exists ps,
    pivot (fun _ => None) doc_file (Some (ElecInt 0)) true false = Ok ps /\
    StronglySorted Z.lt ps /\
    forall i, In i ps <->
              (0 <= i < 5)%Z /\
              In (nth (Z.to_nat i) [3; 4; 6; 5; 2]%Z 0%Z) [3; 2]%Z.
Proof.
  refine (@device_positions_of_an_electrode (fun _ => None) doc_file
            (ElecInt 0) false (mkGroup [4; 3]%Z
                                 (Some [[[[1; 0]; [0; 1]]]]%Q)
                                 (Some [[[[0; 0]; [0; 0]]]]%Q))
            eq_refl _ _).
  - repeat constructor; simpl; intuition lia.
  - repeat constructor; simpl; intuition lia.
Defined.

Lemma item_out_of_range (A : Type) (a : list A) (i : Z) :
  ~ valid_index (length a) i -> item a i = Raise IndexError.
Proof.
  intros Hi. unfold item.
  destruct (norm_index (length a) i) as [k|ex] eqn:E.
  - exfalso. apply Hi. eapply norm_index_ok_valid. exact E.
  - unfold norm_index in E.
    repeat match type of E with
           | (if ?c then _ else _) = _ => destruct c; try discriminate
           end.
    inversion E. reflexivity.
Qed.



Lemma index_rows_spec (idx : list nat) (d : Q * Q) (rows : list (list (Q * Q))) :
  Forall (fun r => Forall (fun k => (k < length r)%nat) idx) rows ->
  (fix each (rs : list (list (Q * Q))) : result cmatrix :=
     match rs with
     | [] => Ok []
     | r :: rest =>
         r' <- take r (map Z.of_nat idx) ;;
         rest' <- each rest ;;
         Ok (r' :: rest')
     end) rows
  = Ok (map (fun r => map (fun b => nth b r d) idx) rows).
Proof.
  induction 1 as [|r rest Hr _ IH]; [reflexivity|].
  rewrite (take_of_nat r d Hr). cbn [bind]. rewrite IH. reflexivity.
Qed.

Lemma index_square_spec (m : cmatrix) (idx : list nat) (d : Q * Q) :
  Forall (fun k => (k < length m)%nat) idx ->
  Forall (fun r => Forall (fun k => (k < length r)%nat) idx) m ->
  index_square m (map Z.of_nat idx)
  = Ok (map (fun a => map (fun b => nth b (nth a m []) d) idx) idx).
Proof.
  intros Hm Hrows. unfold index_square.
  rewrite (take_of_nat m [] Hm). cbn [bind].
  rewrite (@index_rows_spec idx d).
  - rewrite map_map. reflexivity.
  - apply Forall_forall. intros r Hr. apply in_map_iff in Hr.
    destruct Hr as (a & <- & Ha).
    rewrite Forall_forall in Hrows. apply Hrows. apply nth_In.
    rewrite Forall_forall in Hm. apply Hm. exact Ha.
Qed.

Lemma np_sort_by_argsort argsort (l : list Z) :
  argsort_contract argsort ->
  np_sort l = map (fun a => nth a l 0%Z) (argsort l).
Proof.
  intros Hc. destruct (Hc l) as [Hp Hs].
  apply (@sorted_permutation_eq Z.le); try (intros; lia).
  - apply np_sort_sorted.
  - exact Hs.
  - eapply Permutation_trans; [apply Permutation_sym, np_sort_perm|].
    apply permutation_map_nth. exact Hp.
Qed.

(** X15: The sorted self-energy and the sorted pivot table of an electrode
    go together: with [idx = argsort(pivot(elec))], row [a] and column
    [b] of [self_energy(..., sort=True)] are row [idx[a]] and column
    [idx[b]] of the unsorted self-energy, and entry [a] of
    [pivot(elec, sort=True)] is entry [idx[a]] of [pivot(elec)]. *)
Theorem sorted_self_energy_follows_sorted_pivot
        (int_of_str : string -> option Z) (float_of_str : string -> option Q)
        (Ry2eV : Q) (argsort : list Z -> list nat)
        (kvars : string -> option (ndarray4 * ndarray4))
        (f : file) (elec : elec_arg) (E : Cdf.energy_arg) (k : Q * Q * Q)
        (SE : cmatrix) (pvt : list Z) :
  argsort_contract argsort ->
  self_energy int_of_str float_of_str Ry2eV argsort kvars f elec E k false
  = Ok SE ->
  pivot int_of_str f (Some elec) false false = Ok pvt ->
  length SE = length pvt ->
  Forall (fun r => length r = length pvt) SE ->
  let idx := argsort pvt in
  self_energy int_of_str float_of_str Ry2eV argsort kvars f elec E k true
  = Ok (map (fun a => map (fun b => nth b (nth a SE []) (0, 0)%Q) idx) idx) /\
  pivot int_of_str f (Some elec) false true
  = Ok (map (fun a => nth a pvt 0%Z) idx).
Proof.
  intros Hc Hse Hp Hlen Hrows idx.
  pose proof (contract_in_range pvt Hc) as Hidx. fold idx in Hidx.
  split.
  - unfold self_energy in *.
    destruct (Cdf.kindex (cdf f) k) as [ik|]; cbn [bind] in *; [|discriminate].
    destruct (Cdf.Eindex Ry2eV float_of_str (cdf f) E) as [iE|];
      cbn [bind] in *; [|discriminate].
    destruct (group_of f (_elec int_of_str f elec)) as [g|];
      cbn [bind] in *; [|discriminate].
    destruct (match _elec int_of_str f elec with
              | ElecInt _ => Raise KeyError
              | ElecStr name => of_option KeyError (kvars name)
              end) as [vars|]; cbn [bind] in *; [|discriminate].
    destruct (se_matrix Ry2eV (fst vars) (snd vars) (Z.of_nat (fst ik)) (fst iE))
      as [m|]; cbn [bind] in *; [|discriminate].
    inversion Hse; subst m; clear Hse.
    rewrite Hp. cbn [bind]. fold idx.
    apply index_square_spec.
    + rewrite Hlen. exact Hidx.
    + apply Forall_forall. intros r Hr.
      rewrite Forall_forall in Hrows. rewrite (Hrows r Hr). exact Hidx.
  - unfold pivot in *.
    destruct (group_of f (_elec int_of_str f elec)) as [g|];
      cbn [bind] in *; [|discriminate].
    inversion Hp; subst pvt. f_equal.
    apply np_sort_by_argsort. exact Hc.
Qed.

Lemma sorted_self_energy_follows_sorted_pivot_witness :
  self_energy (fun _ => None) (fun _ => None) 1%Q argsort_stable
              (fun _ => Some ([[[[1; 2]; [3; 4]]]]%Q, [[[[0; 0]; [0; 0]]]]%Q))
              doc_file (ElecStr "Left") (Cdf.EInt 0) (0, 0, 0)%Q true
  = Ok [[(4, 0); (3, 0)]; [(2, 0); (1, 0)]]%Q /\
  pivot (fun _ => None) doc_file (Some (ElecStr "Left")) false true
  = Ok [2; 3]%Z.
Proof.
  refine (@sorted_self_energy_follows_sorted_pivot
            (fun _ => None) (fun _ => None) 1%Q argsort_stable
            (fun _ => Some ([[[[1; 2]; [3; 4]]]]%Q, [[[[0; 0]; [0; 0]]]]%Q))
            doc_file (ElecStr "Left") (Cdf.EInt 0) (0, 0, 0)%Q
            [[(1, 0); (2, 0)]; [(3, 0); (4, 0)]]%Q [3; 2]%Z
            argsort_stable_contract eq_refl eq_refl eq_refl _).
  repeat constructor.
Defined.

Lemma nth_of_nth_error (A : Type) (l l' : list A) (j : nat) (d : A) :
  nth_error l j = nth_error l' j -> nth j l d = nth j l' d.
Proof.
  intros E. destruct (nth_error l' j) as [x|] eqn:E'.
  - rewrite (nth_error_nth l j d E), (nth_error_nth l' j d E'). reflexivity.
  - apply nth_error_None in E, E'. rewrite !nth_overflow by assumption.
    reflexivity.
Qed.

Lemma assign_at_spec (x d : Z) (idx : list Z) :
  forall a,
    Forall (fun i => (0 <= i < Z.of_nat (length a))%Z) idx ->
    assign_at a idx x
    = Ok (map (fun j => if existsb (Z.eqb (Z.of_nat j)) idx then x
                        else nth j a d)
              (seq 0 (length a))).
Proof.
  induction idx as [|i rest IH]; intros a Hall.
  - cbn [assign_at existsb]. f_equal. symmetry. apply map_nth_seq.
  - inversion Hall as [|? ? Hi Hrest]; subst.
    cbn [assign_at].
    assert (Hn : norm_index (length a) i = Ok (Z.to_nat i)).
    { unfold norm_index.
      destruct (Z.leb_spec 0 i); [|lia].
      destruct (Z.ltb_spec i (Z.of_nat (length a))); [|lia]. reflexivity. }
    rewrite Hn. cbn [bind].
    rewrite IH by (rewrite length_set_nth; exact Hrest).
    rewrite length_set_nth. f_equal.
    apply map_ext_in. intros j Hj. apply in_seq in Hj.
    cbn [existsb].
    destruct (existsb (Z.eqb (Z.of_nat j)) rest);
      [rewrite orb_true_r; reflexivity|].
    rewrite orb_false_r.
    destruct (Z.eqb_spec (Z.of_nat j) i) as [E | E].
    + subst i. rewrite Nat2Z.id.
      apply nth_error_nth. apply nth_error_set_nth_eq. lia.
    + apply nth_of_nth_error. apply nth_error_set_nth_ne. lia.
Qed.

Lemma length_cumsum_from (l : list Z) :
  forall acc, length (cumsum_from acc l) = length l.
Proof. induction l; intros acc; simpl; [|rewrite IHl]; reflexivity. Qed.

Lemma nth_cumsum_from (l : list Z) :
  forall acc p, (p < length l)%nat ->
    nth p (cumsum_from acc l) 0%Z
    = (acc + fold_right Z.add 0 (firstn (S p) l))%Z.
Proof.
  induction l as [|x r IH]; intros acc p Hp; simpl in Hp; [lia|].
  destruct p as [|p].
  - simpl. destruct r; simpl; lia.
  - cbn [cumsum_from nth]. rewrite IH by lia.
    change (firstn (S (S p)) (x :: r)) with (x :: firstn (S p) r).
    cbn [fold_right]. lia.
Qed.

Lemma sum_of_indicator (g : nat -> bool) (m : nat) :
  forall s,
    fold_right Z.add 0%Z (map (fun j => if g j then 0 else 1)%Z (seq s m))
    = (Z.of_nat m - Z.of_nat (length (filter g (seq s m))))%Z.
Proof.
  induction m as [|m IH]; intros s; [reflexivity|].
  cbn [seq map fold_right filter]. rewrite IH.
  destruct (g s); cbn [length]; lia.
Qed.

Lemma firstn_seq_le (m : nat) :
  forall s n, (m <= n)%nat -> firstn m (seq s n) = seq s m.
Proof.
  induction m as [|m IH]; intros s n Hmn; [reflexivity|].
  destruct n as [|n]; [lia|]. cbn [seq firstn]. rewrite IH by lia.
  reflexivity.
Qed.

Lemma NoDup_map_of_nat (l : list nat) : NoDup l -> NoDup (map Z.of_nat l).
Proof.
  induction 1 as [|x l Hx _ IH]; simpl; constructor; [|exact IH].
  intros Hin. apply in_map_iff in Hin. destruct Hin as (y & E & Hy).
  apply Nat2Z.inj in E. subst. contradiction.
Qed.

Lemma count_below (pvt : list Z) (p : Z) :
  NoDup pvt -> Forall (fun q => 0 <= q)%Z pvt -> (0 <= p)%Z ->
  length (filter (fun j => existsb (Z.eqb (Z.of_nat j)) pvt)
                 (seq 0 (Z.to_nat p)))
  = length (filter (fun q => q <? p)%Z pvt).
Proof.
  intros Hnd Hpos Hp.
  rewrite <- (length_map Z.of_nat). apply Permutation_length.
  apply NoDup_Permutation.
  - apply NoDup_map_of_nat. apply NoDup_filter. apply seq_NoDup.
  - apply NoDup_filter. exact Hnd.
  - intros x. rewrite in_map_iff, filter_In. split.
    + intros (j & <- & Hj). apply filter_In in Hj. destruct Hj as [Hr Hm].
      apply in_seq in Hr. apply existsb_eqb_In in Hm.
      split; [exact Hm|]. apply Z.ltb_lt. lia.
    + intros [Hin Hlt]. apply Z.ltb_lt in Hlt.
      rewrite Forall_forall in Hpos. specialize (Hpos x Hin).
      exists (Z.to_nat x). split; [lia|].
      apply filter_In. split; [apply in_seq; lia|].
      apply existsb_eqb_In. rewrite Z2Nat.id by lia. exact Hin.
Qed.

(** X16: Without an electrode and with [in_device=True], [pivot] maps every
    device orbital to the number of device orbitals below it, that is to
    its position among the device orbitals in increasing order; this
    holds for a pivot table that names orbitals of the cell, each
    once. *)
Theorem device_pivot_is_the_rank
        (int_of_str : string -> option Z) (f : file) (sort : bool) :
  let pvt := map (fun x => (x - 1)%Z) (var_pivot f) in
  Forall (fun p => (0 <= p < Z.of_nat (no f))%Z) pvt ->
  NoDup pvt ->
  pivot int_of_str f None true sort
  = Ok (map (fun p => Z.of_nat (length (filter (fun q => q <? p)%Z pvt))) pvt).
Proof.
  intros pvt Hrange Hnd. unfold pivot. cbn [andb]. fold pvt.
  assert (Hra : Forall (fun i => (0 <= i < Z.of_nat (length (repeat 1%Z (no f))))%Z)
                       pvt)
    by (rewrite repeat_length; exact Hrange).
  rewrite (@assign_at_spec 0%Z 0%Z pvt _ Hra). cbn [bind].
  rewrite repeat_length.
  set (g := fun j : nat => existsb (Z.eqb (Z.of_nat j)) pvt).
  assert (Esub : map (fun j => if existsb (Z.eqb (Z.of_nat j)) pvt then 0%Z
                               else nth j (repeat 1%Z (no f)) 0%Z)
                     (seq 0 (no f))
                 = map (fun j => if g j then 0 else 1)%Z (seq 0 (no f))).
  { apply map_ext_in. intros j Hj. apply in_seq in Hj. unfold g.
    destruct (existsb (Z.eqb (Z.of_nat j)) pvt); [reflexivity|].
    apply nth_repeat_lt. lia. }
  rewrite Esub.
  set (subn := map (fun j => if g j then 0 else 1)%Z (seq 0 (no f))).
  assert (Hls : length (cumsum subn) = no f).
  { unfold cumsum. rewrite length_cumsum_from. unfold subn.
    rewrite length_map, length_seq. reflexivity. }
  assert (Hv : Forall (valid_index (length (cumsum subn))) pvt).
  { rewrite Hls. eapply Forall_impl; [|exact Hrange].
    intros p Hp. cbv beta in Hp. unfold valid_index. lia. }
  rewrite (take_valid (cumsum subn) 0%Z Hv). cbn [bind].
  unfold sub_arrays.
  rewrite <- (map_id pvt) at 1. rewrite combine_map_same, map_map.
  f_equal. apply map_ext_in. intros p Hp. cbn [fst snd].
  rewrite Forall_forall in Hrange. specialize (Hrange p Hp).
  rewrite Hls. unfold wrap.
  destruct (Z.ltb_spec p 0) as [Hneg | _]; [lia|].
  unfold cumsum. rewrite nth_cumsum_from
    by (unfold subn; rewrite length_map, length_seq; lia).
  unfold subn. rewrite firstn_map, firstn_seq_le by lia.
  rewrite sum_of_indicator.
  rewrite seq_S, filter_app, length_app. cbn [filter Nat.add].
  assert (Hg : g (Z.to_nat p) = true).
  { unfold g. apply existsb_eqb_In. rewrite Z2Nat.id by lia. exact Hp. }
  rewrite Hg. cbn [length].
  rewrite <- (@count_below pvt p Hnd).
  - fold g. lia.
  - apply Forall_forall. intros q Hq.
    rewrite Forall_forall in Hra. specialize (Hra q Hq). lia.
  - lia.
Qed.

Lemma device_pivot_is_the_rank_witness :
  pivot (fun _ => None) doc_file None true false = Ok [1; 2; 4; 3; 0]%Z.
Proof.
  refine (@device_pivot_is_the_rank (fun _ => None) doc_file false _ _).
  - repeat constructor; simpl; lia.
  - repeat constructor; simpl; intuition lia.
Defined.
Import Siesta.

Lemma int32_in_range (z : Z) : in_int32 z -> int32 z = z.
Proof.
  unfold int32, in_int32. intros Hz.
  rewrite Z.mod_small by lia. lia.
Qed.

(** Stored 1-based and restored 0-based, also when [c + 1] wraps. *)
Lemma int32_col_round_trip (c : Z) :
  in_int32 c -> int32 (int32 (int32 (c + 1)) - 1) = c.
Proof.
  unfold int32, in_int32. intros Hc.
  destruct (Z.eq_dec c 2147483647) as [-> | Hne].
  - reflexivity.
  - rewrite (Z.mod_small (c + 1 + 2147483648)) by lia.
    replace (c + 1 + 2147483648 - 2147483648 + 2147483648)%Z
      with (c + 1 + 2147483648)%Z by lia.
    rewrite (Z.mod_small (c + 1 + 2147483648)) by lia.
    replace (c + 1 + 2147483648 - 2147483648 - 1 + 2147483648)%Z
      with (c + 2147483648)%Z by lia.
    rewrite Z.mod_small by lia. lia.
Qed.

Lemma map_id_on (A : Type) (f : A -> A) (P : A -> Prop) (l : list A) :
  (forall x, P x -> f x = x) -> Forall P l -> map f l = l.
Proof.
  intros Hf. induction 1 as [|x l Hx _ IH]; simpl; [reflexivity|].
  rewrite Hf by assumption. rewrite IH. reflexivity.
Qed.

Lemma length_column (D : list (list float)) (i : nat) :
  length (column D i) = length D.
Proof. apply length_map. Qed.

Lemma sum_bounds_entry (l : list Z) (x : Z) :
  Forall (fun y => 0 <= y)%Z l -> In x l ->
  (0 <= x <= fold_right Z.add 0 l)%Z.
Proof.
  induction 1 as [|y l Hy Hall IH]; intros Hin; [destruct Hin|].
  assert (Hs : (0 <= fold_right Z.add 0 l)%Z).
  { clear - Hall. induction Hall; simpl; lia. }
  destruct Hin as [<- | Hin]; simpl; [lia|].
  specialize (IH Hin). lia.
Qed.

Lemma last_cumsum32 (l : list Z) :
  forall acc,
    Forall (fun y => 0 <= y)%Z l -> (0 <= acc)%Z ->
    (acc + fold_right Z.add 0 l < 2147483648)%Z ->
    last (acc :: cumsum32_from acc l) 0%Z = (acc + fold_right Z.add 0 l)%Z.
Proof.
  induction l as [|x r IH]; intros acc Hall Hacc Hb; simpl in *.
  - lia.
  - inversion Hall as [|? ? Hx Hr]; subst.
    assert (Hs : (0 <= fold_right Z.add 0 r)%Z).
    { clear - Hr. induction Hr; simpl; lia. }
    assert (E : int32 (acc + x) = (acc + x)%Z)
      by (apply int32_in_range; unfold in_int32; lia).
    rewrite E.
    specialize (IH (acc + x)%Z Hr). simpl in IH. rewrite IH by lia. lia.
Qed.

(** The row counts of a consistent pattern fit in 32 bits. *)
Lemma ncol_stored_as_it_is (M : hamiltonian) :
  Forall (fun x => 0 <= x)%Z (ncol M) ->
  fold_right Z.add 0%Z (ncol M) = Z.of_nat (nnz M) ->
  (Z.of_nat (nnz M) < 2147483648)%Z ->
  map int32 (ncol M) = ncol M.
Proof.
  intros Hpos Hsum Hb. apply map_id_on with (P := in_int32).
  - intros x Hx. apply int32_in_range; exact Hx.
  - apply Forall_forall. intros x Hx.
    pose proof (@sum_bounds_entry (ncol M) x Hpos Hx). unfold in_int32. lia.
Qed.

Lemma nth_set_nth_same (i : nat) (x : float) (row : list float) :
  (i < length row)%nat -> nth i (set_nth i x row) zero = x.
Proof.
  intros Hi. apply nth_error_nth. apply nth_error_set_nth_eq. exact Hi.
Qed.

Lemma nth_set_nth_other (i j : nat) (x : float) (row : list float) :
  i <> j -> nth j (set_nth i x row) zero = nth j row zero.
Proof.
  intros Hij. destruct (nth_error (set_nth i x row) j) as [y|] eqn:E.
  - rewrite (nth_error_nth _ _ zero E).
    rewrite nth_error_set_nth_ne in E by exact Hij.
    rewrite (nth_error_nth _ _ zero E). reflexivity.
  - pose proof E as E'. rewrite nth_error_set_nth_ne in E' by exact Hij.
    apply nth_error_None in E. apply nth_error_None in E'.
    rewrite !nth_overflow by assumption. reflexivity.
Qed.

Lemma map_snd_combine (A B : Type) (a : list A) (b : list B) :
  length a = length b -> map snd (combine a b) = b.
Proof.
  revert b. induction a as [|x a IH]; intros [|y b] Hl; simpl in *;
    try discriminate; [reflexivity|].
  rewrite IH by lia. reflexivity.
Qed.

Lemma map_fst_combine (A B : Type) (a : list A) (b : list B) :
  length a = length b -> map fst (combine a b) = a.
Proof.
  revert b. induction a as [|x a IH]; intros [|y b] Hl; simpl in *;
    try discriminate; [reflexivity|].
  rewrite IH by lia. reflexivity.
Qed.

Lemma combine_map_l (A B C : Type) (g : A -> C) (a : list A) (b : list B) :
  combine (map g a) b = map (fun xs => (g (fst xs), snd xs)) (combine a b).
Proof.
  revert b. induction a as [|x a IH]; intros [|y b]; simpl; try reflexivity.
  rewrite IH. reflexivity.
Qed.

Lemma assign_column_spec (D : list (list float)) (w i : nat) (vals : list float) :
  Forall (fun r => length r = w) D -> (i < w)%nat ->
  length vals = length D ->
  exists D',
    assign_column D i vals = Ok D' /\
    length D' = length D /\
    Forall (fun r => length r = w) D' /\
    column D' i = vals /\
    forall j, j <> i -> column D' j = column D j.
Proof.
  intros Hrows Hi Hl. unfold assign_column. rewrite Hl, Nat.eqb_refl.
  eexists. split; [reflexivity|].
  split; [rewrite length_map, length_combine, Hl; apply Nat.min_id|].
  split.
  { apply Forall_forall. intros r Hr. apply in_map_iff in Hr.
    destruct Hr as ([r0 x] & <- & Hin). cbn [fst snd].
    rewrite length_set_nth. apply in_combine_l in Hin.
    rewrite Forall_forall in Hrows. apply Hrows. exact Hin. }
  split.
  - unfold column. rewrite map_map.
    rewrite <- (map_snd_combine D vals) at 2 by (symmetry; exact Hl).
    apply map_ext_in. intros [r0 x] Hin. cbn [fst snd].
    apply nth_set_nth_same. apply in_combine_l in Hin.
    rewrite Forall_forall in Hrows. rewrite (Hrows r0 Hin). exact Hi.
  - intros j Hj. unfold column. rewrite map_map.
    rewrite <- (map_fst_combine D vals) at 2 by (symmetry; exact Hl).
    rewrite map_map. apply map_ext. intros [r0 x]. cbn [fst snd].
    apply nth_set_nth_other. congruence.
Qed.

(** The loop of the readers assigns column [i] the converted row [i] of
    the variable and leaves the other columns. *)
Lemma read_components_spec (conv : nat -> list float -> result (list float))
      (data : list (list float)) (n w : nat) (out : nat -> list float)
      (ixs : list nat) :
  forall D,
    length D = n -> Forall (fun r => length r = w) D ->
    NoDup ixs ->
    Forall (fun i => (i < w)%nat /\
                     exists row, nth_error data i = Some row /\
                                 conv i row = Ok (out i) /\
                                 length (out i) = n) ixs ->
    exists D',
      read_components conv data ixs D = Ok D' /\
      length D' = n /\
      Forall (fun r => length r = w) D' /\
      (forall i, In i ixs -> column D' i = out i) /\
      (forall j, ~ In j ixs -> column D' j = column D j).
Proof.
  induction ixs as [|i rest IH]; intros D Hn Hrows Hnd Hall.
  - exists D. repeat split; try assumption. intros i [].
  - inversion Hnd as [|? ? Hnotin Hnd']; subst.
    inversion Hall as [|? ? [Hi (row & Hrow & Hconv & Hlen)] Hall']; subst.
    destruct (@assign_column_spec D w i (out i) Hrows Hi)
      as (D1 & Ha & Hn1 & Hrows1 & Hci & Hcj); [congruence|].
    destruct (IH D1 Hn1 Hrows1 Hnd' Hall')
      as (D' & Hrec & Hn' & Hrows' & Hin' & Hout').
    exists D'. split.
    { cbn [read_components]. rewrite Hrow. cbn [of_option bind].
      rewrite Hconv. cbn [bind]. rewrite Ha. cbn [bind]. exact Hrec. }
    split; [exact Hn'|]. split; [exact Hrows'|]. split.
    + intros k [<- | Hk]; [|apply Hin'; exact Hk].
      rewrite (Hout' i Hnotin), Hci. reflexivity.
    + intros j Hj. rewrite Hout' by (intros Hc; apply Hj; right; exact Hc).
      apply Hcj. intros ->. apply Hj. left. reflexivity.
Qed.

(** [_read_class_spin] on the pattern and the overlap that a writer
    stored for a matrix with a consistent pattern. *)
Lemma read_class_spin_back (M : hamiltonian) (S : list float) :
  Forall in_int32 (col M) ->
  Forall (fun x => 0 <= x)%Z (ncol M) ->
  fold_right Z.add 0%Z (ncol M) = Z.of_nat (nnz M) ->
  (Z.of_nat (nnz M) < 2147483648)%Z ->
  length S = nnz M ->
  exists D0,
    _read_class_spin (spin M) (map int32 (ncol M))
                     (map (fun c => int32 (c + 1)) (col M)) S
    = Ok (mkH (spin M) false KindFloat (ncol M)
              (0%Z :: cumsum32_from 0%Z (ncol M)) (col M) D0) /\
    length D0 = nnz M /\
    Forall (fun r => length r = Datatypes.S (spin M)) D0 /\
    column D0 (spin M) = S.
Proof.
  intros Hcol Hpos Hsum Hb HS.
  pose proof (ncol_stored_as_it_is M Hpos Hsum Hb) as Hncol.
  assert (Hcols : map (fun c => int32 (int32 c - 1))
                      (map (fun c => int32 (c + 1)) (col M)) = col M).
  { rewrite map_map. apply map_id_on with (P := in_int32); [|exact Hcol].
    intros x Hx. apply int32_col_round_trip; exact Hx. }
  assert (Hlast : last (0%Z :: cumsum32_from 0%Z (ncol M)) 0%Z
                  = Z.of_nat (nnz M)).
  { rewrite last_cumsum32 by (assumption || lia). rewrite Hsum. lia. }
  set (D0 := repeat (repeat zero (Datatypes.S (spin M))) (nnz M)).
  assert (HD0 : Forall (fun r => length r = Datatypes.S (spin M)) D0).
  { apply Forall_forall. intros r Hr. apply repeat_spec in Hr. subst.
    apply repeat_length. }
  assert (HlD0 : length D0 = nnz M) by apply repeat_length.
  destruct (@assign_column_spec D0 (Datatypes.S (spin M)) (spin M) S HD0)
    as (D1 & Ha & Hn1 & Hrows1 & Hcs & _); [lia | congruence |].
  rewrite HlD0 in Hn1.
  exists D1. split.
  { unfold _read_class_spin. rewrite !Hncol, Hcols, Hlast.
    destruct (Z.ltb_spec (Z.of_nat (nnz M)) 0) as [Hneg|_]; [lia|].
    rewrite Nat2Z.id. fold D0. rewrite Ha. reflexivity. }
  split; [exact Hn1|]. split; [exact Hrows1 | exact Hcs].
Qed.

(** Reading back the rows [g (D[:, i])] that a writer stored: every data
    column comes back as the reader's conversion of the stored row, and
    the overlap column stays. *)
Lemma read_back_components (conv : nat -> list float -> result (list float))
      (g : list float -> list float) (out : nat -> list float)
      (M : hamiltonian) (S : list float) (D0 : list (list float)) :
  length D0 = nnz M ->
  Forall (fun r => length r = Datatypes.S (spin M)) D0 ->
  column D0 (spin M) = S ->
  (forall i, (i < spin M)%nat ->
             conv i (g (column (_D M) i)) = Ok (out i) /\
             length (out i) = nnz M) ->
  exists D',
    read_components conv (map (fun i => g (column (_D M) i)) (seq 0 (spin M)))
                    (seq 0 (spin M)) D0 = Ok D' /\
    length D' = nnz M /\
    (forall i, (i < spin M)%nat -> column D' i = out i) /\
    column D' (spin M) = S.
Proof.
  intros HlD0 HwD0 HcS Hconv.
  destruct (@read_components_spec conv
              (map (fun i => g (column (_D M) i)) (seq 0 (spin M)))
              (nnz M) (Datatypes.S (spin M)) out (seq 0 (spin M)) D0 HlD0 HwD0)
    as (D' & Hrec & Hn' & _ & Hin' & Hout').
  { apply seq_NoDup. }
  { apply Forall_forall. intros i Hi. apply in_seq in Hi.
    split; [lia|].
    exists (g (column (_D M) i)). split.
    - apply (map_nth_error (fun i0 => g (column (_D M) i0))).
      rewrite (nth_error_nth' (seq 0 (spin M)) 0%nat)
        by (rewrite length_seq; lia).
      rewrite seq_nth by lia. reflexivity.
    - apply Hconv. lia. }
  exists D'. split; [exact Hrec|]. split; [exact Hn'|]. split.
  - intros i Hi. apply Hin'. apply in_seq. lia.
  - rewrite Hout'; [exact HcS|]. intros Hc. apply in_seq in Hc. lia.
Qed.

(** The write succeeds on a finalized floating-point Hamiltonian with
    elements, in an orthogonal basis provided every on-site term is in
    the pattern. *)
Lemma write_hamiltonian_ok (Ry2eV : float) (finalize : hamiltonian -> hamiltonian)
      (H : hamiltonian) (Ef : float) :
  finalize H = H ->
  dkind H = KindFloat ->
  nnz H <> 0%nat ->
  length (_D H) = nnz H ->
  (orthogonal H = true -> length (concat (orthogonal_pattern H)) = nnz H) ->
  exists S,
    length S = nnz H /\
    write_hamiltonian Ry2eV finalize H Ef
    = Ok (mkNC (spin H) [fdiv Ef Ry2eV]
               (map int32 (ncol H))
               (map (fun c => int32 (c + 1)) (col H))
               S
               (map (fun i => map (fun x => fdiv x Ry2eV) (column (_D H) i))
                    (seq 0 (spin H)))).
Proof.
  intros Hfin Hk Hnz HD Hon. unfold write_hamiltonian.
  destruct (Nat.eqb_spec (nnz H) 0) as [E|_]; [congruence|].
  rewrite Hfin, Hk.
  destruct (orthogonal H) eqn:Eo.
  - specialize (Hon eq_refl). rewrite Hon, Nat.eqb_refl. cbn [negb bind].
    exists (map snd (concat (orthogonal_pattern H))).
    split; [rewrite length_map; exact Hon | reflexivity].
  - cbn [bind]. exists (column (_D H) (S_idx H)).
    split; [rewrite length_column; exact HD | reflexivity].
Qed.

(** What [read_hamiltonian] makes of one stored spin component. *)
Lemma read_spin_component_back (c Ef : float) (S l : list float) (i : nat) :
  length S = length l ->
  read_spin_component c [to_Ry_and_back c Ef; to_Ry_and_back c Ef] S i
                      (map (fun x => fdiv x c) l)
  = Ok (map (fun xs => read_back c Ef i (fst xs) (snd xs)) (combine l S)) /\
  length (map (fun xs => read_back c Ef i (fst xs) (snd xs)) (combine l S))
  = length l.
Proof.
  intros HS. split.
  - unfold read_spin_component, read_back.
    destruct (i <? 2)%nat eqn:E2.
    + apply Nat.ltb_lt in E2.
      assert (Hef : nth_error [to_Ry_and_back c Ef; to_Ry_and_back c Ef] i
                    = Some (to_Ry_and_back c Ef)).
      { destruct i as [|[|i']]; [reflexivity | reflexivity | lia]. }
      rewrite Hef. cbn [of_option bind]. unfold shift_by.
      rewrite !length_map, HS, Nat.eqb_refl.
      rewrite map_map, combine_map_l, map_map. reflexivity.
    + rewrite map_map.
      rewrite <- (map_fst_combine l S) at 1 by (symmetry; exact HS).
      rewrite map_map. reflexivity.
  - rewrite length_map, length_combine, HS. apply Nat.min_id.
Qed.

(** With the default Fermi level 0 the shift takes nothing off. *)
Lemma read_back_default (c x s : float) (i : nat) :
  is_nonzero_finite c = true -> isfinite s = true ->
  same_number (read_back c zero i x s) (to_Ry_and_back c x).
Proof.
  intros Hc Hs. unfold read_back.
  destruct (i <? 2)%nat; [|left; reflexivity].
  generalize (to_Ry_and_back c x). intros y.
  destruct c as [| | |sc mc ec]; try discriminate.
  assert (E0 : to_Ry_and_back (S754_finite sc mc ec) zero = S754_zero false).
  { destruct sc; reflexivity. }
  rewrite E0.
  destruct s as [ss|ss| |ss ms es]; try discriminate;
    destruct y as [[]|[]| |[] my ey]; destruct ss;
    try (left; reflexivity); right; eexists; eexists; split; reflexivity.
Qed.

Lemma read_back_default_all (c : float) (i : nat) (l S : list float) :
  is_nonzero_finite c = true ->
  Forall (fun s => isfinite s = true) S ->
  length S = length l ->
  Forall2 same_number
          (map (fun xs => read_back c zero i (fst xs) (snd xs)) (combine l S))
          (map (to_Ry_and_back c) l).
Proof.
  intros Hc HS. revert l. induction HS as [|s S Hs _ IH]; intros l Hl.
  - destruct l; [constructor | discriminate].
  - destruct l as [|x l]; [discriminate|]. simpl. constructor.
    + apply read_back_default; assumption.
    + apply IH. simpl in Hl. lia.
Qed.



Example write_H_onsite :
  write_hamiltonian Ry2eV_sample (fun H => H) H_onsite zero
  = Ok (mkNC 1 [zero] [2; 1]%Z [1; 2; 2]%Z [one; zero; one]
             [[fdiv f_half Ry2eV_sample; fdiv f_m1_5 Ry2eV_sample;
               fdiv f_0_75 Ry2eV_sample]]).
Proof. vm_compute. reflexivity. Qed.


(* ===================================================================== *)
(** * Further properties of the Siesta NetCDF adapter *)
(* ===================================================================== *)



(** ** The density matrices *)

Lemma written_overlap_ok (M : hamiltonian) :
  length (_D M) = nnz M ->
  (orthogonal M = true -> length (concat (orthogonal_pattern M)) = nnz M) ->
  exists S,
    written_overlap M = Ok S /\ length S = nnz M /\
    (orthogonal M = false -> S = column (_D M) (spin M)).
Proof.
  intros HD Hon. unfold written_overlap.
  destruct (orthogonal M) eqn:Eo.
  - specialize (Hon eq_refl). rewrite Hon, Nat.eqb_refl. cbn [negb].
    eexists. split; [reflexivity|].
    split; [rewrite length_map; exact Hon | discriminate].
  - eexists. split; [reflexivity|].
    split; [rewrite length_column; exact HD | reflexivity].
Qed.

(** X19: A finalized floating-point density matrix with a consistent pattern
    (non-negative row counts that add up to the element count, below
    2^31) is read back exactly as written: [write_density_matrix]
    followed by [read_density_matrix] restores the row counts, the
    column indices and every spin component with no change of value,
    and in a non-orthogonal basis the overlap column too.  The matrix
    read is always non-orthogonal. *)
Theorem density_matrix_round_trip
        (finalize : hamiltonian -> hamiltonian) (DM : hamiltonian) :
  finalize DM = DM ->
  dkind DM = KindFloat ->
  nnz DM <> 0%nat ->
  Forall in_int32 (col DM) ->
  Forall (fun x => 0 <= x)%Z (ncol DM) ->
  fold_right Z.add 0%Z (ncol DM) = Z.of_nat (nnz DM) ->
  (Z.of_nat (nnz DM) < 2147483648)%Z ->
  length (_D DM) = nnz DM ->
  (orthogonal DM = true -> length (concat (orthogonal_pattern DM)) = nnz DM) ->
  exists f DM',
    write_density_matrix finalize DM = Ok f /\
    read_density_matrix f = Ok DM' /\
    spin DM' = spin DM /\
    ncol DM' = ncol DM /\
    col DM' = col DM /\
    orthogonal DM' = false /\
    length (_D DM') = nnz DM /\
    (forall i, (i < spin DM)%nat -> column (_D DM') i = column (_D DM) i) /\
    (orthogonal DM = false ->
     column (_D DM') (spin DM) = column (_D DM) (spin DM)).
Proof.
  intros Hfin Hk Hnz Hcol Hpos Hsum Hb HD Hon.
  destruct (written_overlap_ok DM HD Hon) as (S & HwS & HS & HSno).
  destruct (@read_class_spin_back DM S Hcol Hpos Hsum Hb HS)
    as (D0 & Hr0 & HlD0 & HwD0 & HcS).
  destruct (@read_back_components (fun _ row => Ok row) (fun row => row)
              (fun i => column (_D DM) i) DM S D0 HlD0 HwD0 HcS)
    as (D' & Hrec & Hn' & Hcols & HcS').
  { intros i Hi. split; [reflexivity|]. rewrite length_column. exact HD. }
  eexists. eexists. split.
  { unfold write_density_matrix.
    destruct (Nat.eqb_spec (nnz DM) 0) as [E|_]; [congruence|].
    rewrite Hfin, Hk, HwS. reflexivity. }
  split.
  { unfold read_density_matrix. cbn [sf_spin sf_n_col sf_list_col sf_S sf_data].
    rewrite Hr0. cbn [bind spin _D orthogonal dkind ncol ptr col].
    rewrite Hrec. reflexivity. }
  cbn [spin ncol col orthogonal _D].
  split; [reflexivity|]. split; [reflexivity|]. split; [reflexivity|].
  split; [reflexivity|]. split; [exact Hn'|].
  split; [exact Hcols|].
  intros Hno. rewrite HcS'. apply HSno. exact Hno.
Qed.

Lemma density_matrix_round_trip_witness :
  exists f DM',
    write_density_matrix (fun M => M) H_overlap = Ok f /\
    read_density_matrix f = Ok DM' /\
    spin DM' = spin H_overlap /\
    ncol DM' = ncol H_overlap /\
    col DM' = col H_overlap /\
    orthogonal DM' = false /\
    length (_D DM') = nnz H_overlap /\
    (forall i, (i < spin H_overlap)%nat ->
               column (_D DM') i = column (_D H_overlap) i) /\
    (orthogonal H_overlap = false ->
     column (_D DM') (spin H_overlap) = column (_D H_overlap) (spin H_overlap)).
Proof.
  refine (@density_matrix_round_trip (fun M => M) H_overlap
            eq_refl eq_refl _ _ _ eq_refl _ eq_refl _).
  - vm_compute. discriminate.
  - repeat constructor; unfold in_int32; simpl; lia.
  - repeat constructor; simpl; lia.
  - simpl. lia.
  - intros Ho. discriminate Ho.
Defined.

(** X20: A finalized float64 energy density matrix with a consistent
    pattern is read back with its pattern unchanged and with every
    value converted to Ry and back in float64:
    [write_energy_density_matrix] followed by
    [read_energy_density_matrix] restores the row counts and the column
    indices exactly, and an element [x] of a spin component comes back
    as [fl(fl(x / Ry2eV) * Ry2eV)], which is not always [x]: with
    [Ry2eV] the double 13.605814541346533 the value 1.9 comes back as
    1.9000000000000001. *)
Theorem energy_density_matrix_round_trip
        (Ry2eV : float) (finalize : hamiltonian -> hamiltonian)
        (EDM : hamiltonian) :
  finalize EDM = EDM ->
  dkind EDM = KindFloat ->
  nnz EDM <> 0%nat ->
  Forall in_int32 (col EDM) ->
  Forall (fun x => 0 <= x)%Z (ncol EDM) ->
  fold_right Z.add 0%Z (ncol EDM) = Z.of_nat (nnz EDM) ->
  (Z.of_nat (nnz EDM) < 2147483648)%Z ->
  length (_D EDM) = nnz EDM ->
  (orthogonal EDM = true ->
   length (concat (orthogonal_pattern EDM)) = nnz EDM) ->
  (exists f EDM',
     write_energy_density_matrix Ry2eV finalize EDM = Ok f /\
     sf_data f = map (fun i => map (fun x => fdiv x Ry2eV) (column (_D EDM) i))
                     (seq 0 (spin EDM)) /\
     read_energy_density_matrix Ry2eV f = Ok EDM' /\
     spin EDM' = spin EDM /\
     ncol EDM' = ncol EDM /\
     col EDM' = col EDM /\
     length (_D EDM') = nnz EDM /\
     forall i, (i < spin EDM)%nat ->
               column (_D EDM') i
               = map (to_Ry_and_back Ry2eV) (column (_D EDM) i)) /\
  to_Ry_and_back Ry2eV_sample f_1_9 = f_1_9_next.
Proof.
  intros Hfin Hk Hnz Hcol Hpos Hsum Hb HD Hon.
  split; [|vm_compute; reflexivity].
  destruct (written_overlap_ok EDM HD Hon) as (S & HwS & HS & _).
  destruct (@read_class_spin_back EDM S Hcol Hpos Hsum Hb HS)
    as (D0 & Hr0 & HlD0 & HwD0 & HcS).
  destruct (@read_back_components
              (fun _ row => Ok (map (fun x => fmul x Ry2eV) row))
              (map (fun x => fdiv x Ry2eV))
              (fun i => map (to_Ry_and_back Ry2eV) (column (_D EDM) i))
              EDM S D0 HlD0 HwD0 HcS)
    as (D' & Hrec & Hn' & Hcols & _).
  { intros i Hi. split.
    - rewrite map_map. reflexivity.
    - rewrite length_map, length_column. exact HD. }
  eexists. eexists. split.
  { unfold write_energy_density_matrix.
    destruct (Nat.eqb_spec (nnz EDM) 0) as [E|_]; [congruence|].
    rewrite Hfin, Hk, HwS. reflexivity. }
  cbn [sf_spin sf_n_col sf_list_col sf_S sf_data].
  split; [reflexivity|].
  split.
  { unfold read_energy_density_matrix.
    cbn [sf_spin sf_n_col sf_list_col sf_S sf_data].
    rewrite Hr0. cbn [bind spin _D orthogonal dkind ncol ptr col].
    rewrite Hrec. reflexivity. }
  cbn [spin ncol col _D].
  split; [reflexivity|]. split; [reflexivity|]. split; [reflexivity|].
  split; [exact Hn'|]. exact Hcols.
Qed.

Lemma energy_density_matrix_round_trip_witness :
  (exists f EDM',
     write_energy_density_matrix Ry2eV_sample (fun M => M) H_single = Ok f /\
     sf_data f = map (fun i => map (fun x => fdiv x Ry2eV_sample)
                                   (column (_D H_single) i))
                     (seq 0 (spin H_single)) /\
     read_energy_density_matrix Ry2eV_sample f = Ok EDM' /\
     spin EDM' = spin H_single /\
     ncol EDM' = ncol H_single /\
     col EDM' = col H_single /\
     length (_D EDM') = nnz H_single /\
     forall i, (i < spin H_single)%nat ->
               column (_D EDM') i
               = map (to_Ry_and_back Ry2eV_sample) (column (_D H_single) i)) /\
  to_Ry_and_back Ry2eV_sample f_1_9 = f_1_9_next.
Proof.
  refine (@energy_density_matrix_round_trip Ry2eV_sample (fun M => M)
            H_single eq_refl eq_refl _ _ _ eq_refl _ eq_refl _).
  - vm_compute. discriminate.
  - repeat constructor; unfold in_int32; simpl; lia.
  - repeat constructor; simpl; lia.
  - simpl. lia.
  - intros _. reflexivity.
Defined.
Import MP.


Local Open Scope Q_scope.

Lemma weight_sum_kept (kept : list (kpoint * Q * bool)) :
  weight_sum (map (fun e => (fst (fst e), snd (fst e))) kept) = kept_sum kept.
Proof. induction kept as [|e kept IH]; simpl; [reflexivity | rewrite IH; reflexivity]. Qed.

Lemma kept_sum_app (a b : list (kpoint * Q * bool)) :
  kept_sum (a ++ b) == kept_sum a + kept_sum b.
Proof.
  induction a as [|e a IH]; simpl.
  - ring.
  - rewrite IH. ring.
Qed.

Lemma unpaired_have_app (w : Q) (a b : list (kpoint * Q * bool)) :
  unpaired_have w a -> unpaired_have w b -> unpaired_have w (a ++ b).
Proof. unfold unpaired_have. intros Ha Hb. apply Forall_app. split; assumption. Qed.

(** Dropping a point onto its representative keeps the total weight. *)
Lemma pair_up_sum (w : Q) (kept kept' : list (kpoint * Q * bool)) (k : kpoint) :
  unpaired_have w kept ->
  pair_up kept k = Some kept' ->
  kept_sum kept' == kept_sum kept + w /\ unpaired_have w kept'.
Proof.
  revert kept'. induction kept as [|[[r wr] paired] rest IH]; simpl; intros kept' Hinv H.
  - discriminate.
  - inversion Hinv as [|e l Hhd Htl]; subst. simpl in Hhd.
    destruct (negb paired && is_negative_of r k) eqn:E.
    + inversion H; subst; clear H. simpl.
      apply andb_true_iff in E. destruct E as [Ep _].
      apply negb_true_iff in Ep. specialize (Hhd Ep).
      split.
      * rewrite Hhd. ring.
      * constructor; [simpl; discriminate | exact Htl].
    + destruct (pair_up rest k) as [rest'|] eqn:Er; [|discriminate].
      inversion H; subst; clear H. simpl.
      destruct (IH rest' Htl eq_refl) as [Hs Hi].
      split.
      * rewrite Hs. ring.
      * constructor; [exact Hhd | exact Hi].
Qed.

Lemma collapse_step_sum (w : Q) (kept : list (kpoint * Q * bool)) (p : kpoint * Q) :
  unpaired_have w kept -> snd p == w ->
  kept_sum (collapse_step kept p) == kept_sum kept + snd p /\
  unpaired_have w (collapse_step kept p).
Proof.
  destruct p as [k wk]. simpl. intros Hinv Hw. unfold collapse_step.
  destruct (is_negative_of k k).
  - split.
    + rewrite kept_sum_app. simpl. ring.
    + apply unpaired_have_app; [exact Hinv|].
      constructor; [simpl; discriminate | constructor].
  - destruct (pair_up kept k) as [kept'|] eqn:E.
    + destruct (@pair_up_sum w kept kept' k Hinv E) as [Hs Hi].
      split; [rewrite Hs, Hw; reflexivity | exact Hi].
    + split.
      * rewrite kept_sum_app. simpl. ring.
      * apply unpaired_have_app; [exact Hinv|].
        constructor; [simpl; intros _; exact Hw | constructor].
Qed.

Lemma collapse_fold_sum (w : Q) (pts : list (kpoint * Q))
      (kept : list (kpoint * Q * bool)) :
  Forall (fun p => snd p == w) pts ->
  unpaired_have w kept ->
  kept_sum (fold_left collapse_step pts kept) == kept_sum kept + weight_sum pts.
Proof.
  intros Hall. revert kept. induction Hall as [|p pts Hp _ IH]; intros kept Hinv; simpl.
  - ring.
  - destruct (@collapse_step_sum w kept p Hinv Hp) as [Hs Hi].
    rewrite (IH _ Hi), Hs. ring.
Qed.

(** The collapse of the pairs keeps the sum of the weights of a grid
    whose points all have one weight. *)
Lemma trs_collapse_weight_sum (w : Q) (pts : list (kpoint * Q)) :
  Forall (fun p => snd p == w) pts ->
  weight_sum (trs_collapse pts) == weight_sum pts.
Proof.
  intros Hall. unfold trs_collapse. rewrite weight_sum_kept.
  rewrite (@collapse_fold_sum w pts [] Hall); [simpl; ring | constructor].
Qed.

Lemma length_flat_map_uniform (A B : Type) (f : A -> list B) (l : list A) (m : nat) :
  (forall x, length (f x) = m) -> length (flat_map f l) = (length l * m)%nat.
Proof.
  intros Hf. induction l as [|x l IH]; simpl; [reflexivity|].
  rewrite length_app, Hf, IH. reflexivity.
Qed.

Lemma length_axis_points (trs : bool) (n : nat) (displ size : Q) :
  length (axis_points trs n displ size) = n.
Proof. unfold axis_points. rewrite length_map. apply length_seq. Qed.

(** The grid has [nx * ny * nz] points. *)
Lemma length_full_grid (trs : bool) (nx ny nz : nat) (displ size : Q * Q * Q) :
  length (full_grid trs nx ny nz displ size) = (nx * ny * nz)%nat.
Proof.
  destruct displ as [[dx dy] dz], size as [[sx sy] sz]. unfold full_grid.
  rewrite length_flat_map_uniform with (m := (ny * nz)%nat).
  - rewrite length_axis_points. lia.
  - intros x. rewrite length_flat_map_uniform with (m := nz).
    + rewrite length_axis_points. reflexivity.
    + intros y. rewrite length_map. apply length_axis_points.
Qed.

(** Every point of the grid has the weight [point_weight]. *)
Lemma full_grid_uniform (trs : bool) (nx ny nz : nat) (displ size : Q * Q * Q) :
  Forall (fun p => snd p == point_weight nx ny nz size)
         (full_grid trs nx ny nz displ size).
Proof.
  destruct displ as [[dx dy] dz], size as [[sx sy] sz]. unfold full_grid.
  apply Forall_forall. intros p Hp.
  apply in_flat_map in Hp. destruct Hp as (x & _ & Hp).
  apply in_flat_map in Hp. destruct Hp as (y & _ & Hp).
  apply in_map_iff in Hp. destruct Hp as (z & <- & _).
  simpl. apply Qeq_refl.
Qed.

Lemma weight_sum_uniform (w : Q) (pts : list (kpoint * Q)) :
  Forall (fun p => snd p == w) pts ->
  weight_sum pts == inject_Z (Z.of_nat (length pts)) * w.
Proof.
  induction 1 as [|p pts Hp _ IH].
  - simpl. ring.
  - cbn [weight_sum fold_right length]. fold (weight_sum pts).
    rewrite IH, Hp, Nat2Z.inj_succ. unfold Z.succ.
    rewrite inject_Z_plus. ring.
Qed.

(** The weights of the model sum to the product of the size factors,
    exactly, for every grid with at least one point per axis. *)
Lemma monkhorst_pack_weight_sum_exact (nx ny nz : nat) (displ size : Q * Q * Q)
      (trs : bool) :
  (1 <= nx)%nat -> (1 <= ny)%nat -> (1 <= nz)%nat ->
  weight_sum (MonkhorstPack nx ny nz displ size trs)
  == fst (fst size) * snd (fst size) * snd size.
Proof.
  intros Hx Hy Hz.
  assert (Hgrid : weight_sum (full_grid trs nx ny nz displ size)
                  == fst (fst size) * snd (fst size) * snd size).
  { rewrite (weight_sum_uniform (full_grid_uniform trs nx ny nz displ size)).
    rewrite length_full_grid.
    destruct size as [[sx sy] sz]. unfold point_weight. simpl.
    field. intros Hc.
    assert (Hn : (Z.of_nat (nx * ny * nz) = 0)%Z).
    { unfold Qeq in Hc. simpl in Hc. lia. }
    assert (0 < nx * ny * nz)%nat by (repeat apply Nat.mul_pos_pos; lia).
    lia. }
  unfold MonkhorstPack. destruct trs; [|exact Hgrid].
  rewrite (trs_collapse_weight_sum (full_grid_uniform true nx ny nz displ size)).
  exact Hgrid.
Qed.

(** C8: for every Monkhorst-Pack grid with axis sizes [1 <= nx <= 10],
    [1 <= ny <= 20], [1 <= nz <= 6], with or without the reduction by
    time-reversal symmetry, for any displacement and any size factors,
    the sum of all k-point weights is within 1e-9 of the product of the
    size factors, which is 1 when the size is not given. *)
Theorem monkhorst_pack_weights_sum (nx ny nz : nat) (displ size : Q * Q * Q)
        (trs : bool) :
  (1 <= nx <= 10)%nat -> (1 <= ny <= 20)%nat -> (1 <= nz <= 6)%nat ->
  Qabs (weight_sum (MonkhorstPack nx ny nz displ size trs)
        - fst (fst size) * snd (fst size) * snd size) <= 1 # 1000000000 /\
  Qabs (weight_sum (MonkhorstPack nx ny nz displ (1, 1, 1) trs) - 1)
  <= 1 # 1000000000.
Proof.
  intros [Hx _] [Hy _] [Hz _]. split.
  - rewrite (monkhorst_pack_weight_sum_exact displ size trs Hx Hy Hz).
    setoid_replace (fst (fst size) * snd (fst size) * snd size
                    - fst (fst size) * snd (fst size) * snd size) with 0 by ring.
    discriminate.
  - rewrite (monkhorst_pack_weight_sum_exact displ (1, 1, 1) trs Hx Hy Hz).
    simpl. discriminate.
Qed.

Lemma monkhorst_pack_weights_sum_witness :
  Qabs (weight_sum (MonkhorstPack 3 2 1 (1 # 5, 0, 0) (1 # 20, 1 # 2, 9 # 10) true)
        - (1 # 20) * (1 # 2) * (9 # 10)) <= 1 # 1000000000 /\
  Qabs (weight_sum (MonkhorstPack 3 2 1 (1 # 5, 0, 0) (1, 1, 1) true) - 1)
  <= 1 # 1000000000.
Proof.
  refine (@monkhorst_pack_weights_sum 3 2 1 (1 # 5, 0, 0) (1 # 20, 1 # 2, 9 # 10)
            true _ _ _); lia.
Defined.

Local Close Scope Q_scope.
